(** * ScreenR: project assembler, element detector and step deletion

    A shallow embedding of the parts of ScreenR that turn a recorded
    automation trace into a playable project document
    ([src/core/assembler.ts]), that name a detected element
    ([src/core/element-detector.ts]) and that delete a step of a studio
    tutorial ([src/app/server.ts]), followed by the properties proved
    about them.

    Conventions of the embedding:
    - a JavaScript string is the [string] of the bytes of its UTF-8
      form; [Js.length] and [Js.substring0] count UTF-16 code units as
      the source does, [Js.trim] and [split_ws] know the white space
      of the language, and [Js.toLowerCase] acts on the ASCII range;
    - millisecond times are [Z], percentages of the viewport are [Q],
      array indices and the [order] counter are [nat];
    - an optional property ([highlight?], [width?], ...) is an [option];
    - [Array.prototype.forEach] with [push] on a local array is a left
      fold that appends at the end;
    - the platform calls of [assembleProject] (uuid, clock, file system)
      are answered by an explicit environment record. *)

From Stdlib Require Import Ascii String QArith Lqa.
From stdpp Require Import base strings list gmap pretty.

Local Open Scope string_scope.
Local Open Scope list_scope.
Local Open Scope Z_scope.

(** ** JavaScript values used by the sources *)

Module Js.

(** The double-quote character, as a string. *)
Definition dquote : string := String (ascii_of_nat 34) EmptyString.

(** [s || d] on strings: the empty string is falsy. *)
Definition str_or (s d : string) : string :=
  if decide (s = EmptyString) then d else s.

(** [o || d] for a possibly missing string. *)
Definition opt_str_or (o : option string) (d : string) : string :=
  match o with
  | Some s => str_or s d
  | None => d
  end.

(** Truthiness of a possibly missing string. *)
Definition truthy (o : option string) : bool :=
  match o with
  | Some s => bool_decide (s ≠ EmptyString)
  | None => false
  end.

Definition lower_ascii (c : ascii) : ascii :=
  let n := nat_of_ascii c in
  if ((65 <=? n) && (n <=? 90))%nat then ascii_of_nat (n + 32) else c.

(** [s.toLowerCase()] for the letters of the ASCII range; every other
    byte is kept, as it is for Hebrew and Arabic text, which has no
    case. *)
Fixpoint toLowerCase (s : string) : string :=
  match s with
  | EmptyString => EmptyString
  | String c r => String (lower_ascii c) (toLowerCase r)
  end.

(** *** Code units

    A character of the ASCII range is one byte and one code unit; a
    character of two or three bytes is one code unit, and a character
    of four bytes is a pair of surrogates, two code units.  The bytes
    after the first of a character lie between 128 and 191.  A surrogate
    outside a pair, which only [substring] produces here, is written by
    the three bytes the same scheme gives its number.  A byte between
    128 and 191 that continues no character counts as a character of
    its own, so that only the empty string has length 0. *)

Definition is_continuation (a : ascii) : bool :=
  let n := nat_of_ascii a in
  ((128 <=? n) && (n <? 192))%nat.

(** The code units of the character that the byte [a] starts. *)
Definition units (a : ascii) : nat :=
  if (nat_of_ascii a <? 240)%nat then 1%nat else 2%nat.

(** The number of bytes that follow [a] in the character it starts. *)
Definition following (a : ascii) : nat :=
  let n := nat_of_ascii a in
  if (n <? 192)%nat then 0%nat
  else if (n <? 224)%nat then 1%nat
  else if (n <? 240)%nat then 2%nat
  else 3%nat.

(** The code units of [s], of which the first [k] bytes may continue a
    character counted before. *)
Fixpoint length_from (k : nat) (s : string) : nat :=
  match s with
  | EmptyString => 0%nat
  | String a r =>
      match is_continuation a, k with
      | true, S k' => length_from k' r
      | _, _ => (units a + length_from (following a) r)%nat
      end
  end.

(** [s.length] *)
Definition length (s : string) : nat := length_from 0 s.

(** The first surrogate of the character of four bytes that starts
    with the bytes [a], [b] and [c]. *)
Definition high_surrogate (a b c : ascii) : string :=
  let v := ((N_of_ascii a - 240) * 256 + (N_of_ascii b - 128) * 4
            + (N_of_ascii c - 128) / 16)%N in
  let high := (55296 + v - 64)%N in
  String (ascii_of_nat 237)
    (String (ascii_of_N (128 + (high / 64) mod 64)%N)
       (String (ascii_of_N (128 + high mod 64)%N) EmptyString)).

(** The first [n] code units of [s], of which the first [k] bytes may
    continue a character taken before.  When the cut falls between the
    two code units of a character, the first of them is kept. *)
Fixpoint substring_from (k n : nat) (s : string) : string :=
  match s with
  | EmptyString => EmptyString
  | String a r =>
      match is_continuation a, k with
      | true, S k' => String a (substring_from k' n r)
      | _, _ =>
          if (units a <=? n)%nat
          then String a (substring_from (following a) (n - units a) r)
          else if (n =? 1)%nat then
            match r with
            | String b (String c _) => high_surrogate a b c
            | _ => EmptyString
            end
          else EmptyString
      end
  end.

(** [s.substring(0, n)] *)
Definition substring0 (n : nat) (s : string) : string :=
  substring_from 0 n s.

(** *** White space

    The white space and the line terminators of the language, which
    [trim] removes and [\s] matches: six characters of the ASCII range,
    U+00A0, and in three bytes U+1680, U+2000 to U+200A, U+2028, U+2029,
    U+202F, U+205F, U+3000 and U+FEFF. *)

Definition is_space (c : ascii) : bool :=
  let n := nat_of_ascii c in
  ((n =? 32) || ((9 <=? n) && (n <=? 13)))%nat.

Definition is_space2 (a b : ascii) : bool :=
  ((nat_of_ascii a =? 194) && (nat_of_ascii b =? 160))%nat.

Definition is_space3 (a b c : ascii) : bool :=
  let a := nat_of_ascii a in
  let b := nat_of_ascii b in
  let c := nat_of_ascii c in
  ((a =? 225) && (b =? 154) && (c =? 128)
   || (a =? 226) && (b =? 128)
      && ((128 <=? c) && (c <=? 138) || (c =? 168) || (c =? 169)
          || (c =? 175))
   || (a =? 226) && (b =? 129) && (c =? 159)
   || (a =? 227) && (b =? 128) && (c =? 128)
   || (a =? 239) && (b =? 187) && (c =? 191))%nat.

(** [s] without the characters at its start that [w1], [w2] and [w3]
    accept, which read one, two and three bytes. *)
Fixpoint strip (w1 : ascii → bool) (w2 : ascii → ascii → bool)
    (w3 : ascii → ascii → ascii → bool) (s : string) : string :=
  match s with
  | EmptyString => s
  | String a r1 =>
      if w1 a then strip w1 w2 w3 r1
      else
        match r1 with
        | EmptyString => s
        | String b r2 =>
            if w2 a b then strip w1 w2 w3 r2
            else
              match r2 with
              | EmptyString => s
              | String c r3 => if w3 a b c then strip w1 w2 w3 r3 else s
              end
        end
  end.

Definition trimStart (s : string) : string :=
  strip is_space is_space2 is_space3 s.

(** The white space at the end is the white space at the start of the
    reversed string, its bytes read in the reverse order. *)
Definition trimEnd (s : string) : string :=
  String.rev
    (strip is_space (λ b a, is_space2 a b) (λ c b a, is_space3 a b c)
       (String.rev s)).

Definition trim (s : string) : string := trimEnd (trimStart s).

Fixpoint drop_chars (n : nat) (s : string) : string :=
  match n, s with
  | O, _ => s
  | S _, EmptyString => EmptyString
  | S m, String _ r => drop_chars m r
  end.

(** [s.replace(pat, '')] with a string pattern: the first occurrence of
    [pat] is removed, and [s] is unchanged when there is none. *)
Fixpoint remove_first (pat s : string) : string :=
  if String.prefix pat s then drop_chars (String.length pat) s
  else match s with
       | EmptyString => EmptyString
       | String c r => String c (remove_first pat r)
       end.

(** [s.replace(/\\/g, '/')] *)
Fixpoint slashes (s : string) : string :=
  match s with
  | EmptyString => EmptyString
  | String c r =>
      String (if decide (c = "\"%char) then "/"%char else c) (slashes r)
  end.

(** [arr.find(p)]: the first element satisfying [p]. *)
Definition find {A} (P : A → Prop) `{∀ x, Decision (P x)}
    (l : list A) : option A :=
  snd <$> list_find P l.

(** [arr.findIndex(p)]: [None] stands for [-1]. *)
Definition findIndex {A} (P : A → Prop) `{∀ x, Decision (P x)}
    (l : list A) : option nat :=
  fst <$> list_find P l.

End Js.

(** ** Data model ([src/types/project.ts], [src/core/browser.ts]) *)

Inductive StepAction :=
  | navigate | click | type | wait | scroll | hover | screenshot.

Global Instance StepAction_eq_dec : EqDecision StepAction.
Proof. solve_decision. Defined.

Inductive HighlightType := circle | rectangle | arrow | pulse.

Global Instance HighlightType_eq_dec : EqDecision HighlightType.
Proof. solve_decision. Defined.

(** [ClickTarget.highlightType] *)
Inductive TargetHighlight := t_pulse | t_glow | t_arrow | t_none.

Record StepHighlight := {
  sh_x : Q;
  sh_y : Q;
  sh_type : HighlightType
}.

Record AutomationStep := {
  step_id : string;
  step_action : StepAction;
  step_selector : option string;
  step_value : option string;
  step_description : string;
  step_narration : string;
  step_waitAfter : option Z;
  step_waitForSelector : option string;
  step_highlight : option StepHighlight
}.

Record StepTimestamp := {
  ts_stepId : string;
  ts_startTime : Z;
  ts_endTime : Z
}.

Record SubtitleEntry := {
  sub_id : string;
  sub_start : Z;
  sub_end : Z;
  sub_text : string
}.

Record ElementInfo := {
  ei_tagName : string;
  ei_fieldName : string;
  ei_fieldType : option string;
  ei_action : string;
  ei_value : option string;
  ei_selector : string
}.

Record TooltipTranslation := {
  tt_fieldName : string;
  tt_actionDescription : string
}.

Record HighlightEntry := {
  hl_id : string;
  hl_start : Z;
  hl_end : Z;
  hl_x : Q;
  hl_y : Q;
  hl_width : option Q;
  hl_height : option Q;
  hl_type : HighlightType;
  hl_color : option string;
  hl_label : option string;
  hl_elementInfo : option ElementInfo;
  hl_translations : option (gmap string TooltipTranslation);
  hl_screenshotFile : option string
}.

Inductive QuestionType := multiple_choice | true_false | click_target.

Record QuestionOption := {
  qo_id : string;
  qo_text : string
}.

(** [Omit<QuestionEntry, 'id'>]; [correctAnswer] is [string | number]. *)
Record QuestionBody := {
  q_at : Z;
  q_pauseVideo : bool;
  q_question : string;
  q_type : QuestionType;
  q_options : option (list QuestionOption);
  q_correctAnswer : string + Z;
  q_feedback : option (string * string)
}.

Record QuestionEntry := {
  q_id : string;
  q_body : QuestionBody
}.

Record ChapterEntry := {
  ch_title : string;
  ch_startTime : Z
}.

Inductive GeneratedBy := by_ai | by_manual.

Record SummaryLayer := {
  keyPoints : list string;
  chapters : list ChapterEntry;
  generatedBy : GeneratedBy
}.

Record ClickTarget := {
  ct_x : Q;
  ct_y : Q;
  ct_width : Q;
  ct_height : Q;
  ct_highlightType : option TargetHighlight;
  ct_highlightColor : option string;
  ct_tolerance : option Q
}.

Record OnCorrect := {
  oc_feedback : option string;
  oc_autoAdvance : option bool;
  oc_playSegment : option (Z * Z)
}.

Record OnIncorrect := {
  oi_feedback : option string;
  oi_showHint : option bool;
  oi_maxAttempts : option Z
}.

Record Scoring := {
  sc_points : Z;
  sc_timeBonus : option bool;
  sc_penaltyPerWrongClick : option Z
}.

Record InteractiveStep := {
  is_id : string;
  is_order : nat;
  is_instruction : string;
  is_hint : option string;
  is_target : ClickTarget;
  is_onCorrect : option OnCorrect;
  is_onIncorrect : option OnIncorrect;
  is_scoring : option Scoring
}.

Record VideoLayer := {
  v_src : string;
  v_width : Z;
  v_height : Z
}.

Record AudioLayer := {
  a_src : string;
  a_volume : Q
}.

Record ProjectLayers := {
  video : VideoLayer;
  audio : AudioLayer;
  subtitles : list SubtitleEntry;
  highlights : list HighlightEntry;
  questions : list QuestionEntry;
  summary : option SummaryLayer
}.

Inductive ScormVersion := scorm_1_2 | scorm_2004.

Record ScormConfig := {
  scorm_version : ScormVersion;
  scorm_completionThreshold : Q;
  scorm_passingScore : option Q;
  scorm_trackQuestions : bool
}.

Record Project := {
  p_id : string;
  p_title : string;
  p_description : string;
  p_targetUrl : string;
  p_duration : Z;
  p_createdAt : string;
  p_layers : ProjectLayers;
  p_interactiveSteps : list InteractiveStep;
  p_scorm : option ScormConfig;
  p_defaultLanguage : string;
  p_availableLanguages : list string
}.

(** ** The assembler ([src/core/assembler.ts]) *)

Module Assembler.

(** [NarrationSegment] of [src/core/narration.ts]; the assembler
    accepts the segments and never reads them. *)
Record NarrationSegment := {
  ns_stepId : string;
  ns_text : string;
  ns_audioFile : option string;
  ns_duration : option Z
}.

(** The fields [questions] and [generateSummary] of the source are
    [inputQuestions] and [generateSummaryFlag] here, apart from the
    layer field and the function of the same names. *)
Record AssemblerInput := {
  title : string;
  description : string;
  targetUrl : string;
  videoPath : string;
  audioPath : option string;
  steps : list AutomationStep;
  timestamps : list StepTimestamp;
  narrationSegments : option (list NarrationSegment);
  inputQuestions : option (list QuestionBody);
  generateSummaryFlag : option bool;
  autoHighlights : option (list HighlightEntry);
  defaultLanguage : option string;
  availableLanguages : option (list string)
}.

Record AssemblerOutput := {
  project : Project;
  outputDir : string
}.

(** [timestamps.find((t) => t.stepId === step.id)] *)
Definition timestampOf (timestamps : list StepTimestamp)
    (step : AutomationStep) : option StepTimestamp :=
  Js.find (λ t, ts_stepId t = step_id step) timestamps.

(** The callback of [steps.forEach] in [generateSubtitles], as a
    function of the array built so far. *)
Definition pushSubtitle (timestamps : list StepTimestamp)
    (subtitles : list SubtitleEntry) (step : AutomationStep)
    : list SubtitleEntry :=
  match timestampOf timestamps step with
  | Some timestamp =>
      if decide (step_narration step = EmptyString) then subtitles
      else subtitles ++
           [ {| sub_id := "subtitle-" +:+ step_id step;
                sub_start := ts_startTime timestamp;
                sub_end := ts_endTime timestamp;
                sub_text := step_narration step |} ]
  | None => subtitles
  end.

Definition generateSubtitles (steps : list AutomationStep)
    (timestamps : list StepTimestamp) : list SubtitleEntry :=
  foldl (pushSubtitle timestamps) [] steps.

(** The object pushed by [generateHighlights] for a step with the
    hint [h] and the timestamp [timestamp]. *)
Definition highlightOf (step : AutomationStep) (h : StepHighlight)
    (timestamp : StepTimestamp) : HighlightEntry :=
  {| hl_id := "highlight-" +:+ step_id step;
     hl_start := ts_startTime timestamp;
     hl_end := ts_endTime timestamp;
     hl_x := sh_x h;
     hl_y := sh_y h;
     hl_width := Some 5%Q;
     hl_height := Some 5%Q;
     hl_type := sh_type h;
     hl_color := None;
     hl_label := None;
     hl_elementInfo := None;
     hl_translations := None;
     hl_screenshotFile := None |}.

(** The callback of [steps.forEach] in [generateHighlights]. *)
Definition pushHighlight (timestamps : list StepTimestamp)
    (highlights : list HighlightEntry) (step : AutomationStep)
    : list HighlightEntry :=
  match step_highlight step with
  | Some h =>
      match timestampOf timestamps step with
      | Some timestamp => highlights ++ [highlightOf step h timestamp]
      | None => highlights
      end
  | None => highlights
  end.

Definition generateHighlights (steps : list AutomationStep)
    (timestamps : list StepTimestamp) : list HighlightEntry :=
  foldl (pushHighlight timestamps) [] steps.

(** [timestamp?.startTime || 0] *)
Definition startTime_or_0 (o : option StepTimestamp) : Z :=
  match o with
  | Some timestamp =>
      if decide (ts_startTime timestamp = 0) then 0
      else ts_startTime timestamp
  | None => 0
  end.

Definition generateSummary (steps : list AutomationStep)
    (timestamps : list StepTimestamp) : SummaryLayer :=
  let keyPoints :=
    step_description <$> filter (λ s, step_action s ≠ wait) steps in
  let chapters :=
    (λ step, {| ch_title := step_description step;
                ch_startTime :=
                  startTime_or_0 (timestampOf timestamps step) |})
    <$> filter (λ s, step_action s ∈ [navigate; click]) steps in
  {| keyPoints := keyPoints; chapters := chapters; generatedBy := by_ai |}.

(** The object pushed by [generateInteractiveSteps] for [step] when
    the counter stands at [order]. *)
Definition interactiveStepOf (order : nat) (step : AutomationStep)
    (h : StepHighlight) : InteractiveStep :=
  {| is_id := "interactive-" +:+ step_id step;
     is_order := order;
     is_instruction :=
       Js.str_or (step_narration step) (step_description step);
     is_hint :=
       Some ("Look for the " +:+ Js.toLowerCase (step_description step));
     is_target :=
       {| ct_x := sh_x h;
          ct_y := sh_y h;
          ct_width := 10%Q;
          ct_height := 8%Q;
          ct_highlightType :=
            Some (if decide (sh_type h = pulse) then t_pulse else t_glow);
          ct_highlightColor := None;
          ct_tolerance := Some 15%Q |};
     is_onCorrect :=
       Some {| oc_feedback := Some "Great job!";
               oc_autoAdvance := Some true;
               oc_playSegment := None |};
     is_onIncorrect :=
       Some {| oi_feedback := Some "Not quite, try again.";
               oi_showHint := Some true;
               oi_maxAttempts := Some 3 |};
     is_scoring :=
       Some {| sc_points := 10;
               sc_timeBonus := None;
               sc_penaltyPerWrongClick := Some 2 |} |}.

(** The callback of [steps.forEach] in [generateInteractiveSteps].
    The loop state is the array built so far and the [order] counter;
    the [timestamp] the source looks up is never used. *)
Definition pushInteractiveStep (state : list InteractiveStep * nat)
    (step : AutomationStep) : list InteractiveStep * nat :=
  let '(interactiveSteps, order) := state in
  if decide (step_action step ∈ [click; type]) then
    match step_highlight step with
    | Some h =>
        (interactiveSteps ++ [interactiveStepOf order step h], S order)
    | None => (interactiveSteps, order)
    end
  else (interactiveSteps, order).

Definition generateInteractiveSteps (steps : list AutomationStep)
    (timestamps : list StepTimestamp) : list InteractiveStep :=
  fst (foldl pushInteractiveStep ([], O) steps).

(** *** The platform as seen by one call of [assembleProject]

    [uuid] and [toISOString] are the values the library and the clock
    hand out to this call.  A file-system call that can throw is
    answered by a boolean ([false]: it throws, and the promise
    returned by [assembleProject] is rejected). *)
Record Env := {
  uuid : string;
  toISOString : string;
  path_join : list string → string;
  existsSync : string → bool;
  mkdirSync : string → bool;
  copyFileSync : string → string → bool;
  writeFileSync : string → bool;
  moduleDir : string;
  cwd : string
}.

(** A call that returns nothing, or throws. *)
Definition call (ok : bool) : option unit :=
  if ok then Some () else None.

Definition duration (timestamps : list StepTimestamp) : Z :=
  if bool_decide (0 < length timestamps)%nat
  then default 0 (ts_endTime <$> timestamps !! (length timestamps - 1)%nat)
  else 0.

Definition questionsWithIds (qs : option (list QuestionBody))
    : list QuestionEntry :=
  imap (λ i q, {| q_id := "question-" +:+ pretty i; q_body := q |})
       (default [] qs).

Definition highlightsLayer (input : AssemblerInput) : list HighlightEntry :=
  match autoHighlights input with
  | Some hs =>
      if bool_decide (0 < length hs)%nat then hs
      else generateHighlights (steps input) (timestamps input)
  | None => generateHighlights (steps input) (timestamps input)
  end.

(** The object literal bound to [project] in [assembleProject];
    [audioFileName] is [None] for [undefined]. *)
Definition projectLiteral (projectId createdAt : string)
    (audioFileName : option string) (input : AssemblerInput) : Project :=
  let duration := duration (timestamps input) in
  let subtitles := generateSubtitles (steps input) (timestamps input) in
  let highlights := highlightsLayer input in
  let questions := questionsWithIds (inputQuestions input) in
  let summary :=
    match generateSummaryFlag input with
    | Some true => Some (generateSummary (steps input) (timestamps input))
    | _ => None
    end in
  let interactiveSteps :=
    generateInteractiveSteps (steps input) (timestamps input) in
  {| p_id := projectId;
     p_title := title input;
     p_description := description input;
     p_targetUrl := targetUrl input;
     p_duration := duration;
     p_createdAt := createdAt;
     p_layers :=
       {| video := {| v_src := "video.webm";
                      v_width := 1280; v_height := 720 |};
          audio := match audioFileName with
                   | Some f => {| a_src := f; a_volume := 1 |}
                   | None => {| a_src := EmptyString; a_volume := 0 |}
                   end;
          subtitles := subtitles;
          highlights := highlights;
          questions := questions;
          summary := summary |};
     p_interactiveSteps := interactiveSteps;
     p_scorm := None;
     p_defaultLanguage := Js.opt_str_or (defaultLanguage input) "en";
     p_availableLanguages := default ["en"] (availableLanguages input) |}.

(** The result is [None] when a file-system call throws, that is when
    the promise returned by the source is rejected. *)
Definition assembleProject (env : Env) (input : AssemblerInput)
    (outputDir : string) : option AssemblerOutput :=
  let projectId := uuid env in
  let projectDir := path_join env [outputDir; projectId] in
  _ ← call (mkdirSync env projectDir);
  let videoFileName := "video.webm" in
  let videoDestPath := path_join env [projectDir; videoFileName] in
  _ ← call (copyFileSync env (videoPath input) videoDestPath);
  audioFileName ←
    match audioPath input with
    | Some a =>
        if Js.truthy (Some a) && existsSync env a then
          _ ← call (copyFileSync env a
                      (path_join env [projectDir; "narration.mp3"]));
          Some (Some "narration.mp3")
        else Some None
    | None => Some None
    end;
  let project :=
    projectLiteral projectId (toISOString env) audioFileName input in
  _ ← call (writeFileSync env (path_join env [projectDir; "project.json"]));
  let playerHtmlSrc :=
    path_join env [moduleDir env; ".."; "player"; "player.html"] in
  let playerHtmlDest := path_join env [projectDir; "index.html"] in
  let fixedPlayerPath := Js.slashes playerHtmlSrc in
  _ ← (if existsSync env fixedPlayerPath then
         call (copyFileSync env fixedPlayerPath playerHtmlDest)
       else
         let altPath :=
           path_join env [cwd env; "src"; "player"; "player.html"] in
         if existsSync env altPath then
           call (copyFileSync env altPath playerHtmlDest)
         else Some ());
  Some {| project := project; outputDir := projectDir |}.

End Assembler.

(** ** The element detector ([src/core/element-detector.ts]) *)

Module ElementDetector.

(** A [label] element as the callback reads it. *)
Record LabelNode := {
  label_textContent : option string
}.

(** The element handed to the callback of [element.evaluate], with the
    two DOM queries the callback makes about it. *)
Record Element := {
  getAttribute : string → option string;
  textContent : option string;
  tagName : string;
  className : option string;                  (* [None]: not a string *)
  querySelector_label_for : string → option LabelNode;
  closest_label : option LabelNode
}.

Record Info := {
  info_tagName : string;
  info_fieldName : string;
  info_fieldType : option string;
  info_action : string;
  info_selector : string
}.

(** [o || undefined] *)
Definition or_undefined (o : option string) : option string :=
  if Js.truthy o then o else None.

(** [classes.split(' ')[0]] *)
Fixpoint first_word (s : string) : string :=
  match s with
  | EmptyString => EmptyString
  | String c r => if decide (c = " "%char) then EmptyString
                  else String c (first_word r)
  end.

(** Rules 1 to 9 assign in turn to the variable [fieldName]; each rule
    is the function from the value of the variable before the statement
    to its value after it. *)

(** 1. Associated label *)
Definition rule_associatedLabel (elem : Element)
    (fieldName : option string) : option string :=
  let id := getAttribute elem "id" in
  if Js.truthy id then
    match querySelector_label_for elem (default EmptyString id) with
    | Some label =>
        if Js.truthy (label_textContent label)
        then Some (Js.trim (default EmptyString (label_textContent label)))
        else fieldName
    | None => fieldName
    end
  else fieldName.

(** 2. Parent label *)
Definition rule_parentLabel (elem : Element)
    (fieldName : option string) : option string :=
  if negb (Js.truthy fieldName) then
    match closest_label elem with
    | Some parentLabel =>
        if Js.truthy (label_textContent parentLabel) then
          let labelText :=
            Js.trim (default EmptyString (label_textContent parentLabel)) in
          let elText := Js.opt_str_or (textContent elem) EmptyString in
          Some (Js.trim (Js.remove_first elText labelText))
        else fieldName
    | None => fieldName
    end
  else fieldName.

(** 3 to 6, 8 and 9:
    [if (!fieldName) fieldName = elem.getAttribute(attr)] *)
Definition rule_attribute (attr : string) (elem : Element)
    (fieldName : option string) : option string :=
  if negb (Js.truthy fieldName) then getAttribute elem attr else fieldName.

(** 7. Button/link text *)
Definition rule_text (elem : Element)
    (fieldName : option string) : option string :=
  if negb (Js.truthy fieldName) && Js.truthy (textContent elem)
  then Some (Js.trim (default EmptyString (textContent elem)))
  else fieldName.

(** The value of [fieldName] after rules 1 to 9, before the fallback. *)
Definition namedBy (elem : Element) : option string :=
  let fieldName : option string := None in
  let fieldName := rule_associatedLabel elem fieldName in
  let fieldName := rule_parentLabel elem fieldName in
  let fieldName := rule_attribute "placeholder" elem fieldName in
  let fieldName := rule_attribute "aria-label" elem fieldName in
  let fieldName := rule_attribute "title" elem fieldName in
  let fieldName := rule_attribute "name" elem fieldName in
  let fieldName := rule_text elem fieldName in
  let fieldName := rule_attribute "alt" elem fieldName in
  let fieldName := rule_attribute "value" elem fieldName in
  fieldName.

(** 10. Fallback *)
Definition fallbackName (elem : Element) : string :=
  let type := Js.opt_str_or (getAttribute elem "type") EmptyString in
  Js.toLowerCase (tagName elem) +:+
  (if decide (type = EmptyString) then EmptyString else " (" +:+ type +:+ ")").

(** The [fieldName] returned by the callback: the value after rules 1
    to 9, replaced by the fallback under the test of rule 10, and then
    [fieldName || 'unknown']. *)
Definition inferFieldName (elem : Element) : string :=
  let fieldName := namedBy elem in
  let fieldName :=
    match fieldName with
    | Some n =>
        if negb (Js.truthy fieldName)
           || bool_decide (Js.length n = 0)%nat
           || bool_decide (100 ≤ Js.length n)%nat
        then fallbackName elem
        else n
    | None => fallbackName elem
    end in
  Js.str_or fieldName "unknown".

(** "Build selector": by id, by name, by type, by first class, or the
    tag alone. *)
Definition buildSelector (elem : Element) : string :=
  let id := getAttribute elem "id" in
  let tagName := Js.toLowerCase (tagName elem) in
  let fieldType := or_undefined (getAttribute elem "type") in
  let name := getAttribute elem "name" in
  let classes := className elem in
  if Js.truthy id then "#" +:+ default EmptyString id
  else if Js.truthy name
       then tagName +:+ "[name=" +:+ Js.dquote +:+ default EmptyString name
            +:+ Js.dquote +:+ "]"
  else if Js.truthy fieldType
       then tagName +:+ "[type=" +:+ Js.dquote +:+ default EmptyString fieldType
            +:+ Js.dquote +:+ "]"
  else if Js.truthy classes then
    let mainClass := first_word (default EmptyString classes) in
    if decide (mainClass = EmptyString) then tagName
    else tagName +:+ "." +:+ mainClass
  else tagName.

(** The callback of [element.evaluate] in [detectElement]. *)
Definition detectElement_info (elem : Element) (actionType : string) : Info :=
  {| info_tagName := Js.toLowerCase (tagName elem);
     info_fieldName := inferFieldName elem;
     info_fieldType := or_undefined (getAttribute elem "type");
     info_action := actionType;
     info_selector := buildSelector elem |}.

End ElementDetector.

(** ** Deleting a step of a studio tutorial ([src/app/server.ts],
       types of [src/types/studio.ts]) *)

Module Server.

Record StepElementInfo := {
  sei_tagName : string;
  sei_fieldName : string;
  sei_fieldType : option string;
  sei_action : string;
  sei_value : option string;
  sei_selector : string
}.

Record Position := {
  pos_x : Q;
  pos_y : Q;
  pos_width : Q;
  pos_height : Q
}.

Record StepTranslation := {
  st_fieldName : string;
  st_actionDescription : string;
  st_instruction : option string;
  st_hint : option string
}.

(** Everything a [TutorialStep] holds besides [order]. *)
Record StepContent := {
  stp_id : string;
  stp_timestamp : Z;
  stp_duration : Z;
  stp_elementInfo : StepElementInfo;
  stp_position : Position;
  stp_screenshotFile : option string;
  stp_highlightType : HighlightType;
  stp_translations : gmap string StepTranslation
}.

(** [order] is whatever number the stored document holds. *)
Record TutorialStep := {
  order : Z;
  content : StepContent
}.

Inductive TutorialStatus :=
  | draft | recording | processing | ready | error.

Record Tutorial := {
  tut_id : string;
  tut_title : string;
  tut_description : option string;
  tut_prompt : string;
  tut_createdAt : string;
  tut_updatedAt : string;
  tut_videoFile : option string;
  tut_duration : Z;
  tut_steps : list TutorialStep;
  tut_interactiveSteps : option (list InteractiveStep);
  tut_status : TutorialStatus
}.

Record Theme := {
  th_primaryColor : option string;
  th_accentColor : option string;
  th_logoUrl : option string
}.

Record ProjectSettings := {
  set_defaultLanguage : string;
  set_availableLanguages : list string;
  set_credentials : option (string * string);
  set_viewport : Z * Z;
  set_theme : option Theme
}.

Record StudioProject := {
  sp_id : string;
  sp_name : string;
  sp_description : option string;
  sp_targetUrl : string;
  sp_createdAt : string;
  sp_updatedAt : string;
  sp_tutorials : list Tutorial;
  sp_settings : ProjectSettings
}.

(** [s.order = i] *)
Definition setOrder (i : nat) (s : TutorialStep) : TutorialStep :=
  {| order := Z.of_nat i; content := content s |}.

(** [steps.splice(stepIndex, 1)] followed by
    [steps.forEach((s, i) => { s.order = i; })]. *)
Definition removeAndReorder (stepIndex : nat) (steps : list TutorialStep)
    : list TutorialStep :=
  imap setOrder (delete stepIndex steps).

(** The steps of the tutorial after the request, or [None] when the
    handler answers 404 "Step not found". *)
Definition deleteStep (stepId : string) (steps : list TutorialStep)
    : option (list TutorialStep) :=
  match Js.findIndex (λ s, stp_id (content s) = stepId) steps with
  | None => None
  | Some stepIndex => Some (removeAndReorder stepIndex steps)
  end.

Inductive Response :=
  | NotFound (error : string)
  | Success (written : StudioProject).

(** The handler of
    [DELETE /api/projects/:projectId/tutorials/:tutorialId/steps/:stepId].
    [stored] is the parsed [project.json] of the project, [None] when
    the file does not exist; [now] is [new Date().toISOString()].  The
    tutorial found is updated in place inside the project, which is
    then written back. *)
Definition deleteStepHandler (stored : option StudioProject) (now : string)
    (tutorialId stepId : string) : Response :=
  match stored with
  | None => NotFound "Project not found"
  | Some project =>
      match list_find (λ t, tut_id t = tutorialId) (sp_tutorials project) with
      | None => NotFound "Tutorial not found"
      | Some (k, tutorial) =>
          match deleteStep stepId (tut_steps tutorial) with
          | None => NotFound "Step not found"
          | Some steps' =>
              let tutorial' :=
                {| tut_id := tut_id tutorial;
                   tut_title := tut_title tutorial;
                   tut_description := tut_description tutorial;
                   tut_prompt := tut_prompt tutorial;
                   tut_createdAt := tut_createdAt tutorial;
                   tut_updatedAt := now;
                   tut_videoFile := tut_videoFile tutorial;
                   tut_duration := tut_duration tutorial;
                   tut_steps := steps';
                   tut_interactiveSteps := tut_interactiveSteps tutorial;
                   tut_status := tut_status tutorial |} in
              Success
                {| sp_id := sp_id project;
                   sp_name := sp_name project;
                   sp_description := sp_description project;
                   sp_targetUrl := sp_targetUrl project;
                   sp_createdAt := sp_createdAt project;
                   sp_updatedAt := now;
                   sp_tutorials := <[k := tutorial']> (sp_tutorials project);
                   sp_settings := sp_settings project |}
          end
      end
  end.

End Server.

(** ** Hit-testing of the playback engine

    The player ([src/player/player.html]) is not among the sources
    embedded here; its hit-test is taken from the specification. *)

Module Player.

Local Open Scope Q_scope.

(** The click target as the specification has it: a rectangle in
    percent of the viewport with its left edge at [x] and its top edge
    at [y], and a tolerance in device pixels. *)
Record Target := {
  x : Q;
  y : Q;
  width : Q;
  height : Q;
  tolerancePx : Q
}.

Record Viewport := {
  vp_width : Q;
  vp_height : Q
}.

(** Modelled from the spec: the player's conversion of the pixel
    tolerance is missing; a tolerance of [tol] pixels is [tol / size]
    of a viewport side, in percent. *)
Definition toPercent (tol size : Q) : Q := tol / size * 100.

Definition left (t : Target) (vp : Viewport) : Q :=
  x t - toPercent (tolerancePx t) (vp_width vp).
Definition right (t : Target) (vp : Viewport) : Q :=
  x t + width t + toPercent (tolerancePx t) (vp_width vp).
Definition top (t : Target) (vp : Viewport) : Q :=
  y t - toPercent (tolerancePx t) (vp_height vp).
Definition bottom (t : Target) (vp : Viewport) : Q :=
  y t + height t + toPercent (tolerancePx t) (vp_height vp).

(** Modelled from the spec: the player's hit-test is missing; a pointer
    at the percentage coordinates [(px, py)] is correct iff it lies in
    the target rectangle expanded by the tolerance on every side, the
    boundary included. *)
Definition hitTest (t : Target) (vp : Viewport) (px py : Q) : bool :=
  Qle_bool (left t vp) px && Qle_bool px (right t vp)
  && Qle_bool (top t vp) py && Qle_bool py (bottom t vp).

(** The point lies on one of the four edges of the expanded rectangle. *)
Definition onBoundary (t : Target) (vp : Viewport) (px py : Q) : Prop :=
  ((px == left t vp \/ px == right t vp)
     /\ top t vp <= py /\ py <= bottom t vp)
  \/ ((py == top t vp \/ py == bottom t vp)
     /\ left t vp <= px /\ px <= right t vp).

(** Sizes and tolerance are not negative and the viewport is not empty. *)
Definition wellFormed (t : Target) (vp : Viewport) : Prop :=
  0 <= width t /\ 0 <= height t /\ 0 <= tolerancePx t
  /\ 0 < vp_width vp /\ 0 < vp_height vp.

(** The target and the viewport of the specification's example. *)
Definition exampleTarget : Target :=
  {| x := 50; y := 50; width := 10; height := 8; tolerancePx := 15 |}.

Definition exampleViewport : Viewport :=
  {| vp_width := 1280; vp_height := 720 |}.

End Player.

(** ** Notions used to state the properties *)

Module Props.
Import Assembler.

(** The step is one the learner has to perform: a click or a typing
    step that carries a highlight hint. *)
Definition isInteractive (s : AutomationStep) : Prop :=
  step_action s ∈ [click; type] ∧ is_Some (step_highlight s).

Global Instance isInteractive_dec s : Decision (isInteractive s).
Proof. unfold isInteractive. apply _. Defined.

(** An interactive step together with its hint. *)
Definition withHint (s : AutomationStep)
    : option (AutomationStep * StepHighlight) :=
  if decide (step_action s ∈ [click; type])
  then (λ h, (s, h)) <$> step_highlight s
  else None.

Definition mkStep (id : string) (a : StepAction)
    (h : option StepHighlight) : AutomationStep :=
  {| step_id := id; step_action := a;
     step_selector := None; step_value := None;
     step_description := "Step " +:+ id;
     step_narration := "Narration of " +:+ id;
     step_waitAfter := None; step_waitForSelector := None;
     step_highlight := h |}.

Definition hintAt (x y : Q) : option StepHighlight :=
  Some {| sh_x := x; sh_y := y; sh_type := pulse |}.

(** The trace [navigate, click+hint, type+hint, wait]. *)
Definition sampleTrace : list AutomationStep :=
  [ mkStep "s1" navigate None;
    mkStep "s2" click (hintAt 10 50);
    mkStep "s3" type (hintAt 40 30);
    mkStep "s4" wait None ].

(** The file name of the audio layer chosen by [assembleProject]. *)
Definition audioFileNameOf (env : Env) (input : AssemblerInput)
    : option string :=
  match audioPath input with
  | Some a =>
      if Js.truthy (Some a) && existsSync env a
      then Some "narration.mp3" else None
  | None => None
  end.

(** A platform on which every call succeeds and no file but the video
    exists; [id] and [now] are the identity and the time it hands out. *)
Definition quietEnv (id now : string) : Env :=
  {| uuid := id;
     toISOString := now;
     path_join := String.concat "/";
     existsSync := λ _, false;
     mkdirSync := λ _, true;
     copyFileSync := λ _ _, true;
     writeFileSync := λ _, true;
     moduleDir := "/app/src/core";
     cwd := "/app" |}.

Definition mkTimestamp (id : string) (s e : Z) : StepTimestamp :=
  {| ts_stepId := id; ts_startTime := s; ts_endTime := e |}.

(** An input with the given trace and nothing optional. *)
Definition mkInput (steps : list AutomationStep)
    (timestamps : list StepTimestamp) : AssemblerInput :=
  {| title := "Sample"; description := "A sample tutorial";
     targetUrl := "https://example.org"; videoPath := "rec.webm";
     audioPath := None; steps := steps; timestamps := timestamps;
     narrationSegments := None; inputQuestions := None;
     generateSummaryFlag := None; autoHighlights := None;
     defaultLanguage := None; availableLanguages := None |}.

Definition withSteps (l : list AutomationStep) (input : AssemblerInput)
    : AssemblerInput :=
  {| title := title input; description := description input;
     targetUrl := targetUrl input; videoPath := videoPath input;
     audioPath := audioPath input; steps := l;
     timestamps := timestamps input;
     narrationSegments := narrationSegments input;
     inputQuestions := inputQuestions input;
     generateSummaryFlag := generateSummaryFlag input;
     autoHighlights := autoHighlights input;
     defaultLanguage := defaultLanguage input;
     availableLanguages := availableLanguages input |}.

Definition withTimestamps (l : list StepTimestamp) (input : AssemblerInput)
    : AssemblerInput :=
  {| title := title input; description := description input;
     targetUrl := targetUrl input; videoPath := videoPath input;
     audioPath := audioPath input; steps := steps input;
     timestamps := l;
     narrationSegments := narrationSegments input;
     inputQuestions := inputQuestions input;
     generateSummaryFlag := generateSummaryFlag input;
     autoHighlights := autoHighlights input;
     defaultLanguage := defaultLanguage input;
     availableLanguages := availableLanguages input |}.

(** The subtitle of [step] over the window of [t]. *)
Definition subtitleFor (step : AutomationStep) (t : StepTimestamp)
    : SubtitleEntry :=
  {| sub_id := "subtitle-" +:+ step_id step;
     sub_start := ts_startTime t;
     sub_end := ts_endTime t;
     sub_text := step_narration step |}.

(** What one step adds to the subtitle layer. *)
Definition subtitlesOf (timestamps : list StepTimestamp)
    (step : AutomationStep) : list SubtitleEntry :=
  match timestampOf timestamps step with
  | Some t =>
      if decide (step_narration step = EmptyString) then []
      else [subtitleFor step t]
  | None => []
  end.

(** What one step adds to the highlights derived from the hints. *)
Definition highlightsOf (timestamps : list StepTimestamp)
    (step : AutomationStep) : list HighlightEntry :=
  match step_highlight step, timestampOf timestamps step with
  | Some h, Some t => [highlightOf step h t]
  | _, _ => []
  end.

(** The step declares a highlight hint and a timestamp is found for it. *)
Definition isHighlighted (timestamps : list StepTimestamp)
    (step : AutomationStep) : Prop :=
  is_Some (step_highlight step) ∧ is_Some (timestampOf timestamps step).

Global Instance isHighlighted_dec timestamps step :
  Decision (isHighlighted timestamps step).
Proof. unfold isHighlighted. apply _. Defined.

Definition withAutoHighlights (hs : option (list HighlightEntry))
    (input : AssemblerInput) : AssemblerInput :=
  {| title := title input; description := description input;
     targetUrl := targetUrl input; videoPath := videoPath input;
     audioPath := audioPath input; steps := steps input;
     timestamps := timestamps input;
     narrationSegments := narrationSegments input;
     inputQuestions := inputQuestions input;
     generateSummaryFlag := generateSummaryFlag input;
     autoHighlights := hs;
     defaultLanguage := defaultLanguage input;
     availableLanguages := availableLanguages input |}.

(** A highlight as the automation layer detects it. *)
Definition detectedHighlight (id : string) (s e : Z) (x y w h : Q)
    : HighlightEntry :=
  {| hl_id := id; hl_start := s; hl_end := e; hl_x := x; hl_y := y;
     hl_width := Some w; hl_height := Some h; hl_type := rectangle;
     hl_color := None; hl_label := None; hl_elementInfo := None;
     hl_translations := None; hl_screenshotFile := Some (id +:+ ".png") |}.

(** [p] under another identity and creation time. *)
Definition stamped (id createdAt : string) (p : Project) : Project :=
  {| p_id := id; p_title := p_title p; p_description := p_description p;
     p_targetUrl := p_targetUrl p; p_duration := p_duration p;
     p_createdAt := createdAt; p_layers := p_layers p;
     p_interactiveSteps := p_interactiveSteps p; p_scorm := p_scorm p;
     p_defaultLanguage := p_defaultLanguage p;
     p_availableLanguages := p_availableLanguages p |}.

(** [p] with another duration. *)
Definition withDuration (d : Z) (p : Project) : Project :=
  {| p_id := p_id p; p_title := p_title p;
     p_description := p_description p;
     p_targetUrl := p_targetUrl p; p_duration := d;
     p_createdAt := p_createdAt p; p_layers := p_layers p;
     p_interactiveSteps := p_interactiveSteps p; p_scorm := p_scorm p;
     p_defaultLanguage := p_defaultLanguage p;
     p_availableLanguages := p_availableLanguages p |}.

Definition withLanguages (d : option string) (ls : option (list string))
    (input : AssemblerInput) : AssemblerInput :=
  {| title := title input; description := description input;
     targetUrl := targetUrl input; videoPath := videoPath input;
     audioPath := audioPath input; steps := steps input;
     timestamps := timestamps input;
     narrationSegments := narrationSegments input;
     inputQuestions := inputQuestions input;
     generateSummaryFlag := generateSummaryFlag input;
     autoHighlights := autoHighlights input;
     defaultLanguage := d;
     availableLanguages := ls |}.

(** [t] is the one timestamp recorded for [step]. *)
Definition isTimestampOf (timestamps : list StepTimestamp)
    (step : AutomationStep) (t : StepTimestamp) : Prop :=
  t ∈ timestamps ∧ ts_stepId t = step_id step
  ∧ ∀ t', t' ∈ timestamps → ts_stepId t' = step_id step → t' = t.

(** [t] is the first timestamp of the list that carries the id of
    [step]. *)
Definition isFirstTimestampOf (timestamps : list StepTimestamp)
    (step : AutomationStep) (t : StepTimestamp) : Prop :=
  ∃ i, timestamps !! i = Some t
       ∧ ts_stepId t = step_id step
       ∧ ∀ j t', (j < i)%nat → timestamps !! j = Some t' →
                 ts_stepId t' ≠ step_id step.

(** No timestamp was recorded for [step]. *)
Definition hasNoTimestamp (timestamps : list StepTimestamp)
    (step : AutomationStep) : Prop :=
  ∀ t, t ∈ timestamps → ts_stepId t ≠ step_id step.

(** The largest [endTime] of the list, 0 when the list is empty. *)
Fixpoint maxEndTime (timestamps : list StepTimestamp) : Z :=
  match timestamps with
  | [] => 0
  | t :: rest =>
      match rest with
      | [] => ts_endTime t
      | _ :: _ => Z.max (ts_endTime t) (maxEndTime rest)
      end
  end.

(** The [endTime]s never decrease along the list. *)
Fixpoint endsNonDecreasing (timestamps : list StepTimestamp) : bool :=
  match timestamps with
  | [] => true
  | t :: rest =>
      match rest with
      | [] => true
      | t' :: _ => (ts_endTime t <=? ts_endTime t') && endsNonDecreasing rest
      end
  end.

End Props.

Module DetectorProps.
Import ElementDetector.

(** Rule 1: the text of the [label] whose [for] is the id of the element. *)
Definition labelForName (elem : Element) : option string :=
  let id := getAttribute elem "id" in
  if Js.truthy id then
    match querySelector_label_for elem (default EmptyString id) with
    | Some label =>
        if Js.truthy (label_textContent label)
        then Some (Js.trim (default EmptyString (label_textContent label)))
        else None
    | None => None
    end
  else None.

(** Rule 2: the text of the enclosing [label], without the text of the
    element itself. *)
Definition parentLabelName (elem : Element) : option string :=
  match closest_label elem with
  | Some parentLabel =>
      if Js.truthy (label_textContent parentLabel) then
        Some (Js.trim
                (Js.remove_first
                   (Js.opt_str_or (textContent elem) EmptyString)
                   (Js.trim (default EmptyString
                               (label_textContent parentLabel)))))
      else None
  | None => None
  end.

(** Rules 3 to 6, 8 and 9: an attribute of the element. *)
Definition attributeName (attr : string) (elem : Element) : option string :=
  getAttribute elem attr.

(** Rule 7: the text of the element. *)
Definition textName (elem : Element) : option string :=
  if Js.truthy (textContent elem)
  then Some (Js.trim (default EmptyString (textContent elem)))
  else None.

(** The rules in their order of priority. *)
Definition rules : list (Element → option string) :=
  [ labelForName; parentLabelName;
    attributeName "placeholder"; attributeName "aria-label";
    attributeName "title"; attributeName "name";
    textName;
    attributeName "alt"; attributeName "value" ].

(** A name that is missing or empty counts as no name. *)
Definition named (o : option string) : option string :=
  if Js.truthy o then o else None.

(** The name given by the first rule that yields a non-empty name. *)
Fixpoint firstNamed (rs : list (Element → option string)) (elem : Element)
    : option string :=
  match rs with
  | [] => None
  | r :: rest => if Js.truthy (r elem) then r elem else firstNamed rest elem
  end.

(** The field name as the claim words it: the name of the first
    applicable rule, and the tag-name fallback when no rule applies. *)
Definition firstRuleOrFallback (elem : Element) : string :=
  match firstNamed rules elem with
  | Some n => n
  | None => fallbackName elem
  end.

Fixpoint replicate_char (n : nat) (c : ascii) : string :=
  match n with
  | O => EmptyString
  | S m => String c (replicate_char m c)
  end.

(** An element outside any label, with the given tag, attributes and
    text. *)
Definition mkElement (tag : string) (attrs : list (string * string))
    (text : string) : Element :=
  {| getAttribute := λ k, snd <$> Js.find (λ p, p.1 = k) attrs;
     textContent := Some text;
     tagName := tag;
     className := None;
     querySelector_label_for := λ _, None;
     closest_label := None |}.

End DetectorProps.

Module ServerProps.
Import Server.

(** A stored step with the given id and order. *)
Definition mkTutorialStep (id : string) (o : Z) : TutorialStep :=
  {| order := o;
     content :=
       {| stp_id := id; stp_timestamp := 0; stp_duration := 1500;
          stp_elementInfo :=
            {| sei_tagName := "button"; sei_fieldName := id;
               sei_fieldType := None; sei_action := "click";
               sei_value := None; sei_selector := "#" +:+ id |};
          stp_position :=
            {| pos_x := 50; pos_y := 50; pos_width := 10; pos_height := 8 |};
          stp_screenshotFile := None;
          stp_highlightType := pulse;
          stp_translations := ∅ |} |}.

Definition mkTutorial (id : string) (l : list TutorialStep) : Tutorial :=
  {| tut_id := id; tut_title := "Tutorial " +:+ id;
     tut_description := None; tut_prompt := "prompt";
     tut_createdAt := "t0"; tut_updatedAt := "t0";
     tut_videoFile := None; tut_duration := 0;
     tut_steps := l; tut_interactiveSteps := None;
     tut_status := ready |}.

Definition mkStudioProject (l : list Tutorial) : StudioProject :=
  {| sp_id := "p1"; sp_name := "Project"; sp_description := None;
     sp_targetUrl := "https://example.org";
     sp_createdAt := "t0"; sp_updatedAt := "t0";
     sp_tutorials := l;
     sp_settings :=
       {| set_defaultLanguage := "en"; set_availableLanguages := ["en"];
          set_credentials := None; set_viewport := (1280, 720);
          set_theme := None |} |}.

End ServerProps.

(** ** More of the studio server ([src/app/server.ts]) *)

Module TutorialApi.
Import Server.

(** The handler of [DELETE /api/projects/:projectId/tutorials/:tutorialId].
    [stored] is the parsed [project.json], [None] when the file does
    not exist; [now] is [new Date().toISOString()]. *)
Definition deleteTutorialHandler (stored : option StudioProject)
    (now : string) (tutorialId : string) : Response :=
  match stored with
  | None => NotFound "Project not found"
  | Some project =>
      match Js.findIndex (λ t, tut_id t = tutorialId) (sp_tutorials project)
      with
      | None => NotFound "Tutorial not found"
      | Some tutorialIndex =>
          Success
            {| sp_id := sp_id project;
               sp_name := sp_name project;
               sp_description := sp_description project;
               sp_targetUrl := sp_targetUrl project;
               sp_createdAt := sp_createdAt project;
               sp_updatedAt := now;
               sp_tutorials := delete tutorialIndex (sp_tutorials project);
               sp_settings := sp_settings project |}
      end
  end.

(** [Partial<ProjectSettings>] *)
Record PartialSettings := {
  ps_defaultLanguage : option string;
  ps_availableLanguages : option (list string);
  ps_credentials : option (string * string);
  ps_viewport : option (Z * Z);
  ps_theme : option Theme
}.

(** The body of [POST /api/projects], read as a [CreateProjectRequest]. *)
Record CreateProjectRequest := {
  cp_name : option string;
  cp_description : option string;
  cp_targetUrl : option string;
  cp_settings : option PartialSettings
}.

Inductive CreateResponse :=
  | BadRequest (error : string)
  | ServerError (error : string)
  | Created (project : StudioProject).

(** The settings literal of the handler: the defaults, overridden by
    the fields the request gives. *)
Definition settingsOf (settings : option PartialSettings) : ProjectSettings :=
  let given {A} (f : PartialSettings → option A) : option A :=
    settings ≫= f in
  {| set_defaultLanguage := default "he" (given ps_defaultLanguage);
     set_availableLanguages :=
       default ["he"; "en"; "ar"] (given ps_availableLanguages);
     set_credentials := given ps_credentials;
     set_viewport := default (1280, 720) (given ps_viewport);
     set_theme := given ps_theme |}.

(** The handler of [POST /api/projects].  [projectId] is the uuid and
    [now] the time handed out to the request; [fsError] is the message
    of the error thrown while the directories and the document are
    written, if one is thrown. *)
Definition createProjectHandler (projectId now : string)
    (fsError : option string) (body : CreateProjectRequest)
    : CreateResponse :=
  if negb (Js.truthy (cp_name body)) || negb (Js.truthy (cp_targetUrl body))
  then BadRequest "Missing required fields: name and targetUrl"
  else
    let project :=
      {| sp_id := projectId;
         sp_name := default EmptyString (cp_name body);
         sp_description := cp_description body;
         sp_targetUrl := default EmptyString (cp_targetUrl body);
         sp_createdAt := now;
         sp_updatedAt := now;
         sp_tutorials := [];
         sp_settings := settingsOf (cp_settings body) |} in
    match fsError with
    | Some message => ServerError message
    | None => Created project
    end.

End TutorialApi.

(** ** The narration module ([src/core/narration.ts])

    A [NarrationSegment] is the record of the assembler's input; its
    fields [id] and [audioPath] are [ns_stepId] and [ns_audioFile]
    there. *)

Module Narration.
Import Assembler.

(** The segments are the [NarrationSegment] of the assembler, which
    imports the type from this module: [ns_stepId] is the field [id]
    of the source and [ns_audioFile] its field [audioPath]. *)

Inductive Provider := openai | elevenlabs | mock.

(** [Partial<NarrationConfig>] *)
Record NarrationConfig := {
  provider : option Provider;
  apiKey : option string;
  voiceId : option string;
  nc_outputDir : option string
}.

(** The pieces of [text.split(/\s+/)]: [cur] is the piece being read,
    last byte first, and [in_ws] tells that the last character read
    was white space.  A character that is no white space is read byte
    by byte. *)
Fixpoint split_ws_from (in_ws : bool) (cur : string) (text : string)
    : list string :=
  match text with
  | EmptyString => [String.rev cur]
  | String a r1 =>
      let after_space (rest : list string) :=
        if in_ws then rest else String.rev cur :: rest in
      let no_space := split_ws_from false (String a cur) r1 in
      if Js.is_space a then after_space (split_ws_from true EmptyString r1)
      else
        match r1 with
        | EmptyString => no_space
        | String b r2 =>
            if Js.is_space2 a b
            then after_space (split_ws_from true EmptyString r2)
            else
              match r2 with
              | EmptyString => no_space
              | String c r3 =>
                  if Js.is_space3 a b c
                  then after_space (split_ws_from true EmptyString r3)
                  else no_space
              end
        end
  end.

(** [text.split(/\s+/)] *)
Definition split_ws (text : string) : list string :=
  split_ws_from false EmptyString text.

(** [(60 * 1000) / WORDS_PER_MINUTE] with 150 words per minute *)
Definition MS_PER_WORD : Z := 60 * 1000 / 150.

Definition estimateDuration (text : string) : Z :=
  let wordCount := Z.of_nat (length (split_ws text)) in
  wordCount * MS_PER_WORD.

(** [generateOpenAITTS]: [speak voice text] tells whether loading the
    client and the request for speech succeed. *)
Definition generateOpenAITTS (env : Env) (speak : string → string → bool)
    (segment : NarrationSegment) (apiKey voiceId : option string)
    (outputDir : string) : option string :=
  if negb (Js.truthy apiKey) then None
  else
    let outputPath := path_join env [outputDir; ns_stepId segment +:+ ".mp3"] in
    _ ← call (speak (Js.opt_str_or voiceId "alloy") (ns_text segment));
    _ ← call (writeFileSync env outputPath);
    Some outputPath.

(** The body of the [for] loop of [generateNarration]: the segment
    pushed for [segment], or [None] when the speech provider throws. *)
Definition narrate (env : Env) (speak : string → string → bool)
    (config : NarrationConfig) (outputDir : string)
    (segment : NarrationSegment) : option NarrationSegment :=
  let duration := estimateDuration (ns_text segment) in
  match default mock (provider config) with
  | openai =>
      audioPath ← generateOpenAITTS env speak segment (apiKey config)
                    (voiceId config) outputDir;
      Some {| ns_stepId := ns_stepId segment; ns_text := ns_text segment;
              ns_audioFile := Some audioPath; ns_duration := Some duration |}
  | elevenlabs | mock =>
      Some {| ns_stepId := ns_stepId segment; ns_text := ns_text segment;
              ns_audioFile := ns_audioFile segment;
              ns_duration := Some duration |}
  end.

(** [None] when a call throws, that is when the promise is rejected. *)
Definition generateNarration (env : Env) (speak : string → string → bool)
    (segments : list NarrationSegment) (config : NarrationConfig)
    : option (list NarrationSegment) :=
  let outputDir := default "./output/audio" (nc_outputDir config) in
  _ ← (if negb (existsSync env outputDir) then call (mkdirSync env outputDir)
       else Some ());
  mapM (narrate env speak config outputDir) segments.

Definition segmentsToSubtitles (segments : list NarrationSegment)
    (startTimes : list Z) : list SubtitleEntry :=
  imap (λ index segment,
          let start := default 0 (startTimes !! index) in
          let duration :=
            match ns_duration segment with
            | Some d =>
                if decide (d = 0) then estimateDuration (ns_text segment)
                else d
            | None => estimateDuration (ns_text segment)
            end in
          {| sub_id := ns_stepId segment;
             sub_start := start;
             sub_end := start + duration;
             sub_text := ns_text segment |})
       segments.

Definition createNarrationSegments (steps : list AutomationStep)
    : list NarrationSegment :=
  (λ step, {| ns_stepId := step_id step; ns_text := step_narration step;
              ns_audioFile := None; ns_duration := None |}) <$> steps.

End Narration.

(** ** The browser module ([src/core/browser.ts]) *)

Module Browser.
Import Assembler.

(** The recording session without its browser handles. *)
Record RecordingSession := {
  rs_videoPath : option string;
  rs_timestamps : list StepTimestamp;
  rs_startTime : Z
}.

(** What the platform answers during one call of [executeStep]: the
    clock before the action, whether the calls on the page succeed, and
    the clock after them. *)
Record StepRun := {
  now_before : Z;
  page_ok : bool;
  now_after : Z
}.

(** [step.waitAfter] is set and not 0. *)
Definition waitsAfter (step : AutomationStep) : bool :=
  match step_waitAfter step with
  | Some w => bool_decide (w ≠ 0)
  | None => false
  end.

(** The step makes at least one call on the page. *)
Definition usesPage (step : AutomationStep) : bool :=
  match step_action step with
  | navigate => Js.truthy (step_value step)
  | click => Js.truthy (step_selector step)
  | type => Js.truthy (step_selector step) && Js.truthy (step_value step)
  | hover => Js.truthy (step_selector step)
  | scroll => true
  | wait => true
  | screenshot => false
  end
  || waitsAfter step.

(** [None] when a call on the page throws; the session is then as it
    was, since the timestamp is pushed last. *)
Definition executeStep (session : RecordingSession) (step : AutomationStep)
    (run : StepRun) : option RecordingSession :=
  let stepStart := now_before run - rs_startTime session in
  if usesPage step && negb (page_ok run) then None
  else
    let stepEnd := now_after run - rs_startTime session in
    Some {| rs_videoPath := rs_videoPath session;
            rs_timestamps :=
              rs_timestamps session
              ++ [ {| ts_stepId := step_id step;
                      ts_startTime := stepStart;
                      ts_endTime := stepEnd |} ];
            rs_startTime := rs_startTime session |}.

(** [executeSteps], the [k]-th call of [executeStep] being answered by
    [platform k].  The result is the session as the loop leaves it and
    whether the loop ran to its end ([false]: a step threw). *)
Fixpoint executeSteps (platform : nat → StepRun) (k : nat)
    (session : RecordingSession) (steps : list AutomationStep)
    : RecordingSession * bool :=
  match steps with
  | [] => (session, true)
  | step :: rest =>
      match executeStep session step (platform k) with
      | Some session' => executeSteps platform (S k) session' rest
      | None => (session, false)
      end
  end.

(** The session [createSession] returns, at the clock reading [now]. *)
Definition newSession (now : Z) : RecordingSession :=
  {| rs_videoPath := None; rs_timestamps := []; rs_startTime := now |}.

End Browser.

(** ** Descriptions and translations ([src/core/element-detector.ts])

    The Hebrew and Arabic words are given by the bytes of their UTF-8
    form; they are only ever concatenated. *)

Module Translations.

(** What the lookups of the source find above the tables: a property
    name inherited from [Object.prototype] ([constructor], [toString],
    ...) is found although no table has it.  [proto_text name] is the
    text such a property takes in a template string, and [None] for a
    name that is not inherited; [proto_member name key] is the text of
    the property [key] of that inherited value when it is truthy. *)
Record Inherited := {
  proto_text : string → option string;
  proto_member : string → string → option string
}.

Definition he_table : gmap string string :=
  list_to_map
    [ ("click", "לחץ על");
      ("type", "הקלד ב");
      ("hover", "רחף מעל");
      ("scroll", "גלול אל");
      ("input", "שדה");
      ("button", "כפתור");
      ("a", "קישור");
      ("select", "בחירה");
      ("textarea", "תיבת טקסט") ].

Definition en_table : gmap string string :=
  list_to_map
    [ ("click", "Click on");
      ("type", "Type in");
      ("hover", "Hover over");
      ("scroll", "Scroll to");
      ("input", "field");
      ("button", "button");
      ("a", "link");
      ("select", "dropdown");
      ("textarea", "text area") ].

Definition ar_table : gmap string string :=
  list_to_map
    [ ("click", "انقر على");
      ("type", "اكتب في");
      ("hover", "حرك فوق");
      ("scroll", "مرر إلى");
      ("input", "حقل");
      ("button", "زر");
      ("a", "رابط");
      ("select", "قائمة");
      ("textarea", "مربع نص") ].

(** The object literal [translations]. *)
Definition translations : gmap string (gmap string string) :=
  list_to_map [("he", he_table); ("en", en_table); ("ar", ar_table)].

(** [t[key] || key] for a table [t] of the literal. *)
Definition wordOr (inh : Inherited) (t : gmap string string) (key : string)
    : string :=
  match t !! key with
  | Some w => w
  | None => default key (proto_text inh key)
  end.

(** [t[key] || key] where [t] is [translations[language] ||
    translations['en']]. *)
Definition lookupWord (inh : Inherited) (language key : string) : string :=
  match translations !! language with
  | Some t => wordOr inh t key
  | None =>
      match proto_text inh language with
      | Some _ => default key (proto_member inh language key)
      | None => wordOr inh en_table key
      end
  end.

(** The three branches on the language append the same text. *)
Definition generateActionDescription (inh : Inherited) (info : ElementInfo)
    (language : string) : string :=
  let actionWord := lookupWord inh language (ei_action info) in
  let description := actionWord +:+ " " +:+ ei_fieldName info in
  if bool_decide (ei_action info = "type") && Js.truthy (ei_value info) then
    let value := default EmptyString (ei_value info) in
    let valuePreview :=
      if bool_decide (20 < Js.length value)%nat
      then Js.substring0 20 value +:+ "..."
      else value in
    description +:+ ": " +:+ Js.dquote +:+ valuePreview +:+ Js.dquote
  else description.

(** The languages of the loop of [generateTranslations]. *)
Definition languages : list string := ["he"; "en"; "ar"].

Definition generateTranslations (inh : Inherited) (info : ElementInfo)
    : gmap string TooltipTranslation :=
  foldl (λ translations lang,
           <[lang := {| tt_fieldName := ei_fieldName info;
                        tt_actionDescription :=
                          generateActionDescription inh info lang |}]>
             translations)
        ∅ languages.

End Translations.

(** ** Recording a tutorial ([startRecording] in [src/app/server.ts]) *)

Module Recording.
Import Server Translations.

(** [Math.max(a, b)] on finite numbers. *)
Definition max_q (a b : Q) : Q := if Qle_bool a b then b else a.

Fixpoint zeros (n : nat) : string :=
  match n with
  | O => EmptyString
  | S m => String "0" (zeros m)
  end.

(** [s.padStart(3, '0')] *)
Definition padStart3 (s : string) : string :=
  zeros (3 - Js.length s) +:+ s.

(** What the page reports about an element when [detectElement] looks
    at it: the position in percent of the viewport, as computed there,
    and the element as the callback reads it. *)
Record Detection := {
  det_x : Q;
  det_y : Q;
  det_width : Q;
  det_height : Q;
  det_elem : ElementDetector.Element
}.

Record DetectedElement := {
  de_x : Q;
  de_y : Q;
  de_width : Q;
  de_height : Q;
  de_info : ElementInfo
}.

(** [detectElement(page, element, action, value)]; [seen] is [None]
    when there is no viewport or no bounding box, or when a call
    throws. *)
Definition detectElement (seen : option Detection) (action : string)
    (value : option string) : option DetectedElement :=
  d ← seen;
  let info := ElementDetector.detectElement_info (det_elem d) action in
  Some {| de_x := det_x d; de_y := det_y d;
          de_width := det_width d; de_height := det_height d;
          de_info :=
            {| ei_tagName := ElementDetector.info_tagName info;
               ei_fieldName := ElementDetector.info_fieldName info;
               ei_fieldType := ElementDetector.info_fieldType info;
               ei_action := ElementDetector.info_action info;
               ei_value := value;
               ei_selector := ElementDetector.info_selector info |} |}.

(** What the browser answers while one form field is processed:
    its [type] attribute, its tag name, whether it is visible, what the
    two detections see, the clock when the screenshot is taken, and
    whether every call made for the field succeeds. *)
Record FieldRun := {
  f_type : option string;
  f_tagName : string;
  f_visible : bool;
  f_first : option Detection;
  f_second : option Detection;
  f_now : Z;
  f_ok : bool
}.

Record LoopState := {
  stepCounter : nat;
  processedFields : nat;
  sessionSteps : list TutorialStep
}.

(** The action performed on a field and the value typed into it. *)
Definition actionFor (fieldTag : string) (fieldType : option string)
    : string * option string :=
  if bool_decide (fieldTag = "input")
     && (bool_decide (fieldType = Some "email")
         || bool_decide (fieldType = Some "text"))
  then ("type",
        Some (if bool_decide (fieldType = Some "email")
              then "demo@example.com" else "טקסט לדוגמה"))
  else if bool_decide (fieldTag = "button")
          || bool_decide (fieldType = Some "submit")
  then ("hover", None)
  else if bool_decide (fieldTag = "select") then ("click", None)
  else ("click", None).

(** The step pushed for the [stepCounter]-th processed field. *)
Definition stepOf (inh : Inherited) (stepCounter : nat) (timestamp : Z)
    (screenshotFile action : string) (detected : DetectedElement)
    : TutorialStep :=
  {| order := Z.of_nat stepCounter - 1;
     content :=
       {| stp_id := "step-" +:+ pretty stepCounter;
          stp_timestamp := timestamp;
          stp_duration := 2000;
          stp_elementInfo :=
            {| sei_tagName := ei_tagName (de_info detected);
               sei_fieldName := ei_fieldName (de_info detected);
               sei_fieldType := ei_fieldType (de_info detected);
               sei_action := ei_action (de_info detected);
               sei_value := ei_value (de_info detected);
               sei_selector := ei_selector (de_info detected) |};
          stp_position :=
            {| pos_x := de_x detected;
               pos_y := de_y detected;
               pos_width := max_q (de_width detected) 5;
               pos_height := max_q (de_height detected) 3 |};
          stp_screenshotFile := Some screenshotFile;
          stp_highlightType :=
            if bool_decide (action = "type") then rectangle else pulse;
          stp_translations :=
            (λ t, {| st_fieldName := tt_fieldName t;
                     st_actionDescription := tt_actionDescription t;
                     st_instruction := None; st_hint := None |})
            <$> generateTranslations inh (de_info detected) |} |}.

(** One turn of the loop over the form fields; [None] when a call on
    the browser throws.  The progress shown to the user is left out. *)
Definition recordField (inh : Inherited) (tutorialId : string)
    (startTime : Z) (state : LoopState) (field : FieldRun)
    : option LoopState :=
  if negb (f_ok field) then None
  else
    let fieldType := f_type field in
    let fieldTag := Js.toLowerCase (f_tagName field) in
    if bool_decide (fieldType = Some "hidden") then Some state
    else if negb (f_visible field) then Some state
    else
      match detectElement (f_first field) "click" None with
      | None => Some state
      | Some _ =>
          let processedFields := S (processedFields state) in
          let stepCounter := S (stepCounter state) in
          let screenshotFile :=
            tutorialId +:+ "_step" +:+ padStart3 (pretty stepCounter)
            +:+ ".png" in
          let timestamp := f_now field - startTime in
          let '(action, value) := actionFor fieldTag fieldType in
          match detectElement (f_second field) action value with
          | Some detectedElement =>
              Some {| stepCounter := stepCounter;
                      processedFields := processedFields;
                      sessionSteps :=
                        sessionSteps state
                        ++ [stepOf inh stepCounter timestamp screenshotFile
                              action detectedElement] |}
          | None =>
              Some {| stepCounter := stepCounter;
                      processedFields := processedFields;
                      sessionSteps := sessionSteps state |}
          end
      end.

(** The loop [for (const field of formFields)] of [startRecording],
    entered in the state [state]. *)
Fixpoint recordFieldsFrom (inh : Inherited) (tutorialId : string)
    (startTime : Z) (state : LoopState) (fields : list FieldRun)
    : option LoopState :=
  match fields with
  | [] => Some state
  | field :: rest =>
      state' ← recordField inh tutorialId startTime state field;
      recordFieldsFrom inh tutorialId startTime state' rest
  end.

(** The steps of the session after the loop, which starts with
    [stepCounter = 0] and no step; [None] when a call throws. *)
Definition recordFields (inh : Inherited) (tutorialId : string)
    (startTime : Z) (fields : list FieldRun) : option (list TutorialStep) :=
  sessionSteps
  <$> recordFieldsFrom inh tutorialId startTime
        {| stepCounter := 0; processedFields := 0; sessionSteps := [] |}
        fields.

End Recording.

(** ** Highlights from recorded metadata (the script that assembles
       the government-site tutorial, a caller of [assembleProject]) *)

Module AssembleGov.

Record MetadataStep := {
  m_timestamp : Z;
  m_x : Q;
  m_y : Q;
  m_width : Q;
  m_height : Q;
  m_info : ElementInfo;
  m_translations : gmap string TooltipTranslation;
  m_screenshotFile : option string
}.

(** The callback of [metadata.steps.map]. *)
Definition highlightOfMetadata (index : nat) (step : MetadataStep)
    : HighlightEntry :=
  {| hl_id := "highlight-auto-" +:+ pretty index;
     hl_start := m_timestamp step;
     hl_end := m_timestamp step + 2000;
     hl_x := m_x step;
     hl_y := m_y step;
     hl_width := Some (Recording.max_q (m_width step) 5);
     hl_height := Some (Recording.max_q (m_height step) 3);
     hl_type :=
       if bool_decide (ei_action (m_info step) = "type")
       then rectangle else pulse;
     hl_color := None;
     hl_label := Some (ei_fieldName (m_info step));
     hl_elementInfo := Some (m_info step);
     hl_translations := Some (m_translations step);
     hl_screenshotFile := m_screenshotFile step |}.

(** [autoHighlights] and [screenshotFiles] as [main] computes them;
    [metadata] is [None] when no metadata file was found. *)
Definition autoHighlightsOf (metadata : option (list MetadataStep))
    : list HighlightEntry * list string :=
  match metadata with
  | Some steps =>
      if bool_decide (0 < length steps)%nat then
        (imap highlightOfMetadata steps,
         omap (λ step, if Js.truthy (m_screenshotFile step)
                       then m_screenshotFile step else None) steps)
      else ([], [])
  | None => ([], [])
  end.

End AssembleGov.

(** ** More notions used to state properties *)

Module MoreProps.
Import Assembler Props.

(** The step has narration and a timestamp is found for it. *)
Definition isSubtitled (timestamps : list StepTimestamp)
    (step : AutomationStep) : Prop :=
  step_narration step ≠ EmptyString
  ∧ is_Some (timestampOf timestamps step).

Global Instance isSubtitled_dec timestamps step :
  Decision (isSubtitled timestamps step).
Proof. unfold isSubtitled. apply _. Defined.

(** A timestamp is found for every step of the trace. *)
Definition allRecorded (timestamps : list StepTimestamp)
    (steps : list AutomationStep) : Prop :=
  ∀ s, s ∈ steps → is_Some (timestampOf timestamps s).

(** The timestamps [executeStep] pushes for [steps] when its calls are
    answered by [platform k], [platform (k+1)], ... in a session
    started at [start]. *)
Definition recorded (platform : nat → Browser.StepRun) (k : nat) (start : Z)
    (steps : list AutomationStep) : list StepTimestamp :=
  imap (λ i step,
          {| ts_stepId := step_id step;
             ts_startTime := Browser.now_before (platform (k + i)%nat) - start;
             ts_endTime := Browser.now_after (platform (k + i)%nat) - start |})
       steps.

(** The number of steps of [steps] that [executeSteps] executes when
    its calls are answered by [platform k], [platform (k+1)], ...: the
    index of the first step whose calls on the page fail, or the
    number of steps when there is none. *)
Fixpoint executed (platform : nat → Browser.StepRun) (k : nat)
    (steps : list AutomationStep) : nat :=
  match steps with
  | [] => 0%nat
  | step :: rest =>
      if Browser.usesPage step && negb (Browser.page_ok (platform k))
      then 0%nat
      else S (executed platform (S k) rest)
  end.

(** The clock never runs backwards between the readings taken from
    the [k]-th call of [executeStep] on. *)
Definition clockNonDecreasing (platform : nat → Browser.StepRun) (k : nat)
    : Prop :=
  ∀ j, (k ≤ j)%nat →
       Browser.now_before (platform j) ≤ Browser.now_after (platform j)
       ∧ Browser.now_after (platform j)
         ≤ Browser.now_before (platform (S j)).

(** What every step pushed by the recording loop satisfies. *)
Definition wellFormedStep (s : Server.TutorialStep) : Prop :=
  Server.stp_id (Server.content s)
  = "step-" +:+ pretty (Z.to_nat (Server.order s) + 1)%nat
  ∧ Server.stp_duration (Server.content s) = 2000
  ∧ (5 <= Server.pos_width (Server.stp_position (Server.content s)))%Q
  ∧ (3 <= Server.pos_height (Server.stp_position (Server.content s)))%Q
  ∧ (Server.stp_highlightType (Server.content s) = rectangle
     ↔ Server.sei_action (Server.stp_elementInfo (Server.content s)) = "type")
  ∧ dom (Server.stp_translations (Server.content s))
    = list_to_set Translations.languages.

(** A platform without inherited property names in sight. *)
Definition plainObjects : Translations.Inherited :=
  {| Translations.proto_text := λ _, None;
     Translations.proto_member := λ _ _, None |}.

(** A visible form field seen at the same place by both detections. *)
Definition seenField (tag type : string) (now : Z) : Recording.FieldRun :=
  let seen :=
    Some {| Recording.det_x := 50; Recording.det_y := 40;
            Recording.det_width := 2; Recording.det_height := 6;
            Recording.det_elem :=
              DetectorProps.mkElement tag [("type", type)] EmptyString |} in
  {| Recording.f_type := Some type; Recording.f_tagName := tag;
     Recording.f_visible := true; Recording.f_first := seen;
     Recording.f_second := seen; Recording.f_now := now;
     Recording.f_ok := true |}.

(** A step of the recorded metadata. *)
Definition mkMetadataStep (name action : string) (at_ : Z) (w h : Q)
    : AssembleGov.MetadataStep :=
  {| AssembleGov.m_timestamp := at_;
     AssembleGov.m_x := 50; AssembleGov.m_y := 40;
     AssembleGov.m_width := w; AssembleGov.m_height := h;
     AssembleGov.m_info :=
       {| ei_tagName := "input"; ei_fieldName := name;
          ei_fieldType := None; ei_action := action;
          ei_value := None; ei_selector := "input" |};
     AssembleGov.m_translations := ∅;
     AssembleGov.m_screenshotFile := Some (name +:+ ".png") |}.

(** The steps with the given contents, numbered from 0. *)
Definition numbered (cs : list Server.StepContent)
    : list Server.TutorialStep :=
  imap (λ i c, {| Server.order := Z.of_nat i; Server.content := c |}) cs.

(** [cs] without its first element of id [id]. *)
Fixpoint withoutFirst (id : string) (cs : list Server.StepContent)
    : list Server.StepContent :=
  match cs with
  | [] => []
  | c :: rest =>
      if decide (Server.stp_id c = id) then rest
      else c :: withoutFirst id rest
  end.

End MoreProps.

(** ** The embedding on sample values *)

Section Samples.
Import Assembler Props ElementDetector DetectorProps.

Example trim_sample :
  Js.trim "  Email address  " = "Email address".
Proof. reflexivity. Qed.

Example toLowerCase_sample : Js.toLowerCase "INPUT" = "input".
Proof. reflexivity. Qed.

(** The value typed into a text field by a recording has 11 code
    units in 21 bytes; a face is two code units in four bytes. *)
Example length_sample :
  Js.length "טקסט לדוגמה" = 11%nat
  ∧ String.length "טקסט לדוגמה" = 21%nat
  ∧ Js.length "a😀b" = 4%nat.
Proof. by repeat split. Qed.

Example substring0_sample :
  Js.substring0 4 "טקסט לדוגמה" = "טקסט"
  ∧ Js.substring0 3 "a😀b" = "a😀"
  ∧ Js.length (Js.substring0 2 "a😀b") = 2%nat.
Proof. by repeat split. Qed.

(** A no-break space (U+00A0) and an em space (U+2003) are trimmed. *)
Example trim_unicode_sample :
  let nbsp :=
    String (ascii_of_nat 194) (String (ascii_of_nat 160) EmptyString) in
  let emsp :=
    String (ascii_of_nat 226)
      (String (ascii_of_nat 128) (String (ascii_of_nat 131) EmptyString)) in
  Js.trim (nbsp +:+ " שם מלא" +:+ emsp +:+ " ") = "שם מלא".
Proof. reflexivity. Qed.

Example remove_first_sample :
  Js.remove_first "abc" "xxabcyyabc" = "xxyyabc"
  ∧ Js.remove_first "zz" "abc" = "abc".
Proof. split; reflexivity. Qed.

Example fieldName_placeholder :
  inferFieldName
    (mkElement "INPUT" [("type", "email"); ("placeholder", "Your email")]
               EmptyString)
  = "Your email".
Proof. reflexivity. Qed.

(** A Hebrew name of 60 letters is 120 bytes long and is kept. *)
Example fieldName_hebrew :
  let name := String.concat EmptyString (replicate 60 "א") in
  String.length name = 120%nat
  ∧ inferFieldName (mkElement "INPUT" [("placeholder", name)] EmptyString)
    = name.
Proof. split; reflexivity. Qed.

Example fieldName_fallback :
  inferFieldName (mkElement "INPUT" [("type", "email")] EmptyString)
  = "input (email)".
Proof. reflexivity. Qed.

Example sample_run_returns :
  is_Some (assembleProject (quietEnv "id-1" "t1")
             (mkInput sampleTrace [mkTimestamp "s2" 0 1500]) "out").
Proof. by eexists. Qed.

End Samples.

(** ** Properties of the assembler *)

Section InteractiveSteps.
Import Assembler Props.

Lemma withHint_Some s p :
  withHint s = Some p ↔ isInteractive s ∧ p.1 = s ∧ step_highlight s = Some p.2.
Proof.
  unfold withHint, isInteractive. destruct p as [s' h]. simpl.
  case_decide as Ha; destruct (step_highlight s) as [h0|] eqn:Hh; simpl.
  - split.
    + intros [= <- <-]. eauto.
    + intros (_ & -> & [= ->]). done.
  - split; [done | intros (_ & _ & [=])].
  - split; [done | intros ([Hin _] & _)]. done.
  - split; [done | intros ([Hin _] & _)]. done.
Qed.

Lemma withHint_filter (steps : list AutomationStep) :
  fst <$> omap withHint steps = filter isInteractive steps.
Proof.
  induction steps as [|s steps IH]; [done|].
  rewrite filter_cons. simpl. destruct (withHint s) as [p|] eqn:E.
  - apply withHint_Some in E as (Hi & Hp & _).
    rewrite decide_True; [|done]. simpl. f_equal; [done | exact IH].
  - rewrite decide_False; [exact IH|].
    intros [Ha [h Hh]].
    assert (withHint s = Some (s, h)) as E'
      by (apply withHint_Some; unfold isInteractive; eauto).
    congruence.
Qed.

Lemma pushInteractiveStep_withHint acc n s :
  pushInteractiveStep (acc, n) s =
  match withHint s with
  | Some p => (acc ++ [interactiveStepOf n p.1 p.2], S n)
  | None => (acc, n)
  end.
Proof.
  unfold pushInteractiveStep, withHint. case_decide; [|done].
  by destruct (step_highlight s).
Qed.

(** The loop, started on any array and any counter. *)
Lemma interactive_loop (steps : list AutomationStep) acc n :
  foldl pushInteractiveStep (acc, n) steps
  = (acc ++ imap (λ i p, interactiveStepOf (n + i) p.1 p.2)
                 (omap withHint steps),
     (n + length (omap withHint steps))%nat).
Proof.
  revert acc n. induction steps as [|s steps IH]; intros acc n.
  - simpl. by rewrite app_nil_r, Nat.add_0_r.
  - change (foldl pushInteractiveStep (acc, n) (s :: steps))
      with (foldl pushInteractiveStep (pushInteractiveStep (acc, n) s) steps).
    rewrite pushInteractiveStep_withHint.
    change (omap withHint (s :: steps))
      with (match withHint s with
            | Some p => p :: omap withHint steps
            | None => omap withHint steps
            end).
    destruct (withHint s) as [p|]; [|apply IH].
    rewrite IH, <- app_assoc, imap_cons. simpl.
    rewrite Nat.add_0_r. f_equal; [|lia].
    do 2 f_equal. apply imap_ext. intros i q _. simpl. f_equal. lia.
Qed.

Lemma generateInteractiveSteps_imap (steps : list AutomationStep) timestamps :
  generateInteractiveSteps steps timestamps
  = imap (λ i p, interactiveStepOf i p.1 p.2) (omap withHint steps).
Proof.
  unfold generateInteractiveSteps. by rewrite interactive_loop.
Qed.

End InteractiveSteps.

Section InteractiveStepsMain.
Import Assembler Props.

Lemma interactive_ids (steps : list AutomationStep) timestamps :
  is_id <$> generateInteractiveSteps steps timestamps
  = (λ s, "interactive-" +:+ step_id s) <$> filter isInteractive steps.
Proof.
  rewrite generateInteractiveSteps_imap, fmap_imap.
  rewrite <- withHint_filter, <- list_fmap_compose.
  rewrite <- imap_const. by apply imap_ext.
Qed.

Lemma interactive_orders (steps : list AutomationStep) timestamps :
  is_order <$> generateInteractiveSteps steps timestamps
  = seq 0 (length (filter isInteractive steps)).
Proof.
  rewrite generateInteractiveSteps_imap, fmap_imap.
  rewrite <- withHint_filter, length_fmap.
  rewrite <- (list_fmap_id (seq 0 _)), <- (imap_seq_0 _ id).
  by apply imap_ext.
Qed.

(** C1.  An interactive step is produced for a step of the trace
    exactly when the step is a click or a typing step that carries a
    highlight hint: the result is the list of those steps, in source
    order, each turned into its interactive step, and numbered
    0, 1, 2, ... without gaps.  On [navigate, click+hint, type+hint,
    wait] this gives exactly two interactive steps, of order 0 and 1. *)
Theorem interactive_steps_iff_click_or_type_with_hint
    (steps : list AutomationStep) (timestamps : list StepTimestamp) :
  let out := generateInteractiveSteps steps timestamps in
  out = imap (λ i p, interactiveStepOf i p.1 p.2) (omap withHint steps)
  ∧ fst <$> omap withHint steps = filter isInteractive steps
  ∧ is_id <$> out
    = (λ s, "interactive-" +:+ step_id s) <$> filter isInteractive steps
  ∧ is_order <$> out = seq 0 (length (filter isInteractive steps))
  ∧ (∀ id, "interactive-" +:+ id ∈ is_id <$> out
           ↔ ∃ s, s ∈ steps ∧ step_id s = id ∧ isInteractive s)
  ∧ is_id <$> generateInteractiveSteps sampleTrace timestamps
    = ["interactive-s2"; "interactive-s3"]
  ∧ is_order <$> generateInteractiveSteps sampleTrace timestamps
    = [0; 1]%nat.
Proof.
  intros out. subst out.
  split; [apply generateInteractiveSteps_imap|].
  split; [apply withHint_filter|].
  split; [apply interactive_ids|].
  split; [apply interactive_orders|].
  split; [|split; reflexivity].
  intros id. rewrite interactive_ids, list_elem_of_fmap. split.
  - intros (s & Heq & Hin). apply list_elem_of_filter in Hin as [Hi Hin].
    exists s. split; [done|]. split; [|done].
    symmetry. by apply (inj (String.app "interactive-")).
  - intros (s & Hin & <- & Hi). exists s. split; [done|].
    by apply list_elem_of_filter.
Qed.

End InteractiveStepsMain.

Section Assemble.
Import Assembler Props.

(** A run that returns, returns the project literal. *)
Lemma assembleProject_Some env input dir out :
  assembleProject env input dir = Some out →
  out = {| project := projectLiteral (uuid env) (toISOString env)
                        (audioFileNameOf env input) input;
           outputDir := path_join env [dir; uuid env] |}.
Proof.
  unfold assembleProject, audioFileNameOf, call. intros Hrun.
  repeat (simplify_option_eq || case_match); done.
Qed.

End Assemble.

Section Duration.
Import Assembler Props.

Lemma duration_last (timestamps : list StepTimestamp) :
  duration timestamps = default 0 (ts_endTime <$> last timestamps).
Proof.
  unfold duration. rewrite last_lookup.
  case_bool_decide as Hlen; [by rewrite Nat.sub_1_r|].
  destruct timestamps; [done | simpl in Hlen; lia].
Qed.

Lemma maxEndTime_head t rest : ts_endTime t ≤ maxEndTime (t :: rest).
Proof. simpl. destruct rest; lia. Qed.

Lemma maxEndTime_last (timestamps : list StepTimestamp) :
  endsNonDecreasing timestamps = true →
  maxEndTime timestamps = default 0 (ts_endTime <$> last timestamps).
Proof.
  induction timestamps as [|t rest IH]; [done|].
  destruct rest as [|t' rest]; [done|].
  intros [Hle Hrest]%andb_prop. apply Z.leb_le in Hle.
  specialize (IH Hrest).
  change (maxEndTime (t :: t' :: rest))
    with (Z.max (ts_endTime t) (maxEndTime (t' :: rest))).
  change (last (t :: t' :: rest)) with (last (t' :: rest)).
  rewrite <- IH. pose proof (maxEndTime_head t' rest). lia.
Qed.

(** C2 (the claim as stated fails).  The timestamps of steps "a" and
    "b" end at 10 and at 5: the project lasts 5, not the largest end
    time 10. *)
Lemma duration_not_max_counterexample :
  let input := mkInput [] [mkTimestamp "a" 0 10; mkTimestamp "b" 2 5] in
  ∃ out, assembleProject (quietEnv "id-1" "t1") input "out" = Some out
         ∧ p_duration (project out) = 5
         ∧ maxEndTime (timestamps input) = 10
         ∧ p_duration (project out) ≠ maxEndTime (timestamps input).
Proof. eexists. split; [reflexivity|]. repeat split. by intros [=]. Qed.

(** C2 (amended).  The duration of the project is the end time of the
    last timestamp supplied, and 0 when there is none; it is the largest
    end time whenever the end times never decrease along the list. *)
Theorem duration_is_last_endTime env input dir out
    (Hrun : assembleProject env input dir = Some out) :
  p_duration (project out)
  = default 0 (ts_endTime <$> last (timestamps input))
  ∧ (timestamps input = [] → p_duration (project out) = 0)
  ∧ (endsNonDecreasing (timestamps input) = true →
     p_duration (project out) = maxEndTime (timestamps input)).
Proof.
  apply assembleProject_Some in Hrun as ->. simpl.
  split; [apply duration_last|]. split.
  - intros ->. reflexivity.
  - intros Hmono. by rewrite duration_last, maxEndTime_last.
Qed.

Lemma duration_is_last_endTime_witness :
  let input := mkInput [] [mkTimestamp "a" 0 5; mkTimestamp "b" 5 9] in
  let out :=
    {| project := projectLiteral "id-1" "t1" None input;
       outputDir := "out/id-1" |} in
  endsNonDecreasing (timestamps input) = true
  ∧ p_duration (project out) = 9
  ∧ p_duration (project out) = maxEndTime (timestamps input).
Proof.
  intros input out.
  assert (assembleProject (quietEnv "id-1" "t1") input "out" = Some out)
    as Hrun by reflexivity.
  destruct (duration_is_last_endTime _ _ _ _ Hrun) as (Hlast & _ & Hmax).
  split; [reflexivity|]. split; [exact Hlast | apply Hmax; reflexivity].
Defined.

End Duration.

Section Lookup.
Import Assembler Props.

Lemma timestampOf_Some timestamps step t :
  timestampOf timestamps step = Some t →
  t ∈ timestamps ∧ ts_stepId t = step_id step.
Proof.
  unfold timestampOf, Js.find. intros Hfind.
  apply fmap_Some in Hfind as ([i t'] & Hfind & ->).
  apply list_find_Some in Hfind as (Hi & Hid & _).
  split; [by eapply list_elem_of_lookup_2 | done].
Qed.

Lemma timestampOf_first timestamps step t :
  timestampOf timestamps step = Some t ↔ isFirstTimestampOf timestamps step t.
Proof.
  unfold timestampOf, Js.find, isFirstTimestampOf. rewrite fmap_Some. split.
  - intros ([i t'] & Hfind & ->).
    apply list_find_Some in Hfind as (Hi & Hid & Hfirst).
    exists i. split; [done|]. split; [done|]. intros j t'' Hj Hl. eauto.
  - intros (i & Hi & Hid & Hfirst). exists (i, t). split; [|done].
    apply list_find_Some. split; [done|]. split; [done|].
    intros j t'' Hl Hj. eauto.
Qed.

Lemma timestampOf_isTimestampOf timestamps step t :
  isTimestampOf timestamps step t → timestampOf timestamps step = Some t.
Proof.
  intros (Hin & Hid & Huniq).
  destruct (timestampOf timestamps step) as [t'|] eqn:Hfind.
  - apply timestampOf_Some in Hfind as [Hin' Hid']. f_equal. by apply Huniq.
  - unfold timestampOf, Js.find in Hfind.
    apply fmap_None, list_find_None in Hfind.
    rewrite Forall_forall in Hfind. by destruct (Hfind t Hin).
Qed.

Lemma timestampOf_hasNoTimestamp timestamps step :
  hasNoTimestamp timestamps step ↔ timestampOf timestamps step = None.
Proof.
  unfold timestampOf, Js.find. rewrite fmap_None, list_find_None.
  by rewrite Forall_forall.
Qed.

End Lookup.

Section Subtitles.
Import Assembler Props.

Lemma pushSubtitle_app timestamps acc step :
  pushSubtitle timestamps acc step = acc ++ subtitlesOf timestamps step.
Proof.
  unfold pushSubtitle, subtitlesOf.
  destruct (timestampOf timestamps step); [|by rewrite app_nil_r].
  case_decide; [by rewrite app_nil_r | done].
Qed.

Lemma subtitle_loop timestamps (steps : list AutomationStep) acc :
  foldl (pushSubtitle timestamps) acc steps
  = acc ++ (steps ≫= subtitlesOf timestamps).
Proof.
  revert acc. induction steps as [|s steps IH]; intros acc; simpl.
  - by rewrite app_nil_r.
  - by rewrite IH, pushSubtitle_app, <- app_assoc.
Qed.

Lemma generateSubtitles_bind (steps : list AutomationStep) timestamps :
  generateSubtitles steps timestamps = steps ≫= subtitlesOf timestamps.
Proof. unfold generateSubtitles. by rewrite subtitle_loop. Qed.

Lemma generateSubtitles_app (pre post : list AutomationStep) timestamps :
  generateSubtitles (pre ++ post) timestamps
  = generateSubtitles pre timestamps ++ generateSubtitles post timestamps.
Proof. by rewrite !generateSubtitles_bind, bind_app. Qed.

End Subtitles.

Section Success.
Import Assembler Props.

(** Whether a run returns depends on the platform and on the paths of
    the input only, never on the trace. *)
Lemma assembleProject_success env input input' dir :
  videoPath input = videoPath input' →
  audioPath input = audioPath input' →
  is_Some (assembleProject env input dir)
  ↔ is_Some (assembleProject env input' dir).
Proof.
  unfold assembleProject, call. intros Hv Ha. rewrite Hv, Ha.
  repeat (case_match; simpl); try done; split; intros _; by eexists.
Qed.

End Success.

Section SubtitleRoundTrip.
Import Assembler Props.

Lemma subtitlesOf_recorded timestamps s t :
  step_narration s ≠ EmptyString →
  isTimestampOf timestamps s t →
  subtitlesOf timestamps s = [subtitleFor s t].
Proof.
  intros Hnarr Ht. unfold subtitlesOf.
  rewrite (timestampOf_isTimestampOf _ _ _ Ht). by rewrite decide_False.
Qed.

Lemma subtitlesOf_unrecorded timestamps s :
  hasNoTimestamp timestamps s → subtitlesOf timestamps s = [].
Proof.
  intros Hno%timestampOf_hasNoTimestamp. unfold subtitlesOf. by rewrite Hno.
Qed.

Lemma subtitles_of_other_steps timestamps (l : list AutomationStep) id :
  (∀ s', s' ∈ l → step_id s' ≠ id) →
  filter (λ sub, sub_id sub = "subtitle-" +:+ id)
         (generateSubtitles l timestamps) = [].
Proof.
  rewrite generateSubtitles_bind.
  induction l as [|s' l IH]; intros Hother; [done|].
  rewrite bind_cons, filter_app, IH
    by (intros ? ?; apply Hother; by right).
  rewrite app_nil_r. unfold subtitlesOf.
  destruct (timestampOf timestamps s'); [|done].
  case_decide; [done|]. rewrite filter_cons, decide_False; [done|].
  simpl. intros Heq%(inj (String.app "subtitle-")).
  by apply (Hother s'); [left|].
Qed.

(** C3 (the claim as stated fails).  Two timestamps carry the id of
    a narrated step: the second one matches the step, yet no subtitle
    of the compiled project has its window, since the one subtitle of
    the step has the window of the first.  And two narrated steps that
    share an id and a timestamp give two subtitles that are the same,
    not one. *)
Lemma subtitle_window_counterexample :
  let s2 := mkStep "s2" click None in
  let t := mkTimestamp "s2" 20 30 in
  let input := mkInput [s2] [mkTimestamp "s2" 0 10; t] in
  let twice := mkInput [s2; s2] [t] in
  step_narration s2 ≠ EmptyString
  ∧ t ∈ timestamps input ∧ ts_stepId t = step_id s2
  ∧ (∃ out,
       assembleProject (quietEnv "id-1" "t1") input "out" = Some out
       ∧ subtitles (p_layers (project out))
         = [ {| sub_id := "subtitle-s2"; sub_start := 0; sub_end := 10;
                sub_text := "Narration of s2" |} ]
       ∧ ¬ ∃ sub, sub ∈ subtitles (p_layers (project out))
                  ∧ sub_start sub = ts_startTime t
                  ∧ sub_end sub = ts_endTime t)
  ∧ (∃ out,
       assembleProject (quietEnv "id-1" "t1") twice "out" = Some out
       ∧ subtitles (p_layers (project out))
         = [subtitleFor s2 t; subtitleFor s2 t]).
Proof.
  intros s2 t input twice.
  split; [by intros [=]|]. split; [simpl; by right; left|].
  split; [reflexivity|]. split.
  - eexists. split; [reflexivity|]. split; [reflexivity|].
    intros (sub & Hin & Hstart & _). simpl in Hin.
    apply elem_of_cons in Hin as [->|Hin]; [by inversion Hstart|].
    by apply elem_of_nil in Hin.
  - eexists. split; reflexivity.
Qed.

(** C3 (amended).  A step with narration for which a timestamp with
    its id was supplied puts exactly one subtitle into the subtitle
    layer of the compiled project, between the subtitles of the steps
    before it and those of the steps after it.  Its text is the
    narration and its window is the window of the first timestamp of
    the list that carries the id of the step, which is the supplied
    timestamp when that is the one timestamp of the step; when step ids
    are not repeated it is the only subtitle carrying the id of the
    step.  A step with narration and no timestamp puts nothing into the
    layer, and the run returns exactly when the run without that step
    returns. *)
Theorem subtitle_round_trip env input dir pre s post
    (Hsteps : steps input = pre ++ s :: post)
    (Hnarr : step_narration s ≠ EmptyString) :
  let ts := timestamps input in
  (∀ t out,
     t ∈ ts → ts_stepId t = step_id s →
     assembleProject env input dir = Some out →
     ∃ sub first,
       isFirstTimestampOf ts s first
       ∧ subtitles (p_layers (project out))
         = generateSubtitles pre ts ++ sub :: generateSubtitles post ts
       ∧ sub_text sub = step_narration s
       ∧ sub_id sub = "subtitle-" +:+ step_id s
       ∧ sub_start sub = ts_startTime first
       ∧ sub_end sub = ts_endTime first
       ∧ (isTimestampOf ts s t → first = t)
       ∧ (NoDup (step_id <$> steps input) →
          filter (λ e, sub_id e = "subtitle-" +:+ step_id s)
                 (subtitles (p_layers (project out))) = [sub]))
  ∧ (hasNoTimestamp ts s →
     (∀ out,
        assembleProject env input dir = Some out →
        subtitles (p_layers (project out))
        = generateSubtitles pre ts ++ generateSubtitles post ts)
     ∧ (is_Some (assembleProject env input dir)
        ↔ is_Some (assembleProject env (withSteps (pre ++ post) input) dir))).
Proof.
  intros ts. split.
  - intros t out Hin Hid Hrun. apply assembleProject_Some in Hrun as ->.
    destruct (timestampOf ts s) as [first|] eqn:Hfirst; last first.
    { apply timestampOf_hasNoTimestamp in Hfirst. by destruct (Hfirst t). }
    exists (subtitleFor s first), first. simpl. fold ts.
    assert (generateSubtitles (steps input) ts
            = generateSubtitles pre ts
              ++ subtitleFor s first :: generateSubtitles post ts) as Hlayer.
    { rewrite Hsteps, generateSubtitles_app. f_equal.
      rewrite !generateSubtitles_bind, bind_cons.
      unfold subtitlesOf at 1. fold ts. rewrite Hfirst.
      by rewrite decide_False. }
    split; [by apply timestampOf_first|].
    split; [exact Hlayer|]. do 4 (split; [done|]). split.
    { intros Ht%timestampOf_isTimestampOf. fold ts in Ht.
      rewrite Hfirst in Ht. by injection Ht. }
    intros Hnodup. rewrite Hlayer. rewrite Hsteps, fmap_app, fmap_cons in Hnodup.
    apply NoDup_app in Hnodup as (_ & Hpre & [Hpost _]%NoDup_cons).
    rewrite filter_app, filter_cons, decide_True by done.
    rewrite !subtitles_of_other_steps; [done| |].
    + intros s' Hin' Heq. apply Hpost. rewrite <- Heq.
      apply list_elem_of_fmap. eauto.
    + intros s' Hin' Heq. apply (Hpre (step_id s')).
      * apply list_elem_of_fmap. eauto.
      * rewrite Heq. by left.
  - intros Hno. split.
    + intros out Hrun. apply assembleProject_Some in Hrun as ->. simpl. fold ts.
      rewrite Hsteps, generateSubtitles_app. f_equal.
      rewrite !generateSubtitles_bind, bind_cons.
      by rewrite (subtitlesOf_unrecorded _ _ Hno).
    + by apply assembleProject_success.
Qed.

Lemma subtitle_round_trip_witness :
  let s1 := mkStep "s1" navigate None in
  let s2 := mkStep "s2" click (hintAt 10 50) in
  let s3 := mkStep "s3" type (hintAt 40 30) in
  let t2 := mkTimestamp "s2" 1500 4000 in
  let late := mkTimestamp "s2" 5000 6000 in
  let input := mkInput [s1; s2; s3] [mkTimestamp "s1" 0 1500; t2; late] in
  step_narration s2 ≠ EmptyString
  ∧ late ∈ timestamps input
  ∧ isFirstTimestampOf (timestamps input) s2 t2
  ∧ hasNoTimestamp (timestamps input) s3
  ∧ ∃ out sub,
      assembleProject (quietEnv "id-1" "t1") input "out" = Some out
      ∧ subtitles (p_layers (project out))
        = generateSubtitles [s1] (timestamps input)
          ++ sub :: generateSubtitles [s3] (timestamps input)
      ∧ sub_start sub = 1500 ∧ sub_end sub = 4000
      ∧ sub_text sub = "Narration of s2"
      ∧ subtitles (p_layers (project out))
        = generateSubtitles [s1; s2] (timestamps input).
Proof.
  intros s1 s2 s3 t2 late input.
  assert (step_narration s2 ≠ EmptyString) as Hnarr2 by (by intros [=]).
  assert (step_narration s3 ≠ EmptyString) as Hnarr3 by (by intros [=]).
  assert (late ∈ timestamps input) as Hin
    by (simpl; by right; right; left).
  assert (isFirstTimestampOf (timestamps input) s2 t2) as Hfirst
    by (by apply timestampOf_first).
  assert (hasNoTimestamp (timestamps input) s3) as Hno
    by (by apply timestampOf_hasNoTimestamp).
  split; [exact Hnarr2|]. split; [exact Hin|]. split; [exact Hfirst|].
  split; [exact Hno|].
  destruct (subtitle_round_trip (quietEnv "id-1" "t1") input "out"
              [s1] s2 [s3] eq_refl Hnarr2) as [Hsub _].
  destruct (subtitle_round_trip (quietEnv "id-1" "t1") input "out"
              [s1; s2] s3 [] eq_refl Hnarr3) as [_ Hskip].
  destruct (Hsub late _ Hin eq_refl eq_refl)
    as (sub & first & Hfirst' & Hlayer & Htxt & _ & Hs & He & _).
  apply timestampOf_first in Hfirst'.
  assert (first = t2) as -> by (by injection Hfirst').
  destruct (Hskip Hno) as [Hlayer' _].
  eexists _, sub. split; [reflexivity|]. split; [exact Hlayer|].
  split; [exact Hs|]. split; [exact He|]. split; [exact Htxt|].
  rewrite (Hlayer' _ eq_refl). by rewrite app_nil_r.
Defined.

End SubtitleRoundTrip.

Section Highlights.
Import Assembler Props.

Lemma pushHighlight_app timestamps acc step :
  pushHighlight timestamps acc step = acc ++ highlightsOf timestamps step.
Proof.
  unfold pushHighlight, highlightsOf.
  destruct (step_highlight step); [|by rewrite app_nil_r].
  destruct (timestampOf timestamps step); [done | by rewrite app_nil_r].
Qed.

Lemma highlight_loop timestamps (steps : list AutomationStep) acc :
  foldl (pushHighlight timestamps) acc steps
  = acc ++ (steps ≫= highlightsOf timestamps).
Proof.
  revert acc. induction steps as [|s steps IH]; intros acc; simpl.
  - by rewrite app_nil_r.
  - by rewrite IH, pushHighlight_app, <- app_assoc.
Qed.

Lemma generateHighlights_bind (steps : list AutomationStep) timestamps :
  generateHighlights steps timestamps = steps ≫= highlightsOf timestamps.
Proof. unfold generateHighlights. by rewrite highlight_loop. Qed.

Lemma highlightsOf_length timestamps s :
  length (highlightsOf timestamps s)
  = if decide (isHighlighted timestamps s) then 1%nat else 0%nat.
Proof.
  case_decide as H.
  - destruct H as [[h Hh] [t Ht]]. unfold highlightsOf. by rewrite Hh, Ht.
  - unfold highlightsOf.
    destruct (step_highlight s) as [h|] eqn:Hh; [|done].
    destruct (timestampOf timestamps s) as [t|] eqn:Ht; [|done].
    destruct H. unfold isHighlighted. rewrite Hh, Ht. eauto.
Qed.

Lemma generateHighlights_length (steps : list AutomationStep) timestamps :
  length (generateHighlights steps timestamps)
  = length (filter (isHighlighted timestamps) steps).
Proof.
  rewrite generateHighlights_bind.
  induction steps as [|s steps IH]; [done|].
  rewrite bind_cons, length_app, IH, highlightsOf_length, filter_cons.
  by case_decide.
Qed.

Lemma generateHighlights_size (steps : list AutomationStep) timestamps :
  Forall (λ e, hl_width e = Some 5%Q ∧ hl_height e = Some 5%Q)
         (generateHighlights steps timestamps).
Proof.
  rewrite generateHighlights_bind. apply Forall_bind, Forall_forall.
  intros s _. unfold highlightsOf, compose.
  destruct (step_highlight s), (timestampOf timestamps s);
    [apply Forall_singleton; by split | apply Forall_nil_2 ..].
Qed.

(** C4 (the claim as stated fails).  A click step declares a highlight
    hint, no timestamp was recorded for it and no detected highlights
    are supplied: the highlight layer is empty, not one entry long. *)
Lemma highlight_per_hint_counterexample :
  let s := mkStep "s1" click (hintAt 10 50) in
  let input := mkInput [s] [] in
  ∃ out, assembleProject (quietEnv "id-1" "t1") input "out" = Some out
         ∧ autoHighlights input = None
         ∧ filter (λ s, is_Some (step_highlight s)) (steps input) = [s]
         ∧ highlights (p_layers (project out)) = [].
Proof. eexists. split; [reflexivity|]. repeat split. Qed.

(** C4 (amended).  A non-empty list of detected highlights becomes the
    highlight layer as it is.  Otherwise the layer holds, in source
    order, one highlight of width 5 and height 5 for every step that
    declares a highlight hint and for which a timestamp is found; a
    hinted step without a timestamp adds nothing. *)
Theorem highlight_layer env input dir out
    (Hrun : assembleProject env input dir = Some out) :
  let layer := highlights (p_layers (project out)) in
  (∀ hs, autoHighlights input = Some hs → hs ≠ [] → layer = hs)
  ∧ (autoHighlights input = None ∨ autoHighlights input = Some [] →
     layer = steps input ≫= highlightsOf (timestamps input)
     ∧ length layer
       = length (filter (isHighlighted (timestamps input)) (steps input))
     ∧ Forall (λ e, hl_width e = Some 5%Q ∧ hl_height e = Some 5%Q) layer).
Proof.
  apply assembleProject_Some in Hrun as ->. simpl. unfold highlightsLayer.
  split.
  - intros hs -> Hne. rewrite bool_decide_true; [done|].
    destruct hs; [done | simpl; lia].
  - intros Hnone.
    assert ((match autoHighlights input with
             | Some hs =>
                 if bool_decide (0 < length hs)%nat then hs
                 else generateHighlights (steps input) (timestamps input)
             | None => generateHighlights (steps input) (timestamps input)
             end) = generateHighlights (steps input) (timestamps input)) as ->
      by (destruct Hnone as [-> | ->]; done).
    split; [apply generateHighlights_bind|].
    split; [apply generateHighlights_length | apply generateHighlights_size].
Qed.

Lemma highlight_layer_witness :
  let s2 := mkStep "s2" click (hintAt 10 50) in
  let s3 := mkStep "s3" type (hintAt 40 30) in
  let input := mkInput [s2; s3] [mkTimestamp "s2" 0 1500] in
  let detected := [detectedHighlight "h1" 0 1500 12 48 20 6] in
  (∃ out, assembleProject (quietEnv "id-1" "t1") input "out" = Some out
          ∧ hl_id <$> highlights (p_layers (project out)) = ["highlight-s2"])
  ∧ (∃ out, assembleProject (quietEnv "id-1" "t1")
              (withAutoHighlights (Some detected) input) "out" = Some out
            ∧ highlights (p_layers (project out)) = detected).
Proof.
  intros s2 s3 input detected. split.
  - eexists. split; [reflexivity|].
    destruct (highlight_layer (quietEnv "id-1" "t1") input "out" _ eq_refl)
      as [_ Hderived].
    destruct (Hderived (or_introl eq_refl)) as (-> & _). reflexivity.
  - eexists. split; [reflexivity|].
    destruct (highlight_layer (quietEnv "id-1" "t1")
                (withAutoHighlights (Some detected) input) "out" _ eq_refl)
      as [Hauto _].
    apply Hauto; [reflexivity | done].
Defined.

End Highlights.

Section Determinism.
Import Assembler Props.

(** C5 (the claim as stated fails).  Two runs on the same input, five
    seconds apart: the projects differ in [createdAt], not only in
    their identity. *)
Lemma createdAt_differs_counterexample :
  let input := mkInput sampleTrace [mkTimestamp "s2" 0 1500] in
  ∃ out1 out2,
    assembleProject (quietEnv "id-1" "2024-05-01T10:00:00.000Z") input "out"
    = Some out1
    ∧ assembleProject (quietEnv "id-2" "2024-05-01T10:00:05.000Z") input "out"
      = Some out2
    ∧ p_createdAt (project out1) ≠ p_createdAt (project out2).
Proof.
  eexists _, _. split; [reflexivity|]. split; [reflexivity|]. by intros [=].
Qed.

(** C5 (amended).  Two runs on the same input that find the audio file
    in the same state return projects that are equal except for the
    identity and the creation time: title, description, target URL,
    duration, every layer, the interactive steps and the languages are
    the same. *)
Theorem runs_agree_up_to_identity_and_time env1 env2 input dir1 dir2 out1 out2
    (Hrun1 : assembleProject env1 input dir1 = Some out1)
    (Hrun2 : assembleProject env2 input dir2 = Some out2)
    (Haudio : ∀ a, audioPath input = Some a →
                   existsSync env1 a = existsSync env2 a) :
  project out1 = stamped (uuid env1) (toISOString env1) (project out2)
  ∧ p_title (project out1) = p_title (project out2)
  ∧ p_duration (project out1) = p_duration (project out2)
  ∧ p_layers (project out1) = p_layers (project out2)
  ∧ p_interactiveSteps (project out1) = p_interactiveSteps (project out2)
  ∧ p_defaultLanguage (project out1) = p_defaultLanguage (project out2)
  ∧ p_availableLanguages (project out1) = p_availableLanguages (project out2).
Proof.
  apply assembleProject_Some in Hrun1 as ->.
  apply assembleProject_Some in Hrun2 as ->.
  assert (audioFileNameOf env1 input = audioFileNameOf env2 input) as Hfile.
  { unfold audioFileNameOf. destruct (audioPath input) as [a|]; [|done].
    by rewrite (Haudio a eq_refl). }
  simpl. rewrite Hfile. by repeat split.
Qed.

Lemma runs_agree_up_to_identity_and_time_witness :
  let input := mkInput sampleTrace [mkTimestamp "s2" 0 1500] in
  ∃ out1 out2,
    assembleProject (quietEnv "id-1" "2024-05-01T10:00:00.000Z") input "a"
    = Some out1
    ∧ assembleProject (quietEnv "id-2" "2024-05-01T10:00:05.000Z") input "b"
      = Some out2
    ∧ project out1
      = stamped "id-1" "2024-05-01T10:00:00.000Z" (project out2).
Proof.
  intros input. eexists _, _. split; [reflexivity|]. split; [reflexivity|].
  refine (proj1 (runs_agree_up_to_identity_and_time
                   (quietEnv "id-1" "2024-05-01T10:00:00.000Z")
                   (quietEnv "id-2" "2024-05-01T10:00:05.000Z")
                   input "a" "b" _ _ eq_refl eq_refl _)).
  intros a Ha. reflexivity.
Defined.

End Determinism.

Section Languages.
Import Assembler Props.

(** C7 (the claim as stated fails).  The input names French as the
    default language and Hebrew and English as the available ones: the
    project keeps both as they are. *)
Lemma default_language_counterexample :
  let input :=
    withLanguages (Some "fr") (Some ["he"; "en"]) (mkInput sampleTrace []) in
  ∃ out, assembleProject (quietEnv "id-1" "t1") input "out" = Some out
         ∧ p_defaultLanguage (project out)
           ∉ p_availableLanguages (project out).
Proof.
  eexists. split; [reflexivity|]. simpl.
  intros Hin. repeat (apply elem_of_cons in Hin as [[=]|Hin]).
  by apply elem_of_nil in Hin.
Qed.

(** C7 (amended).  The compiler copies the languages of the input
    without checking them, with "en" for a missing or empty default
    language and ["en"] for a missing list.  So the default language is
    a member of the available languages when the input gives neither,
    and when it gives both (a non-empty default) it is a member exactly
    when that is so in the input. *)
Theorem languages_are_copied env input dir out
    (Hrun : assembleProject env input dir = Some out) :
  let p := project out in
  p_defaultLanguage p = Js.opt_str_or (defaultLanguage input) "en"
  ∧ p_availableLanguages p = default ["en"] (availableLanguages input)
  ∧ (defaultLanguage input = None → availableLanguages input = None →
     p_defaultLanguage p ∈ p_availableLanguages p)
  ∧ (∀ d ls, defaultLanguage input = Some d → d ≠ EmptyString →
             availableLanguages input = Some ls →
             p_defaultLanguage p ∈ p_availableLanguages p ↔ d ∈ ls).
Proof.
  apply assembleProject_Some in Hrun as ->. simpl.
  split; [done|]. split; [done|]. split.
  - intros -> ->. simpl. by left.
  - intros d ls -> Hd ->. simpl. unfold Js.str_or. by rewrite decide_False.
Qed.

Lemma languages_are_copied_witness :
  let input :=
    withLanguages (Some "he") (Some ["he"; "en"; "ar"])
                  (mkInput sampleTrace []) in
  ∃ out, assembleProject (quietEnv "id-1" "t1") input "out" = Some out
         ∧ p_defaultLanguage (project out) = "he"
         ∧ p_defaultLanguage (project out)
           ∈ p_availableLanguages (project out).
Proof.
  intros input. eexists. split; [reflexivity|].
  destruct (languages_are_copied (quietEnv "id-1" "t1") input "out" _ eq_refl)
    as (Hd & _ & _ & Hboth).
  split; [exact Hd|].
  apply (Hboth "he" ["he"; "en"; "ar"]); [reflexivity | done | reflexivity|].
  by left.
Defined.

End Languages.

Section UnknownTimestamp.
Import Assembler Props.

Lemma find_cons {A} (P : A → Prop) `{∀ x, Decision (P x)} x (l : list A) :
  Js.find P (x :: l) = if decide (P x) then Some x else Js.find P l.
Proof.
  unfold Js.find. simpl. case_decide; [done|].
  rewrite <- option_fmap_compose. by destruct (list_find P l) as [[]|].
Qed.

Lemma find_skip {A} (P : A → Prop) `{∀ x, Decision (P x)} x (l1 l2 : list A) :
  ¬ P x → Js.find P (l1 ++ x :: l2) = Js.find P (l1 ++ l2).
Proof.
  intros Hx. induction l1 as [|y l1 IH]; simpl.
  - by rewrite find_cons, decide_False.
  - rewrite !find_cons. by rewrite IH.
Qed.

Lemma timestampOf_skip ts1 t ts2 s :
  step_id s ≠ ts_stepId t →
  timestampOf (ts1 ++ t :: ts2) s = timestampOf (ts1 ++ ts2) s.
Proof. intros Hne. unfold timestampOf. by apply find_skip. Qed.

Lemma generateSubtitles_skip (steps : list AutomationStep) ts1 t ts2 :
  (∀ s, s ∈ steps → step_id s ≠ ts_stepId t) →
  generateSubtitles steps (ts1 ++ t :: ts2)
  = generateSubtitles steps (ts1 ++ ts2).
Proof.
  rewrite !generateSubtitles_bind.
  induction steps as [|s steps IH]; intros Hunknown; [done|].
  rewrite !bind_cons, IH by (intros ? ?; apply Hunknown; by right).
  unfold subtitlesOf. rewrite timestampOf_skip; [done|].
  apply Hunknown. by left.
Qed.

Lemma generateHighlights_skip (steps : list AutomationStep) ts1 t ts2 :
  (∀ s, s ∈ steps → step_id s ≠ ts_stepId t) →
  generateHighlights steps (ts1 ++ t :: ts2)
  = generateHighlights steps (ts1 ++ ts2).
Proof.
  rewrite !generateHighlights_bind.
  induction steps as [|s steps IH]; intros Hunknown; [done|].
  rewrite !bind_cons, IH by (intros ? ?; apply Hunknown; by right).
  unfold highlightsOf. rewrite timestampOf_skip; [done|].
  apply Hunknown. by left.
Qed.

Lemma generateSummary_skip (steps : list AutomationStep) ts1 t ts2 :
  (∀ s, s ∈ steps → step_id s ≠ ts_stepId t) →
  generateSummary steps (ts1 ++ t :: ts2) = generateSummary steps (ts1 ++ ts2).
Proof.
  intros Hunknown. unfold generateSummary. f_equal.
  apply list_fmap_ext. intros i s Hs.
  apply list_elem_of_lookup_2, list_elem_of_filter in Hs as [_ Hin].
  by rewrite timestampOf_skip by (by apply Hunknown).
Qed.

(** C6 (the claim as stated fails).  The only timestamp names a step
    "ghost" that is not in the trace: the run returns a project. *)
Lemma unknown_timestamp_counterexample :
  let input := mkInput sampleTrace [mkTimestamp "ghost" 0 1500] in
  (∀ s, s ∈ steps input → step_id s ≠ "ghost")
  ∧ ∃ out, assembleProject (quietEnv "id-1" "t1") input "out" = Some out.
Proof.
  split; [|by eexists].
  intros s Hin. simpl in Hin.
  repeat (apply elem_of_cons in Hin as [->|Hin]; [by intros [=]|]).
  by apply elem_of_nil in Hin.
Qed.

(** C6 (amended).  A timestamp that names no step of the trace is not
    an error: the run returns exactly when the run without that
    timestamp returns, and then with the same project, up to the
    duration, which is read from the last timestamp supplied. *)
Theorem unknown_timestamp_is_ignored env input dir ts1 t ts2
    (Hts : timestamps input = ts1 ++ t :: ts2)
    (Hunknown : ∀ s, s ∈ steps input → step_id s ≠ ts_stepId t) :
  let input' := withTimestamps (ts1 ++ ts2) input in
  (is_Some (assembleProject env input dir)
   ↔ is_Some (assembleProject env input' dir))
  ∧ ∀ out out',
      assembleProject env input dir = Some out →
      assembleProject env input' dir = Some out' →
      project out
      = withDuration (duration (timestamps input)) (project out').
Proof.
  intros input'. split; [by apply assembleProject_success|].
  intros out out' Hrun Hrun'.
  apply assembleProject_Some in Hrun as ->.
  apply assembleProject_Some in Hrun' as ->.
  unfold projectLiteral, withDuration, highlightsLayer, audioFileNameOf.
  simpl. rewrite Hts.
  rewrite generateSubtitles_skip, generateHighlights_skip,
    generateSummary_skip by done.
  reflexivity.
Qed.

Lemma unknown_timestamp_is_ignored_witness :
  let recorded := [mkTimestamp "s1" 0 1000; mkTimestamp "s2" 1000 2500] in
  let ghost := mkTimestamp "ghost" 2500 4000 in
  let input := mkInput sampleTrace (recorded ++ [ghost]) in
  ∃ out out',
    assembleProject (quietEnv "id-1" "t1") input "out" = Some out
    ∧ assembleProject (quietEnv "id-1" "t1")
        (withTimestamps recorded input) "out" = Some out'
    ∧ project out = withDuration 4000 (project out').
Proof.
  intros recorded ghost input.
  eexists _, _. split; [reflexivity|]. split; [reflexivity|].
  refine (proj2 (unknown_timestamp_is_ignored (quietEnv "id-1" "t1") input
                   "out" recorded ghost [] eq_refl _) _ _ eq_refl eq_refl).
  intros s Hin. simpl in Hin.
  repeat (apply elem_of_cons in Hin as [->|Hin]; [by intros [=]|]).
  by apply elem_of_nil in Hin.
Defined.

End UnknownTimestamp.

(** ** Properties of the hit-test *)

Section HitTest.
Import Player.
Local Open Scope Q_scope.

Lemma toPercent_nonneg tol size : 0 <= tol → 0 < size → 0 <= toPercent tol size.
Proof.
  intros Htol Hsize. unfold toPercent.
  apply Qmult_le_0_compat; [|lra].
  apply Qmult_le_0_compat; [done|].
  apply Qinv_le_0_compat. lra.
Qed.

Lemma hitTest_closed t vp px py :
  hitTest t vp px py = true
  ↔ left t vp <= px ∧ px <= right t vp ∧ top t vp <= py ∧ py <= bottom t vp.
Proof.
  unfold hitTest. rewrite !andb_true_iff, !Qle_bool_iff. tauto.
Qed.

(** C8.  With the target (50, 50, 10 x 8, tolerance 15 px) on a
    1280 x 720 viewport, the pointer at (55, 54) is a hit and the
    pointer at (70, 70) is a miss; for every well-formed target and
    viewport, a pointer on an edge of the rectangle expanded by the
    tolerance is a hit. *)
Theorem hit_test_examples_and_boundary :
  hitTest exampleTarget exampleViewport 55 54 = true
  ∧ hitTest exampleTarget exampleViewport 70 70 = false
  ∧ ∀ t vp px py,
      wellFormed t vp → onBoundary t vp px py → hitTest t vp px py = true.
Proof.
  split; [reflexivity|]. split; [reflexivity|].
  intros t vp px py (Hw & Hh & Htol & Hvw & Hvh) Hedge.
  apply hitTest_closed.
  pose proof (toPercent_nonneg _ _ Htol Hvw) as Hx.
  pose proof (toPercent_nonneg _ _ Htol Hvh) as Hy.
  unfold onBoundary, left, right, top, bottom in *.
  destruct Hedge as [[[Hp | Hp] [? ?]] | [[Hp | Hp] [? ?]]];
    rewrite ?Hp; repeat split; lra.
Qed.

Lemma hit_test_examples_and_boundary_witness :
  wellFormed exampleTarget exampleViewport
  ∧ onBoundary exampleTarget exampleViewport (3125 # 64) 54
  ∧ hitTest exampleTarget exampleViewport (3125 # 64) 54 = true.
Proof.
  assert (wellFormed exampleTarget exampleViewport) as Hwf
    by (unfold wellFormed; simpl; repeat split; lra).
  assert (onBoundary exampleTarget exampleViewport (3125 # 64) 54) as Hedge.
  { apply or_introl. split; [apply or_introl; reflexivity|].
    split; apply Qle_bool_iff; reflexivity. }
  split; [exact Hwf|]. split; [exact Hedge|].
  exact (proj2 (proj2 hit_test_examples_and_boundary) _ _ _ _ Hwf Hedge).
Defined.

End HitTest.

(** ** Properties of the element detector *)

Section FieldName.
Import ElementDetector DetectorProps.

Lemma firstNamed_snoc rs r elem :
  firstNamed (rs ++ [r]) elem
  = match firstNamed rs elem with
    | Some n => Some n
    | None => named (r elem)
    end.
Proof.
  induction rs as [|r' rs IH]; simpl.
  - unfold named. by destruct (Js.truthy (r elem)).
  - destruct (Js.truthy (r' elem)) eqn:Hr'; [|done].
    destruct (r' elem); [done | discriminate].
Qed.

Lemma named_truthy o : named o = None ↔ Js.truthy o = false.
Proof.
  unfold named. destruct (Js.truthy o) eqn:H; [|done].
  destruct o; [|discriminate]. split; discriminate.
Qed.

(** One assignment to [fieldName] extends the rules already applied by
    the rule [r], when it keeps a name already found and otherwise
    yields the name of [r]. *)
Lemma rule_step elem rs (upd : option string → option string) r cur :
  named cur = firstNamed rs elem →
  (Js.truthy cur = true → upd cur = cur) →
  (Js.truthy cur = false → named (upd cur) = named (r elem)) →
  named (upd cur) = firstNamed (rs ++ [r]) elem.
Proof.
  intros Hcur Hkeep Hnew. rewrite firstNamed_snoc, <- Hcur.
  destruct (Js.truthy cur) eqn:Ht.
  - rewrite Hkeep by done. unfold named. rewrite Ht.
    destruct cur; [done | discriminate].
  - rewrite Hnew by done. apply named_truthy in Ht. by rewrite Ht.
Qed.

Lemma rule_attribute_step elem rs attr cur :
  named cur = firstNamed rs elem →
  named (rule_attribute attr elem cur)
  = firstNamed (rs ++ [attributeName attr]) elem.
Proof.
  intros Hcur. apply rule_step; [done| |]; unfold rule_attribute;
    intros ->; done.
Qed.

Lemma rule_parentLabel_step elem rs cur :
  named cur = firstNamed rs elem →
  named (rule_parentLabel elem cur)
  = firstNamed (rs ++ [parentLabelName]) elem.
Proof.
  intros Hcur. apply rule_step; [done| |]; unfold rule_parentLabel;
    intros Ht; rewrite Ht; [done|]. simpl.
  unfold parentLabelName. apply named_truthy in Ht.
  destruct (closest_label elem) as [l|]; [|done].
  by destruct (Js.truthy (label_textContent l)).
Qed.

Lemma rule_text_step elem rs cur :
  named cur = firstNamed rs elem →
  named (rule_text elem cur) = firstNamed (rs ++ [textName]) elem.
Proof.
  intros Hcur. apply rule_step; [done| |]; unfold rule_text;
    intros Ht; rewrite Ht; [done|]. simpl.
  unfold textName. apply named_truthy in Ht.
  by destruct (Js.truthy (textContent elem)).
Qed.

Lemma rule_associatedLabel_step elem :
  named (rule_associatedLabel elem None) = firstNamed [labelForName] elem.
Proof.
  apply (rule_step elem [] _ labelForName None); [done|discriminate|].
  intros _. unfold rule_associatedLabel, labelForName. by cbv zeta.
Qed.

(** Rules 1 to 9 of the source choose the name of the first rule that
    yields a non-empty name. *)
Lemma namedBy_firstNamed elem : named (namedBy elem) = firstNamed rules elem.
Proof.
  unfold namedBy, rules. cbv zeta.
  apply (rule_attribute_step elem
           [labelForName; parentLabelName; attributeName "placeholder";
            attributeName "aria-label"; attributeName "title";
            attributeName "name"; textName; attributeName "alt"]).
  apply (rule_attribute_step elem
           [labelForName; parentLabelName; attributeName "placeholder";
            attributeName "aria-label"; attributeName "title";
            attributeName "name"; textName]).
  apply (rule_text_step elem
           [labelForName; parentLabelName; attributeName "placeholder";
            attributeName "aria-label"; attributeName "title";
            attributeName "name"]).
  apply (rule_attribute_step elem
           [labelForName; parentLabelName; attributeName "placeholder";
            attributeName "aria-label"; attributeName "title"]).
  apply (rule_attribute_step elem
           [labelForName; parentLabelName; attributeName "placeholder";
            attributeName "aria-label"]).
  apply (rule_attribute_step elem
           [labelForName; parentLabelName; attributeName "placeholder"]).
  apply (rule_attribute_step elem [labelForName; parentLabelName]).
  apply (rule_parentLabel_step elem [labelForName]).
  apply rule_associatedLabel_step.
Qed.

(** Only the empty string has length 0. *)
Lemma length_0 s : Js.length s = 0%nat ↔ s = EmptyString.
Proof.
  destruct s as [|a r]; [done|]. split; [|done].
  unfold Js.length. simpl.
  assert (1 ≤ Js.units a)%nat
    by (unfold Js.units; destruct (_ <? _)%nat; lia).
  destruct (Js.is_continuation a); lia.
Qed.

(** C9 (the claim as stated fails).  A [div] whose text is 100
    characters long and whose [alt] is "Logo": the text rule is the
    first that applies, yet the inferred name is the fallback "div",
    neither that text nor the name of a later rule. *)
Lemma long_name_counterexample :
  let elem :=
    mkElement "DIV" [("alt", "Logo")] (replicate_char 100 "a") in
  firstNamed rules elem = Some (replicate_char 100 "a")
  ∧ inferFieldName elem = "div"
  ∧ inferFieldName elem ≠ firstRuleOrFallback elem.
Proof.
  intros elem. split; [reflexivity|]. split; [reflexivity|].
  vm_compute. by intros [=].
Qed.

(** C9 (amended).  The inferred field name is the name of the first
    rule, in the order label for the id, enclosing label, placeholder,
    aria-label, title, name, text, alt, value, that yields a non-empty
    name, provided the length of that name, which [length] counts in
    UTF-16 code units, is below 100; when no rule yields a name, or the
    name found has a length of 100 or more, it is the fallback built
    from the tag name and the type (and "unknown" should that be
    empty). *)
Theorem field_name_by_first_rule elem :
  firstNamed rules elem = named (namedBy elem)
  ∧ inferFieldName elem
    = match firstNamed rules elem with
      | Some n =>
          if bool_decide (100 ≤ Js.length n)%nat
          then Js.str_or (fallbackName elem) "unknown"
          else n
      | None => Js.str_or (fallbackName elem) "unknown"
      end.
Proof.
  split; [by rewrite namedBy_firstNamed|].
  rewrite <- namedBy_firstNamed. unfold inferFieldName, named.
  cbv zeta. destruct (namedBy elem) as [n|]; [|done].
  destruct (Js.truthy (Some n)) eqn:Ht; simpl; [|done].
  apply bool_decide_eq_true in Ht.
  rewrite (bool_decide_eq_false_2 (Js.length n = 0)%nat)
    by (by rewrite length_0).
  simpl. case_bool_decide; [done|].
  unfold Js.str_or. by rewrite decide_False.
Qed.

End FieldName.

(** ** Properties of step deletion *)

Section DeleteStep.
Import Server ServerProps.

Lemma reorder_content (l : list TutorialStep) :
  content <$> imap setOrder l = content <$> l.
Proof. rewrite fmap_imap, <- imap_const. by apply imap_ext. Qed.

Lemma reorder_order (l : list TutorialStep) :
  order <$> imap setOrder l = Z.of_nat <$> seq 0 (length l).
Proof. rewrite fmap_imap, <- imap_seq_0. by apply imap_ext. Qed.

Lemma deleteStep_Some stepId (steps steps' : list TutorialStep) :
  deleteStep stepId steps = Some steps' →
  ∃ pre s post,
    steps = pre ++ s :: post
    ∧ stp_id (content s) = stepId
    ∧ (∀ s', s' ∈ pre → stp_id (content s') ≠ stepId)
    ∧ steps' = imap setOrder (pre ++ post).
Proof.
  unfold deleteStep, Js.findIndex, removeAndReorder.
  destruct (list_find _ steps) as [[i s]|] eqn:Hfind; [|done].
  simpl. intros [= <-].
  apply list_find_Some in Hfind as (Hi & Hid & Hfirst).
  exists (take i steps), s, (drop (S i) steps).
  split; [by rewrite take_drop_middle|]. split; [done|].
  split; [|by rewrite delete_take_drop].
  intros s' [j Hj]%list_elem_of_lookup_1.
  apply lookup_take_Some in Hj as [Hj Hlt]. by eapply Hfirst.
Qed.

(** C10.  The handler finds a step to delete exactly when a step of
    the tutorial has the requested id.  It then removes the first such
    step; the remaining steps keep their content and their relative
    order, and the order field of each is its index in the remaining
    list, 0 to n-1, whatever the order fields were before.  The
    project written back holds these steps in the tutorial that was
    addressed. *)
Theorem delete_step_keeps_order_dense stepId (steps : list TutorialStep) :
  (is_Some (deleteStep stepId steps)
   ↔ ∃ s, s ∈ steps ∧ stp_id (content s) = stepId)
  ∧ (∀ steps',
       deleteStep stepId steps = Some steps' →
       (∃ pre s post,
          steps = pre ++ s :: post
          ∧ stp_id (content s) = stepId
          ∧ (∀ s', s' ∈ pre → stp_id (content s') ≠ stepId)
          ∧ content <$> steps' = content <$> (pre ++ post))
       ∧ order <$> steps' = Z.of_nat <$> seq 0 (length steps')
       ∧ (∀ i s', steps' !! i = Some s' → order s' = Z.of_nat i)
       ∧ length steps' = (length steps - 1)%nat)
  ∧ (∀ project now tutorialId written,
       deleteStepHandler (Some project) now tutorialId stepId
       = Success written →
       ∃ k tutorial tutorial',
         sp_tutorials project !! k = Some tutorial
         ∧ tut_id tutorial = tutorialId
         ∧ sp_tutorials written !! k = Some tutorial'
         ∧ deleteStep stepId (tut_steps tutorial)
           = Some (tut_steps tutorial')).
Proof.
  split; [|split].
  - unfold deleteStep, Js.findIndex. split.
    + intros [steps' Hdel].
      destruct (list_find _ steps) as [[i s]|] eqn:Hfind; [|done].
      apply list_find_Some in Hfind as (Hi & Hid & _).
      exists s. split; [by eapply list_elem_of_lookup_2 | done].
    + intros (s & Hin & Hid).
      destruct (list_find_elem_of (λ s, stp_id (content s) = stepId)
                  steps s Hin Hid) as [[i s'] ->].
      by eexists.
  - intros steps' Hdel.
    destruct (deleteStep_Some _ _ _ Hdel) as (pre & s & post & -> & Hid & Hpre & ->).
    split; [|split; [|split]].
    + exists pre, s, post. by rewrite reorder_content.
    + by rewrite reorder_order, length_imap.
    + intros i s' Hi. apply list_lookup_imap_Some in Hi as (y & _ & ->). done.
    + rewrite length_imap, !length_app. simpl. lia.
  - intros project now tutorialId written. unfold deleteStepHandler.
    destruct (list_find _ (sp_tutorials project)) as [[k tutorial]|] eqn:Hfind;
      [|done].
    destruct (deleteStep stepId (tut_steps tutorial)) as [steps'|] eqn:Hdel;
      [|done].
    intros [= <-]. apply list_find_Some in Hfind as (Hk & Hid & _).
    eexists k, tutorial, _. split; [done|]. split; [done|]. simpl.
    split; [apply list_lookup_insert_eq; by eapply lookup_lt_Some|].
    exact Hdel.
Qed.

Lemma delete_step_keeps_order_dense_witness :
  let steps :=
    [mkTutorialStep "a" 0; mkTutorialStep "b" 1;
     mkTutorialStep "c" 2; mkTutorialStep "d" 3] in
  ∃ steps',
    deleteStep "b" steps = Some steps'
    ∧ stp_id ∘ content <$> steps' = ["a"; "c"; "d"]
    ∧ order <$> steps' = [0; 1; 2].
Proof.
  intros steps. eexists. split; [reflexivity|]. split; [reflexivity|].
  destruct (delete_step_keeps_order_dense "b" steps) as (_ & Hdense & _).
  destruct (Hdense _ eq_refl) as (_ & Horder & _). exact Horder.
Defined.

End DeleteStep.

(** ** Further properties of the assembler *)

Section Summary.
Import Assembler Props.

Lemma filter_sublist_weaken {A} (P Q : A → Prop)
    `{∀ x, Decision (P x)} `{∀ x, Decision (Q x)} (l : list A) :
  (∀ x, P x → Q x) → filter P l `sublist_of` filter Q l.
Proof.
  intros HPQ. induction l as [|x l IH]; [done|].
  rewrite !filter_cons. destruct (decide (P x)) as [HP|HP].
  - rewrite decide_True by auto. by apply sublist_skip.
  - case_decide; [by apply sublist_cons | done].
Qed.

Lemma startTime_or_0_default o :
  startTime_or_0 o = default 0 (ts_startTime <$> o).
Proof. destruct o as [t|]; [|done]. simpl. by case_decide. Qed.

(** X1.  The summary layer is present exactly when the input asks for
    it.  Its key points are the descriptions of the steps that are no
    wait, in the order of the trace.  Its chapters are the navigate and
    click steps, in the order of the trace: a chapter is titled by the
    description of its step and starts where the first timestamp
    carrying the id of the step starts, at 0 when there is none.  So
    the chapter titles are a subsequence of the key points, and without
    timestamps every chapter starts at 0. *)
Theorem summary_chapters_among_key_points env input dir out
    (Hrun : assembleProject env input dir = Some out) :
  let layer := summary (p_layers (project out)) in
  let ts := timestamps input in
  (is_Some layer ↔ generateSummaryFlag input = Some true)
  ∧ ∀ sm, layer = Some sm →
      keyPoints sm
      = step_description <$> filter (λ s, step_action s ≠ wait) (steps input)
      ∧ chapters sm
        = (λ s, {| ch_title := step_description s;
                   ch_startTime :=
                     default 0 (ts_startTime <$> timestampOf ts s) |})
          <$> filter (λ s, step_action s = navigate ∨ step_action s = click)
                     (steps input)
      ∧ generatedBy sm = by_ai
      ∧ ch_title <$> chapters sm `sublist_of` keyPoints sm
      ∧ (length (chapters sm) ≤ length (keyPoints sm) ≤ length (steps input))%nat
      ∧ Forall (λ c, ch_startTime c = 0
                     ∨ ∃ t, t ∈ ts ∧ ch_startTime c = ts_startTime t)
               (chapters sm)
      ∧ (ts = [] → Forall (λ c, ch_startTime c = 0) (chapters sm)).
Proof.
  apply assembleProject_Some in Hrun as ->. simpl. split.
  - destruct (generateSummaryFlag input) as [[]|]; split;
      first [ done | by intros [? [=]] | by eexists ].
  - intros sm Hsm.
    assert (sm = generateSummary (steps input) (timestamps input)) as ->
      by (destruct (generateSummaryFlag input) as [[]|]; by simplify_eq).
    unfold generateSummary. simpl.
    assert (filter (λ s, step_action s ∈ [navigate; click]) (steps input)
            `sublist_of` filter (λ s, step_action s ≠ wait) (steps input))
      as Hsub.
    { apply filter_sublist_weaken. intros s Hin Heq. rewrite Heq in Hin.
      repeat (apply elem_of_cons in Hin as [[=]|Hin]).
      by apply elem_of_nil in Hin. }
    split; [done|]. split; [|split; [done|]]; [|split; [|split; [|split]]].
    + rewrite (list_filter_iff
                 (λ s, step_action s = navigate ∨ step_action s = click)
                 (λ s, step_action s ∈ [navigate; click])).
      * apply list_fmap_ext. intros k s _.
        by rewrite startTime_or_0_default.
      * intros s. rewrite !elem_of_cons, elem_of_nil. tauto.
    + rewrite <- list_fmap_compose. simpl. by apply fmap_sublist.
    + rewrite !length_fmap. split.
      * by apply sublist_length.
      * apply length_filter.
    + apply Forall_fmap, Forall_forall. intros s _. simpl.
      unfold startTime_or_0.
      destruct (timestampOf (timestamps input) s) as [t|] eqn:Ht; [|by left].
      case_decide; [by left|]. right. exists t.
      by apply timestampOf_Some in Ht as [? _].
    + intros ->. apply Forall_fmap, Forall_forall. by intros s _.
Qed.

Lemma summary_chapters_among_key_points_witness :
  let input :=
    {| title := "Sample"; description := "A sample tutorial";
       targetUrl := "https://example.org"; videoPath := "rec.webm";
       audioPath := None; steps := sampleTrace;
       timestamps := [mkTimestamp "s2" 700 1500];
       narrationSegments := None; inputQuestions := None;
       generateSummaryFlag := Some true; autoHighlights := None;
       defaultLanguage := None; availableLanguages := None |} in
  ∃ out sm,
    assembleProject (quietEnv "id-1" "t1") input "out" = Some out
    ∧ summary (p_layers (project out)) = Some sm
    ∧ keyPoints sm = ["Step s1"; "Step s2"; "Step s3"]
    ∧ chapters sm = [ {| ch_title := "Step s1"; ch_startTime := 0 |};
                      {| ch_title := "Step s2"; ch_startTime := 700 |} ]
    ∧ ch_title <$> chapters sm `sublist_of` keyPoints sm.
Proof.
  intros input. eexists _, _. split; [reflexivity|]. split; [reflexivity|].
  split; [reflexivity|]. split; [reflexivity|].
  destruct (summary_chapters_among_key_points (quietEnv "id-1" "t1") input
              "out" _ eq_refl) as [_ Hsm].
  exact (proj1 (proj2 (proj2 (proj2 (Hsm _ eq_refl))))).
Defined.

End Summary.

Section QuestionIds.
Import Assembler Props.

(** X2.  The questions of the project are the questions of the input
    (none when the input has no question list) in the same order, the
    i-th under the id "question-i"; the ids are pairwise distinct. *)
Theorem question_ids_are_distinct (qs : option (list QuestionBody)) :
  let out := questionsWithIds qs in
  q_body <$> out = default [] qs
  ∧ q_id <$> out
    = (λ i, "question-" +:+ pretty i) <$> seq 0 (length (default [] qs))
  ∧ NoDup (q_id <$> out).
Proof.
  unfold questionsWithIds. simpl.
  assert (q_id <$> imap (λ i q, {| q_id := "question-" +:+ pretty i;
                                   q_body := q |}) (default [] qs)
          = (λ i : nat, "question-" +:+ pretty i)
            <$> seq 0 (length (default [] qs))) as Hids.
  { rewrite fmap_imap, <- imap_seq_0. by apply imap_ext. }
  split; [|split; [done|]].
  - rewrite fmap_imap. transitivity (id <$> default [] qs).
    + rewrite <- imap_const. by apply imap_ext.
    + apply list_fmap_id.
  - rewrite Hids. apply NoDup_fmap_2; [|apply NoDup_seq].
    intros i j Heq. apply (inj (String.app "question-")) in Heq.
    by apply (inj pretty) in Heq.
Qed.

End QuestionIds.

Section RunOutcome.
Import Assembler Props.

Lemma is_Some_call {A} (ok : bool) (k : unit → option A) :
  is_Some (call ok ≫= k) ↔ ok = true ∧ is_Some (k ()).
Proof.
  destruct ok; simpl; [by intuition|].
  split; [by intros [? [=]] | by intros [[=] _]].
Qed.

Lemma is_Some_call_if {A} (c ok : bool) (k : unit → option A) :
  is_Some ((if c then call ok else Some ()) ≫= k)
  ↔ (c = true → ok = true) ∧ is_Some (k ()).
Proof.
  destruct c; [rewrite is_Some_call; by intuition|]. simpl.
  split; [by intuition | by intros [_ ?]].
Qed.

(** X3.  The run returns exactly when the project directory can be
    created, the video can be copied, the audio file can be copied if
    it is named and exists, the project document can be written, and
    the player page can be copied from the first of its two places
    where it exists.  An audio file or a player page that does not
    exist is no failure; the audio layer is then silent, and otherwise
    it plays "narration.mp3" at volume 1. *)
Theorem run_returns_iff env input dir :
  let projectDir := path_join env [dir; uuid env] in
  let dest := path_join env [projectDir; "index.html"] in
  let fixed :=
    Js.slashes (path_join env [moduleDir env; ".."; "player"; "player.html"]) in
  let alt := path_join env [cwd env; "src"; "player"; "player.html"] in
  (is_Some (assembleProject env input dir)
   ↔ mkdirSync env projectDir = true
     ∧ copyFileSync env (videoPath input)
         (path_join env [projectDir; "video.webm"]) = true
     ∧ (∀ a, audioPath input = Some a → a ≠ EmptyString →
             existsSync env a = true →
             copyFileSync env a
               (path_join env [projectDir; "narration.mp3"]) = true)
     ∧ writeFileSync env (path_join env [projectDir; "project.json"]) = true
     ∧ (existsSync env fixed = true → copyFileSync env fixed dest = true)
     ∧ (existsSync env fixed = false → existsSync env alt = true →
        copyFileSync env alt dest = true))
  ∧ ∀ out, assembleProject env input dir = Some out →
      audio (p_layers (project out))
      = match audioPath input with
        | Some a =>
            if bool_decide (a ≠ EmptyString) && existsSync env a
            then {| a_src := "narration.mp3"; a_volume := 1 |}
            else {| a_src := EmptyString; a_volume := 0 |}
        | None => {| a_src := EmptyString; a_volume := 0 |}
        end.
Proof.
  intros projectDir dest fixed alt. split.
  - unfold assembleProject. fold projectDir. fold dest. fold alt. fold fixed.
    rewrite !is_Some_call.
    assert (∀ k : option string → option AssemblerOutput,
              (∀ f, is_Some (k f) ↔ is_Some (k None)) →
              is_Some (match audioPath input with
                       | Some a =>
                           if Js.truthy (Some a) && existsSync env a then
                             call (copyFileSync env a
                                     (path_join env
                                        [projectDir; "narration.mp3"]))
                             ≫= λ _, Some (Some "narration.mp3")
                           else Some None
                       | None => Some None
                       end ≫= k)
              ↔ (∀ a, audioPath input = Some a → a ≠ EmptyString →
                      existsSync env a = true →
                      copyFileSync env a
                        (path_join env [projectDir; "narration.mp3"]) = true)
                ∧ is_Some (k None)) as Haudio.
    { intros k Hk. destruct (audioPath input) as [a|]; simpl;
        [|split; [by intuition | by intros [_ ?]]].
      destruct (bool_decide (a ≠ EmptyString)) eqn:Ha; simpl.
      - apply bool_decide_eq_true in Ha.
        destruct (existsSync env a) eqn:Hex; simpl.
        + destruct (copyFileSync env a _) eqn:Hcp; simpl.
          * rewrite Hk. split; [|by intros [_ ?]].
            intros Hsome. split; [|done]. by intros ? [= <-] _ _.
          * split; [by intros [? [=]]|].
            intros [Hc _]. specialize (Hc a eq_refl Ha Hex). congruence.
        + split; [|by intros [_ ?]].
          intros Hsome. split; [|done]. intros ? [= <-] _. by rewrite Hex.
      - apply bool_decide_eq_false in Ha.
        split; [|by intros [_ ?]].
        intros Hsome. split; [|done]. by intros ? [= <-] ?. }
    rewrite Haudio.
    + rewrite is_Some_call.
      destruct (existsSync env fixed) eqn:Hfixed.
      * rewrite is_Some_call.
        split; intros (? & ? & ? & ? & ? & ?); split_and!; auto;
          first [ done | by eexists | intros; congruence ].
      * rewrite is_Some_call_if.
        split; intros (? & ? & ? & ? & ? & ?); split_and!; auto;
          first [ done | by eexists | intros; congruence ].
    + intros f. rewrite !is_Some_call.
      destruct (existsSync env fixed).
      * rewrite !is_Some_call. split; intros (? & ? & _); repeat split;
          auto; by eexists.
      * rewrite !is_Some_call_if. split; intros (? & ? & _); repeat split;
          auto; by eexists.
  - intros out Hrun. apply assembleProject_Some in Hrun as ->. simpl.
    unfold audioFileNameOf. destruct (audioPath input) as [a|]; [|done].
    simpl. by destruct (bool_decide (a ≠ EmptyString) && existsSync env a).
Qed.

Lemma run_returns_iff_witness :
  let input :=
    {| title := "Sample"; description := "A sample tutorial";
       targetUrl := "https://example.org"; videoPath := "rec.webm";
       audioPath := Some "missing.mp3"; steps := sampleTrace;
       timestamps := []; narrationSegments := None; inputQuestions := None;
       generateSummaryFlag := None; autoHighlights := None;
       defaultLanguage := None; availableLanguages := None |} in
  ∃ out,
    assembleProject (quietEnv "id-1" "t1") input "out" = Some out
    ∧ audio (p_layers (project out))
      = {| a_src := EmptyString; a_volume := 0 |}.
Proof.
  intros input. eexists. split; [reflexivity|].
  exact (proj2 (run_returns_iff (quietEnv "id-1" "t1") input "out")
           _ eq_refl).
Defined.

(** X4.  A trace without steps compiles to a project without
    subtitles and without interactive steps, with an empty summary if
    one is asked for, and with no highlights but the detected ones; its
    duration is 0 when there are no timestamps either. *)
Theorem empty_trace_gives_empty_layers env input dir out
    (Hsteps : steps input = [])
    (Hrun : assembleProject env input dir = Some out) :
  subtitles (p_layers (project out)) = []
  ∧ p_interactiveSteps (project out) = []
  ∧ highlights (p_layers (project out)) = default [] (autoHighlights input)
  ∧ (∀ sm, summary (p_layers (project out)) = Some sm →
           keyPoints sm = [] ∧ chapters sm = [])
  ∧ (timestamps input = [] → p_duration (project out) = 0).
Proof.
  apply assembleProject_Some in Hrun as ->. simpl.
  unfold highlightsLayer. rewrite Hsteps. split_and!; try done.
  - destruct (autoHighlights input) as [[|h hs]|]; done.
  - intros sm. destruct (generateSummaryFlag input) as [[]|]; [|done..].
    by intros [= <-].
  - by intros ->.
Qed.

Lemma empty_trace_gives_empty_layers_witness :
  ∃ out,
    assembleProject (quietEnv "id-1" "t1") (mkInput [] []) "out" = Some out
    ∧ subtitles (p_layers (project out)) = []
    ∧ highlights (p_layers (project out)) = []
    ∧ p_duration (project out) = 0.
Proof.
  eexists. split; [reflexivity|].
  destruct (empty_trace_gives_empty_layers (quietEnv "id-1" "t1")
              (mkInput [] []) "out" _ eq_refl eq_refl)
    as (Hs & _ & Hh & _ & Hd).
  split; [exact Hs|]. split; [exact Hh|]. by apply Hd.
Defined.

End RunOutcome.

Section LayerIds.
Import Assembler Props MoreProps.

Lemma subtitle_ids (steps : list AutomationStep) timestamps :
  sub_id <$> generateSubtitles steps timestamps
  = (λ s, "subtitle-" +:+ step_id s) <$> filter (isSubtitled timestamps) steps.
Proof.
  rewrite generateSubtitles_bind.
  induction steps as [|s steps IH]; [done|].
  rewrite bind_cons, fmap_app, IH, filter_cons. unfold subtitlesOf.
  destruct (decide (isSubtitled timestamps s)) as [[Hn [t Ht]]|Hno].
  - rewrite Ht, decide_False by done. done.
  - destruct (timestampOf timestamps s) as [t|] eqn:Ht; [|done].
    case_decide as Hn; [done|]. destruct Hno. split; [done | by eexists].
Qed.

Lemma highlight_ids (steps : list AutomationStep) timestamps :
  hl_id <$> generateHighlights steps timestamps
  = (λ s, "highlight-" +:+ step_id s)
    <$> filter (isHighlighted timestamps) steps.
Proof.
  rewrite generateHighlights_bind.
  induction steps as [|s steps IH]; [done|].
  rewrite bind_cons, fmap_app, IH, filter_cons. unfold highlightsOf.
  destruct (decide (isHighlighted timestamps s)) as [[[h Hh] [t Ht]]|Hno].
  - by rewrite Hh, Ht.
  - destruct (step_highlight s) as [h|] eqn:Hh; [|done].
    destruct (timestampOf timestamps s) as [t|] eqn:Ht; [|done].
    destruct Hno. unfold isHighlighted. rewrite Hh, Ht. eauto.
Qed.

Lemma prefixed_ids_NoDup (prefix : string) (P : AutomationStep → Prop)
    `{∀ s, Decision (P s)} (steps : list AutomationStep) :
  NoDup (step_id <$> steps) →
  NoDup ((λ s, prefix +:+ step_id s) <$> filter P steps).
Proof.
  intros Hnodup.
  rewrite (list_fmap_compose step_id (String.app prefix)).
  apply (NoDup_fmap_2 _).
  apply (sublist_NoDup _ (step_id <$> steps)); [exact Hnodup|].
  apply fmap_sublist, sublist_filter.
Qed.

(** X5.  When the ids of the steps are pairwise distinct, so are the
    ids of the subtitles, of the highlights derived from the hints and
    of the interactive steps of the compiled project. *)
Theorem layer_ids_are_distinct env input dir out
    (Hids : NoDup (step_id <$> steps input))
    (Hrun : assembleProject env input dir = Some out) :
  NoDup (sub_id <$> subtitles (p_layers (project out)))
  ∧ NoDup (is_id <$> p_interactiveSteps (project out))
  ∧ NoDup (hl_id <$> generateHighlights (steps input) (timestamps input))
  ∧ (autoHighlights input = None ∨ autoHighlights input = Some [] →
     NoDup (hl_id <$> highlights (p_layers (project out)))).
Proof.
  apply assembleProject_Some in Hrun as ->. simpl.
  assert (NoDup (hl_id <$> generateHighlights (steps input) (timestamps input)))
    as Hhl by (rewrite highlight_ids; by apply prefixed_ids_NoDup).
  split_and!.
  - rewrite subtitle_ids. by apply prefixed_ids_NoDup.
  - rewrite interactive_ids. by apply prefixed_ids_NoDup.
  - done.
  - unfold highlightsLayer. by intros [-> | ->].
Qed.

Lemma layer_ids_are_distinct_witness :
  let input :=
    mkInput sampleTrace [mkTimestamp "s2" 0 1500; mkTimestamp "s3" 1500 2500] in
  NoDup (step_id <$> steps input)
  ∧ ∃ out,
      assembleProject (quietEnv "id-1" "t1") input "out" = Some out
      ∧ hl_id <$> highlights (p_layers (project out))
        = ["highlight-s2"; "highlight-s3"]
      ∧ NoDup (hl_id <$> highlights (p_layers (project out))).
Proof.
  intros input.
  assert (NoDup (step_id <$> steps input)) as Hids.
  { simpl. repeat (apply NoDup_cons; split;
      [intros Hin; repeat (apply elem_of_cons in Hin as [[=]|Hin]);
       by apply elem_of_nil in Hin|]).
    apply NoDup_nil_2. }
  split; [exact Hids|]. eexists. split; [reflexivity|].
  split; [reflexivity|].
  destruct (layer_ids_are_distinct (quietEnv "id-1" "t1") input "out" _
              Hids eq_refl) as (_ & _ & _ & Hhl).
  apply Hhl. by left.
Defined.

End LayerIds.

Section Targets.
Import Assembler Props MoreProps.

Lemma filter_length_le {A} (P Q : A → Prop)
    `{∀ x, Decision (P x)} `{∀ x, Decision (Q x)} (l : list A) :
  (∀ x, x ∈ l → P x → Q x) →
  (length (filter P l) ≤ length (filter Q l))%nat.
Proof.
  induction l as [|x l IH]; intros HPQ; [done|].
  rewrite !filter_cons.
  assert (length (filter P l) ≤ length (filter Q l))%nat as Hle
    by (apply IH; intros; apply HPQ; [by right | done]).
  destruct (decide (P x)) as [HP|HP].
  - rewrite decide_True by (apply HPQ; [by left | done]). simpl. lia.
  - case_decide; simpl; lia.
Qed.

(** X6.  When a timestamp is found for every step of the trace, every
    interactive step has a highlight derived from the same step: the
    highlight carries the id of that step and lies at the point the
    interactive step targets; so there are at least as many derived
    highlights as interactive steps. *)
Theorem interactive_steps_have_highlights
    (steps : list AutomationStep) timestamps
    (Hall : allRecorded timestamps steps) :
  (∀ i, i ∈ generateInteractiveSteps steps timestamps →
        ∃ s e, s ∈ steps
               ∧ e ∈ generateHighlights steps timestamps
               ∧ is_id i = "interactive-" +:+ step_id s
               ∧ hl_id e = "highlight-" +:+ step_id s
               ∧ hl_x e = ct_x (is_target i)
               ∧ hl_y e = ct_y (is_target i))
  ∧ (length (generateInteractiveSteps steps timestamps)
     ≤ length (generateHighlights steps timestamps))%nat.
Proof.
  split.
  - intros i Hi. rewrite generateInteractiveSteps_imap in Hi.
    apply elem_of_lookup_imap_1 in Hi as (k & [s' h] & -> & Hk).
    apply list_elem_of_lookup_2, list_elem_of_omap in Hk as (s & Hs & Hw).
    apply withHint_Some in Hw as (_ & Heq & Hh). simpl in Heq, Hh. subst s'.
    destruct (Hall s Hs) as [t Ht].
    exists s, (highlightOf s h t). split; [done|]. split; [|done].
    rewrite generateHighlights_bind. apply list_elem_of_bind.
    exists s. split; [|done]. unfold highlightsOf. rewrite Hh, Ht. by left.
  - rewrite generateHighlights_length.
    rewrite <- (length_fmap is_id), interactive_ids, length_fmap.
    apply filter_length_le. intros s Hs [_ Hh]. split; [done | by apply Hall].
Qed.

Lemma interactive_steps_have_highlights_witness :
  let timestamps :=
    [mkTimestamp "s1" 0 500; mkTimestamp "s2" 500 1500;
     mkTimestamp "s3" 1500 2500; mkTimestamp "s4" 2500 3000] in
  allRecorded timestamps sampleTrace
  ∧ (length (generateInteractiveSteps sampleTrace timestamps)
     ≤ length (generateHighlights sampleTrace timestamps))%nat.
Proof.
  intros timestamps.
  assert (allRecorded timestamps sampleTrace) as Hall.
  { intros s Hs. unfold sampleTrace in Hs.
    repeat (apply elem_of_cons in Hs as [->|Hs]; [by eexists|]).
    by apply elem_of_nil in Hs. }
  split; [exact Hall|].
  exact (proj2 (interactive_steps_have_highlights _ _ Hall)).
Defined.

End Targets.

(** ** Further properties of the studio server *)

Section DeleteStepMore.
Import Server ServerProps MoreProps.

Lemma numbered_content (cs : list StepContent) :
  content <$> numbered cs = cs.
Proof.
  unfold numbered. rewrite fmap_imap. transitivity (id <$> cs).
  - rewrite <- imap_const. by apply imap_ext.
  - apply list_fmap_id.
Qed.

Lemma reorder_numbered (l : list TutorialStep) :
  imap setOrder l = numbered (content <$> l).
Proof. unfold numbered. rewrite imap_fmap. by apply imap_ext. Qed.

Lemma withoutFirst_app pre c post id :
  (∀ c', c' ∈ pre → stp_id c' ≠ id) → stp_id c = id →
  withoutFirst id (pre ++ c :: post) = pre ++ post.
Proof.
  intros Hpre Hc. induction pre as [|c' pre IH]; simpl.
  - by rewrite decide_True.
  - rewrite decide_False by (apply Hpre; by left).
    f_equal. apply IH. intros ? ?. apply Hpre. by right.
Qed.

Lemma withoutFirst_absent id cs :
  (∀ c, c ∈ cs → stp_id c ≠ id) → withoutFirst id cs = cs.
Proof.
  induction cs as [|c cs IH]; intros Hno; [done|]. simpl.
  rewrite decide_False by (apply Hno; by left).
  f_equal. apply IH. intros ? ?. apply Hno. by right.
Qed.

(** What [deleteStep] answers, in terms of the contents of the steps. *)
Lemma deleteStep_numbered stepId (steps : list TutorialStep) :
  deleteStep stepId steps
  = if decide (stepId ∈ (stp_id ∘ content) <$> steps)
    then Some (numbered (withoutFirst stepId (content <$> steps)))
    else None.
Proof.
  destruct (deleteStep stepId steps) as [steps'|] eqn:Hdel.
  - destruct (deleteStep_Some _ _ _ Hdel)
      as (pre & s & post & -> & Hid & Hpre & ->).
    rewrite decide_True.
    + rewrite reorder_numbered. do 2 f_equal.
      rewrite !fmap_app, fmap_cons, withoutFirst_app; [done| |done].
      intros c' (s' & -> & Hs')%list_elem_of_fmap. by apply Hpre.
    + apply list_elem_of_fmap. exists s. split; [done|].
      apply elem_of_app. right. by left.
  - rewrite decide_False; [done|].
    intros (s & Hid & Hin)%list_elem_of_fmap.
    unfold deleteStep, Js.findIndex in Hdel.
    destruct (list_find_elem_of (λ s, stp_id (content s) = stepId)
                steps s Hin (eq_sym Hid)) as [[i s'] Hfind].
    by rewrite Hfind in Hdel.
Qed.

Lemma withoutFirst_comm a b cs :
  a ≠ b →
  withoutFirst a (withoutFirst b cs) = withoutFirst b (withoutFirst a cs).
Proof.
  intros Hab. induction cs as [|c cs IH]; [done|]. simpl.
  destruct (decide (stp_id c = b)) as [Hb|Hb],
           (decide (stp_id c = a)) as [Ha|Ha]; simpl.
  - congruence.
  - by rewrite decide_True.
  - by rewrite decide_True.
  - by rewrite !decide_False, IH.
Qed.

Lemma withoutFirst_elem_of a b cs :
  a ≠ b →
  a ∈ stp_id <$> withoutFirst b cs ↔ a ∈ stp_id <$> cs.
Proof.
  intros Hab. induction cs as [|c cs IH]; [done|]. cbn [withoutFirst].
  destruct (decide (stp_id c = b)) as [Hb|Hb].
  - rewrite fmap_cons, elem_of_cons. split; [by right|].
    intros [->|?]; [congruence | done].
  - rewrite !fmap_cons, !elem_of_cons, IH. done.
Qed.

(** X7.  Deleting two steps of different ids gives the same steps in
    either order, and the same answer "Step not found" when one of the
    ids is absent. *)
Theorem delete_steps_commute a b (steps : list TutorialStep) :
  a ≠ b →
  deleteStep a steps ≫= deleteStep b = deleteStep b steps ≫= deleteStep a.
Proof.
  intros Hab. rewrite !(deleteStep_numbered _ steps).
  assert (∀ x y, x ≠ y →
            (y ∈ (stp_id ∘ content)
                 <$> numbered (withoutFirst x (content <$> steps)))
            ↔ y ∈ (stp_id ∘ content) <$> steps) as Hmem.
  { intros x y Hxy.
    rewrite (list_fmap_compose content stp_id), numbered_content.
    rewrite withoutFirst_elem_of by done.
    by rewrite <- list_fmap_compose. }
  destruct (decide (a ∈ (stp_id ∘ content) <$> steps)) as [Ha|Ha],
           (decide (b ∈ (stp_id ∘ content) <$> steps)) as [Hb|Hb]; simpl;
    rewrite ?deleteStep_numbered, ?numbered_content.
  - rewrite !decide_True by (by apply Hmem).
    by rewrite withoutFirst_comm.
  - rewrite decide_False; [done|]. by rewrite Hmem.
  - rewrite decide_False; [done|]. by rewrite Hmem.
  - done.
Qed.

Lemma delete_steps_commute_witness :
  let steps :=
    [mkTutorialStep "a" 0; mkTutorialStep "b" 1;
     mkTutorialStep "c" 2; mkTutorialStep "d" 3] in
  deleteStep "b" steps ≫= deleteStep "d"
  = Some [mkTutorialStep "a" 0; mkTutorialStep "c" 1]
  ∧ deleteStep "d" steps ≫= deleteStep "b"
    = Some [mkTutorialStep "a" 0; mkTutorialStep "c" 1].
Proof.
  intros steps. split; [reflexivity|].
  rewrite <- (delete_steps_commute "b" "d" steps); [reflexivity|].
  by intros [=].
Defined.

(** X8.  Deleting a step removes one step only: the ids that remain
    are the ids before without the first occurrence of the deleted id.
    So when the ids of the steps are distinct, no remaining step has
    the deleted id, the remaining ids are still distinct, and deleting
    the same id again answers "Step not found". *)
Theorem delete_step_removes_one stepId (steps steps' : list TutorialStep)
    (Hdel : deleteStep stepId steps = Some steps') :
  content <$> steps' = withoutFirst stepId (content <$> steps)
  ∧ (NoDup ((stp_id ∘ content) <$> steps) →
     (stepId ∉ ((stp_id ∘ content) <$> steps'))
     ∧ NoDup ((stp_id ∘ content) <$> steps')
     ∧ deleteStep stepId steps' = None).
Proof.
  destruct (deleteStep_Some _ _ _ Hdel)
    as (pre & s & post & -> & Hid & Hpre & ->).
  assert (content <$> imap setOrder (pre ++ post)
          = withoutFirst stepId (content <$> pre ++ s :: post)) as Hc.
  { rewrite reorder_content, !fmap_app, fmap_cons.
    rewrite withoutFirst_app; [done| |done].
    intros c' (s' & -> & Hs')%list_elem_of_fmap. by apply Hpre. }
  split; [exact Hc|]. intros Hnodup.
  rewrite fmap_app, fmap_cons in Hnodup.
  apply NoDup_app in Hnodup as (Hnpre & Hdisj & [Hnotin Hnpost]%NoDup_cons).
  assert ((stp_id ∘ content) <$> imap setOrder (pre ++ post)
          = ((stp_id ∘ content) <$> pre) ++ ((stp_id ∘ content) <$> post))
    as Hids.
  { rewrite (list_fmap_compose content stp_id), reorder_content.
    by rewrite <- list_fmap_compose, fmap_app. }
  assert (stepId ∉ ((stp_id ∘ content) <$> imap setOrder (pre ++ post)))
    as Hgone.
  { rewrite Hids, elem_of_app. intros [Hin|Hin].
    - apply (Hdisj stepId Hin). apply elem_of_cons. left. by symmetry.
    - apply Hnotin. unfold compose. by rewrite Hid. }
  split; [exact Hgone|]. split.
  - rewrite Hids. apply NoDup_app. split; [done|]. split; [|done].
    intros x Hx Hx'. apply (Hdisj x Hx). by right.
  - rewrite deleteStep_numbered. by rewrite decide_False.
Qed.

Lemma delete_step_removes_one_witness :
  let steps :=
    [mkTutorialStep "a" 0; mkTutorialStep "b" 1; mkTutorialStep "c" 2] in
  ∃ steps',
    deleteStep "b" steps = Some steps'
    ∧ NoDup ((stp_id ∘ content) <$> steps)
    ∧ deleteStep "b" steps' = None.
Proof.
  intros steps. eexists. split; [reflexivity|].
  assert (NoDup ((stp_id ∘ content) <$> steps)) as Hids.
  { simpl. repeat (apply NoDup_cons; split;
      [intros Hin; repeat (apply elem_of_cons in Hin as [[=]|Hin]);
       by apply elem_of_nil in Hin|]).
    apply NoDup_nil_2. }
  split; [exact Hids|].
  destruct (delete_step_removes_one "b" steps _ eq_refl) as [_ Hrest].
  by destruct (Hrest Hids) as (_ & _ & ?).
Defined.



End DeleteStepMore.

Section DeleteTutorial.
Import Server ServerProps TutorialApi.

(** X10.  Deleting a tutorial answers "Tutorial not found" exactly when
    no tutorial of the project has the requested id.  Otherwise it
    removes the first tutorial with that id and nothing else: the
    tutorials before and after it are written back unchanged and in
    order, and the project is stamped with the time of the request. *)
Theorem delete_tutorial_removes_one project now tutorialId :
  (deleteTutorialHandler (Some project) now tutorialId
   = NotFound "Tutorial not found"
   ↔ ∀ t, t ∈ sp_tutorials project → tut_id t ≠ tutorialId)
  ∧ ∀ written,
      deleteTutorialHandler (Some project) now tutorialId = Success written →
      ∃ pre t post,
        sp_tutorials project = pre ++ t :: post
        ∧ tut_id t = tutorialId
        ∧ (∀ t', t' ∈ pre → tut_id t' ≠ tutorialId)
        ∧ sp_tutorials written = pre ++ post
        ∧ sp_updatedAt written = now
        ∧ sp_id written = sp_id project
        ∧ sp_settings written = sp_settings project.
Proof.
  unfold deleteTutorialHandler, Js.findIndex. split.
  - destruct (list_find _ (sp_tutorials project)) as [[k t]|] eqn:Hfind;
      simpl.
    + split; [done|]. intros Hno.
      apply list_find_Some in Hfind as (Hk & Hid & _).
      destruct (Hno t); [by eapply list_elem_of_lookup_2 | done].
    + split; [|done]. intros _ t Hin.
      apply list_find_None in Hfind. rewrite Forall_forall in Hfind.
      by apply Hfind.
  - intros written.
    destruct (list_find _ (sp_tutorials project)) as [[k t]|] eqn:Hfind;
      simpl; [|done].
    intros [= <-]. apply list_find_Some in Hfind as (Hk & Hid & Hfirst).
    exists (take k (sp_tutorials project)), t,
      (drop (S k) (sp_tutorials project)). simpl.
    split_and!; try done.
    + by rewrite take_drop_middle.
    + intros t' [j Hj]%list_elem_of_lookup_1.
      apply lookup_take_Some in Hj as [Hj Hlt]. by eapply Hfirst.
    + apply delete_take_drop.
Qed.

Lemma delete_tutorial_removes_one_witness :
  let t1 := mkTutorial "t1" [mkTutorialStep "a" 0] in
  let t2 := mkTutorial "t2" [] in
  let t3 := mkTutorial "t3" [mkTutorialStep "b" 0] in
  ∃ written,
    deleteTutorialHandler (Some (mkStudioProject [t1; t2; t3])) "now" "t2"
    = Success written
    ∧ sp_tutorials written = [t1; t3]
    ∧ sp_updatedAt written = "now".
Proof.
  intros t1 t2 t3. eexists. split; [reflexivity|]. split; [reflexivity|].
  destruct (proj2 (delete_tutorial_removes_one
                     (mkStudioProject [t1; t2; t3]) "now" "t2") _ eq_refl)
    as (pre & t & post & _ & _ & _ & _ & Hup & _).
  exact Hup.
Defined.

End DeleteTutorial.

(** ** Properties of the narration module *)

Section NarrationProps.
Import Assembler Props Narration.

Example split_ws_sample :
  split_ws "Click the  button" = ["Click"; "the"; "button"]
  ∧ split_ws EmptyString = [EmptyString]
  ∧ split_ws " a " = [EmptyString; "a"; EmptyString].
Proof. by repeat split. Qed.

(** A no-break space (U+00A0) separates words as a space does. *)
Example split_ws_unicode_sample :
  let nbsp :=
    String (ascii_of_nat 194) (String (ascii_of_nat 160) EmptyString) in
  split_ws ("לחץ" +:+ nbsp +:+ " על הכפתור") = ["לחץ"; "על"; "הכפתור"]
  ∧ estimateDuration ("לחץ" +:+ nbsp +:+ " על הכפתור") = 1200.
Proof. by repeat split. Qed.

Lemma split_ws_from_length in_ws cur text :
  (1 ≤ length (split_ws_from in_ws cur text) ≤ 1 + String.length text)%nat.
Proof.
  remember (String.length text) as n eqn:Hn.
  assert (Hle : (String.length text ≤ n)%nat) by lia.
  rewrite Hn. clear Hn. revert text in_ws cur Hle.
  induction n as [|n IH]; intros text in_ws cur Hle.
  - destruct text; simpl in *; lia.
  - destruct text as [|a r1]; simpl in Hle |- *; [lia|].
    assert (Hspace : ∀ r,
      (String.length r ≤ n)%nat →
      (1 ≤ length (if in_ws then split_ws_from true EmptyString r
                   else String.rev cur :: split_ws_from true EmptyString r)
         ≤ 2 + String.length r)%nat).
    { intros r Hr. pose proof (IH r true EmptyString Hr).
      destruct in_ws; simpl; lia. }
    pose proof (IH r1 false (String a cur) ltac:(lia)) as Hno.
    destruct (Js.is_space a); [specialize (Hspace r1); lia|].
    destruct r1 as [|b r2]; [simpl in *; lia|].
    destruct (Js.is_space2 a b);
      [specialize (Hspace r2); simpl in *; lia|].
    destruct r2 as [|c r3]; [simpl in *; lia|].
    destruct (Js.is_space3 a b c);
      [specialize (Hspace r3); simpl in *; lia | simpl in *; lia].
Qed.

Lemma estimateDuration_words text :
  estimateDuration text = 400 * Z.of_nat (length (split_ws text))
  ∧ (1 ≤ length (split_ws text) ≤ 1 + String.length text)%nat.
Proof.
  split; [|apply split_ws_from_length].
  unfold estimateDuration. change MS_PER_WORD with 400. lia.
Qed.


Lemma estimateDuration_pos text : estimateDuration text ≠ 0.
Proof. destruct (estimateDuration_words text) as [-> Hlen]. lia. Qed.

(** X12.  [segmentsToSubtitles] gives one subtitle per segment, in
    order, with the id and the text of the segment.  The subtitle
    starts at the start time of the same index, or at 0 when there is
    none, and lasts for the duration of the segment, or for the
    estimate when the duration is missing or 0; so no subtitle is empty
    or reversed unless a segment carries a negative duration. *)
Theorem segmentsToSubtitles_windows (segments : list NarrationSegment)
    (startTimes : list Z) :
  let out := segmentsToSubtitles segments startTimes in
  length out = length segments
  ∧ sub_id <$> out = ns_stepId <$> segments
  ∧ sub_text <$> out = ns_text <$> segments
  ∧ (∀ i seg, segments !! i = Some seg →
       ∃ sub, out !! i = Some sub
              ∧ sub_start sub = default 0 (startTimes !! i)
              ∧ sub_end sub - sub_start sub
                = match ns_duration seg with
                  | Some d =>
                      if decide (d = 0) then estimateDuration (ns_text seg)
                      else d
                  | None => estimateDuration (ns_text seg)
                  end)
  ∧ (Forall (λ seg, 0 ≤ default 0 (ns_duration seg)) segments →
     Forall (λ sub, sub_start sub < sub_end sub) out).
Proof.
  unfold segmentsToSubtitles. cbv zeta.
  split; [apply length_imap|].
  split; [rewrite fmap_imap, <- imap_const; by apply imap_ext|].
  split; [rewrite fmap_imap, <- imap_const; by apply imap_ext|].
  split.
  - intros i seg Hseg. eexists. rewrite list_lookup_imap, Hseg. simpl.
    split; [reflexivity|]. simpl. split; [reflexivity|]. lia.
  - intros Hnonneg. apply Forall_forall.
    intros sub (i & seg & -> & Hseg)%elem_of_lookup_imap_1. simpl.
    rewrite Forall_forall in Hnonneg.
    specialize (Hnonneg seg (list_elem_of_lookup_2 _ _ _ Hseg)).
    destruct (estimateDuration_words (ns_text seg)) as [Hwords Hmin].
    destruct (ns_duration seg) as [d|]; simpl in *; [|lia].
    case_decide; lia.
Qed.

Lemma segmentsToSubtitles_windows_witness :
  let segments :=
    [ {| ns_stepId := "s1"; ns_text := "Open the page";
         ns_audioFile := None; ns_duration := Some 0 |};
      {| ns_stepId := "s2"; ns_text := "Click";
         ns_audioFile := None; ns_duration := Some 900 |} ] in
  Forall (λ seg, 0 ≤ default 0 (ns_duration seg)) segments
  ∧ segmentsToSubtitles segments [1000]
    = [ {| sub_id := "s1"; sub_start := 1000; sub_end := 2200;
           sub_text := "Open the page" |};
        {| sub_id := "s2"; sub_start := 0; sub_end := 900;
           sub_text := "Click" |} ]
  ∧ Forall (λ sub, sub_start sub < sub_end sub)
           (segmentsToSubtitles segments [1000]).
Proof.
  intros segments.
  assert (Forall (λ seg, 0 ≤ default 0 (ns_duration seg)) segments) as Hnn
    by (repeat constructor; simpl; lia).
  split; [exact Hnn|]. split; [reflexivity|].
  destruct (segmentsToSubtitles_windows segments [1000])
    as (_ & _ & _ & _ & Hpos).
  exact (Hpos Hnn).
Defined.

Lemma mapM_total {A B} (f : A → B) (l : list A) :
  mapM (λ x, Some (f x)) l = Some (f <$> l).
Proof. induction l as [|x l IH]; [done|]. simpl. by rewrite IH. Qed.

(** The segment with its duration estimated. *)
Lemma narrate_offline env speak config dir segment :
  provider config ≠ Some openai →
  narrate env speak config dir segment
  = Some {| ns_stepId := ns_stepId segment; ns_text := ns_text segment;
            ns_audioFile := ns_audioFile segment;
            ns_duration := Some (estimateDuration (ns_text segment)) |}.
Proof.
  intros Hp. unfold narrate.
  destruct (provider config) as [[]|]; done.
Qed.

Lemma mapM_narrate_offline env speak config dir
    (segments : list NarrationSegment) :
  provider config ≠ Some openai →
  mapM (narrate env speak config dir) segments
  = Some ((λ seg, {| ns_stepId := ns_stepId seg; ns_text := ns_text seg;
                     ns_audioFile := ns_audioFile seg;
                     ns_duration := Some (estimateDuration (ns_text seg)) |})
          <$> segments).
Proof.
  intros Hoffline. rewrite <- mapM_total. apply mapM_ext.
  intros seg. by apply narrate_offline.
Qed.

(** X13.  With the mock or the ElevenLabs provider, narration returns
    exactly when the output directory exists or can be created, and it
    returns the segments unchanged but for the duration, which is the
    estimate for the text of the segment, whatever duration came in. *)
Theorem offline_narration_estimates env speak segments config
    (Hoffline : provider config ≠ Some openai) :
  let dir := default "./output/audio" (nc_outputDir config) in
  (is_Some (generateNarration env speak segments config)
   ↔ existsSync env dir = true ∨ mkdirSync env dir = true)
  ∧ ∀ out, generateNarration env speak segments config = Some out →
      out = (λ seg, {| ns_stepId := ns_stepId seg; ns_text := ns_text seg;
                       ns_audioFile := ns_audioFile seg;
                       ns_duration :=
                         Some (estimateDuration (ns_text seg)) |})
            <$> segments.
Proof.
  intros dir. unfold generateNarration. fold dir.
  rewrite mapM_narrate_offline by done.
  destruct (existsSync env dir); simpl.
  - split; [|by intros ? [= <-]]. split; [by left | by eexists].
  - unfold call. destruct (mkdirSync env dir); simpl.
    + split; [|by intros ? [= <-]]. split; [by right | by eexists].
    + split; [|done]. split; [by intros [? [=]] | by intros [[=]|[=]]].
Qed.

Lemma offline_narration_estimates_witness :
  let config :=
    {| provider := None; apiKey := None; voiceId := None;
       nc_outputDir := None |} in
  let segments :=
    [ {| ns_stepId := "s1"; ns_text := "Open the page";
         ns_audioFile := None; ns_duration := Some 5 |} ] in
  provider config ≠ Some openai
  ∧ generateNarration (quietEnv "id-1" "t1") (λ _ _, false) segments config
    = Some [ {| ns_stepId := "s1"; ns_text := "Open the page";
                ns_audioFile := None; ns_duration := Some 1200 |} ].
Proof.
  intros config segments.
  assert (provider config ≠ Some openai) as Hoff by done.
  split; [exact Hoff|].
  destruct (offline_narration_estimates (quietEnv "id-1" "t1")
              (λ _ _, false) segments config Hoff) as [Hret Hout].
  destruct (proj2 Hret (or_intror eq_refl)) as [out Hrun].
  rewrite Hrun. f_equal. exact (Hout _ Hrun).
Defined.

(** X14.  With the OpenAI provider and no API key, narration fails as
    soon as there is one segment to speak, and returns the empty list
    when there is none (the output directory being there). *)
Theorem openai_needs_key env speak segments config
    (Hopenai : provider config = Some openai)
    (Hkey : Js.truthy (apiKey config) = false)
    (Hdir : existsSync env (default "./output/audio" (nc_outputDir config))
            = true) :
  generateNarration env speak segments config
  = if decide (segments = []) then Some [] else None.
Proof.
  unfold generateNarration. rewrite Hdir. simpl.
  destruct segments as [|seg segments]; [done|].
  rewrite decide_False by done.
  assert (narrate env speak config
            (default "./output/audio" (nc_outputDir config)) seg = None)
    as Hthrow.
  { unfold narrate. rewrite Hopenai. simpl.
    unfold generateOpenAITTS. by rewrite Hkey. }
  simpl. by rewrite Hthrow.
Qed.

Lemma openai_needs_key_witness :
  let config :=
    {| provider := Some openai; apiKey := None; voiceId := None;
       nc_outputDir := Some "audio" |} in
  let env := quietEnv "id-1" "t1" in
  let env' :=
    {| uuid := uuid env; toISOString := toISOString env;
       path_join := path_join env; existsSync := λ _, true;
       mkdirSync := mkdirSync env; copyFileSync := copyFileSync env;
       writeFileSync := writeFileSync env; moduleDir := moduleDir env;
       cwd := cwd env |} in
  generateNarration env' (λ _ _, true)
    [ {| ns_stepId := "s1"; ns_text := "Open the page";
         ns_audioFile := None; ns_duration := None |} ] config
  = None.
Proof.
  intros config env env'.
  exact (openai_needs_key env' (λ _ _, true) _ config eq_refl eq_refl eq_refl).
Defined.

(** X15.  Narration segments made from a trace and narrated offline
    turn into one subtitle per step, in order: the subtitle carries the
    id and the narration of the step, starts at the start time of the
    same index (0 when there is none) and lasts for the estimated
    duration of the narration. *)
Theorem narration_pipeline env speak config out
    (steps : list AutomationStep) (startTimes : list Z)
    (Hoffline : provider config ≠ Some openai)
    (Hrun : generateNarration env speak (createNarrationSegments steps) config
            = Some out) :
  segmentsToSubtitles out startTimes
  = imap (λ i step,
            {| sub_id := step_id step;
               sub_start := default 0 (startTimes !! i);
               sub_end := default 0 (startTimes !! i)
                          + estimateDuration (step_narration step);
               sub_text := step_narration step |})
         steps.
Proof.
  unfold generateNarration in Hrun.
  rewrite mapM_narrate_offline in Hrun by done.
  apply bind_Some in Hrun as (_ & _ & [= <-]).
  unfold segmentsToSubtitles, createNarrationSegments.
  rewrite <- list_fmap_compose, imap_fmap. apply imap_ext.
  intros i step _. simpl.
  by rewrite decide_False by apply estimateDuration_pos.
Qed.

Lemma narration_pipeline_witness :
  let config :=
    {| provider := Some mock; apiKey := None; voiceId := None;
       nc_outputDir := None |} in
  ∃ out,
    generateNarration (quietEnv "id-1" "t1") (λ _ _, false)
      (createNarrationSegments sampleTrace) config = Some out
    ∧ sub_end <$> segmentsToSubtitles out [0; 1000] = [1200; 2200; 1200; 1200].
Proof.
  intros config. eexists. split; [reflexivity|].
  rewrite (narration_pipeline (quietEnv "id-1" "t1") (λ _ _, false) config _
             sampleTrace [0; 1000]); [reflexivity | done | reflexivity].
Defined.

End NarrationProps.

(** ** Properties of the browser module *)

Section BrowserProps.
Import Assembler Props MoreProps Browser.

Lemma recorded_cons platform k start step steps :
  recorded platform k start (step :: steps)
  = {| ts_stepId := step_id step;
       ts_startTime := now_before (platform k) - start;
       ts_endTime := now_after (platform k) - start |}
    :: recorded platform (S k) start steps.
Proof.
  unfold recorded. rewrite imap_cons, Nat.add_0_r. f_equal.
  apply imap_ext. intros i s _. simpl.
  by replace (k + S i)%nat with (S k + i)%nat by lia.
Qed.

Lemma executed_le platform k (steps : list AutomationStep) :
  (executed platform k steps ≤ length steps)%nat.
Proof.
  revert k. induction steps as [|step steps IH]; intros k; simpl; [lia|].
  destruct (usesPage step && negb (page_ok (platform k))); [lia|].
  specialize (IH (S k)). lia.
Qed.

Lemma executeSteps_executed platform k session
    (steps : list AutomationStep) :
  executeSteps platform k session steps
  = ({| rs_videoPath := rs_videoPath session;
        rs_timestamps :=
          rs_timestamps session
          ++ recorded platform k (rs_startTime session)
               (take (executed platform k steps) steps);
        rs_startTime := rs_startTime session |},
     bool_decide (executed platform k steps = length steps)).
Proof.
  revert k session. induction steps as [|step steps IH]; intros k session.
  - simpl. unfold recorded. simpl. rewrite app_nil_r. by destruct session.
  - simpl. unfold executeStep.
    destruct (usesPage step && negb (page_ok (platform k))) eqn:Hfail.
    + simpl. unfold recorded. simpl. rewrite app_nil_r. by destruct session.
    + rewrite IH. simpl. rewrite recorded_cons, <- app_assoc. simpl.
      f_equal. apply bool_decide_ext. lia.
Qed.

Lemma executed_ok platform k (steps : list AutomationStep) i s :
  (i < executed platform k steps)%nat → steps !! i = Some s →
  usesPage s = true → page_ok (platform (k + i)%nat) = true.
Proof.
  revert k i. induction steps as [|step steps IH]; intros k i; simpl; [lia|].
  destruct (usesPage step && negb (page_ok (platform k))) eqn:Hfail; [lia|].
  destruct i as [|i]; simpl; intros Hi Hs Hu.
  - injection Hs as <-. rewrite Nat.add_0_r.
    rewrite Hu in Hfail. simpl in Hfail. by apply negb_false_iff in Hfail.
  - replace (k + S i)%nat with (S k + i)%nat by lia.
    apply IH; [lia | done | done].
Qed.

Lemma executed_stop platform k (steps : list AutomationStep) :
  (executed platform k steps < length steps)%nat →
  ∃ s, steps !! executed platform k steps = Some s ∧ usesPage s = true
       ∧ page_ok (platform (k + executed platform k steps)%nat) = false.
Proof.
  revert k. induction steps as [|step steps IH]; intros k; simpl; [lia|].
  destruct (usesPage step && negb (page_ok (platform k))) eqn:Hfail.
  - intros _. exists step.
    apply andb_prop in Hfail as [Hu Hp%negb_true_iff].
    by rewrite Nat.add_0_r.
  - intros Hlt. destruct (IH (S k)) as (s & Hs & Hu & Hp); [lia|].
    exists s. simpl.
    by replace (k + S (executed platform (S k) steps))%nat
      with (S k + executed platform (S k) steps)%nat by lia.
Qed.

(** X16.  [executeSteps] pushes one timestamp for each step it
    executes, in order, carrying the id of the step and the two clock
    readings taken around it, and never touches the timestamps that
    were there.  It executes the steps up to the first one whose calls
    on the page fail: that step and the steps after it get no
    timestamp. *)
Theorem executeSteps_records platform k session
    (steps : list AutomationStep) :
  ∃ n,
    (n ≤ length steps)%nat
    ∧ executeSteps platform k session steps
      = ({| rs_videoPath := rs_videoPath session;
            rs_timestamps :=
              rs_timestamps session
              ++ recorded platform k (rs_startTime session) (take n steps);
            rs_startTime := rs_startTime session |},
         bool_decide (n = length steps))
    ∧ (∀ i s, (i < n)%nat → steps !! i = Some s → usesPage s = true →
              page_ok (platform (k + i)%nat) = true)
    ∧ ((n < length steps)%nat →
       ∃ s, steps !! n = Some s ∧ usesPage s = true
            ∧ page_ok (platform (k + n)%nat) = false).
Proof.
  exists (executed platform k steps).
  split; [apply executed_le|]. split; [apply executeSteps_executed|].
  split.
  - intros i s. apply executed_ok.
  - apply executed_stop.
Qed.

Lemma executeSteps_records_witness :
  let platform :=
    λ j, {| now_before := 1000 + 500 * Z.of_nat j;
            page_ok := bool_decide (j ≠ 3%nat);
            now_after := 1400 + 500 * Z.of_nat j |} in
  ∃ n s, sampleTrace !! n = Some s ∧ usesPage s = true
         ∧ n = 3%nat
         ∧ (executeSteps platform 0 (newSession 1000) sampleTrace).2 = false.
Proof.
  intros platform.
  destruct (executeSteps_records platform 0 (newSession 1000) sampleTrace)
    as (n & Hn & Hrun & _ & Hstop).
  assert (Hlt : (n < length sampleTrace)%nat).
  { apply (f_equal snd) in Hrun. simpl in Hrun.
    symmetry in Hrun. apply bool_decide_eq_false in Hrun.
    simpl in Hn |- *. lia. }
  destruct (Hstop Hlt) as (s & Hs & Hu & Hp).
  exists n, s. split; [exact Hs|]. split; [exact Hu|]. split; [|reflexivity].
  simpl in Hp. apply bool_decide_eq_false in Hp. lia.
Defined.

Lemma recorded_stepIds platform k start (steps : list AutomationStep) :
  ts_stepId <$> recorded platform k start steps = step_id <$> steps.
Proof.
  unfold recorded. rewrite fmap_imap, <- imap_const. by apply imap_ext.
Qed.

Lemma timestampOf_recorded timestamps s :
  step_id s ∈ ts_stepId <$> timestamps → is_Some (timestampOf timestamps s).
Proof.
  intros (t & Hid & Hin)%list_elem_of_fmap. unfold timestampOf, Js.find.
  destruct (list_find_elem_of (λ t, ts_stepId t = step_id s) timestamps t
              Hin (eq_sym Hid)) as [[i t'] ->].
  by eexists.
Qed.

(** X17.  When no call on the page fails, a fresh session records
    exactly one timestamp per step of the trace, in the order of the
    trace.  Compiled with these timestamps, every step that declares a
    highlight hint gets its highlight and every step with narration
    gets its subtitle. *)
Theorem complete_recording_covers_trace platform now
    (steps : list AutomationStep)
    (Hok : ∀ j, page_ok (platform j) = true) :
  let (session, finished) := executeSteps platform 0 (newSession now) steps in
  let timestamps := rs_timestamps session in
  finished = true
  ∧ ts_stepId <$> timestamps = step_id <$> steps
  ∧ allRecorded timestamps steps
  ∧ length (generateHighlights steps timestamps)
    = length (filter (λ s, is_Some (step_highlight s)) steps)
  ∧ length (generateSubtitles steps timestamps)
    = length (filter (λ s, step_narration s ≠ EmptyString) steps).
Proof.
  rewrite executeSteps_executed.
  assert (executed platform 0 steps = length steps) as ->.
  { pose proof (executed_le platform 0 steps).
    destruct (decide (executed platform 0 steps < length steps)%nat)
      as [Hlt|]; [|lia].
    destruct (executed_stop _ _ _ Hlt) as (s & _ & _ & Hp).
    by rewrite Hok in Hp. }
  simpl. rewrite firstn_all.
  assert (allRecorded (recorded platform 0 now steps) steps) as Hall.
  { intros s Hs. apply timestampOf_recorded. rewrite recorded_stepIds.
    apply list_elem_of_fmap. eauto. }
  split; [by apply bool_decide_eq_true|].
  split; [apply recorded_stepIds|]. split; [done|]. split.
  - rewrite generateHighlights_length. apply Nat.le_antisymm.
    + apply filter_length_le. by intros s _ [? _].
    + apply filter_length_le. intros s Hs Hh. split; [done | by apply Hall].
  - rewrite <- (length_fmap sub_id), subtitle_ids, length_fmap.
    apply Nat.le_antisymm.
    + apply filter_length_le. by intros s _ [? _].
    + apply filter_length_le. intros s Hs Hh. split; [done | by apply Hall].
Qed.

Lemma complete_recording_covers_trace_witness :
  let platform :=
    λ j, {| now_before := 1000 + 500 * Z.of_nat j; page_ok := true;
            now_after := 1400 + 500 * Z.of_nat j |} in
  let timestamps :=
    rs_timestamps (executeSteps platform 0 (newSession 1000) sampleTrace).1 in
  timestamps
  = [mkTimestamp "s1" 0 400; mkTimestamp "s2" 500 900;
     mkTimestamp "s3" 1000 1400; mkTimestamp "s4" 1500 1900]
  ∧ length (generateHighlights sampleTrace timestamps) = 2%nat.
Proof.
  intros platform timestamps. split; [reflexivity|].
  pose proof (complete_recording_covers_trace platform 1000 sampleTrace
                (λ _, eq_refl)) as Hcover.
  unfold timestamps.
  destruct (executeSteps platform 0 (newSession 1000) sampleTrace)
    as [session finished].
  destruct Hcover as (_ & _ & _ & Hhl & _). simpl. rewrite Hhl. reflexivity.
Defined.

Lemma clockNonDecreasing_S platform k :
  clockNonDecreasing platform k → clockNonDecreasing platform (S k).
Proof. intros Hclock j Hj. apply Hclock. lia. Qed.

Lemma recorded_endsNonDecreasing platform k start
    (steps : list AutomationStep) :
  clockNonDecreasing platform k →
  endsNonDecreasing (recorded platform k start steps) = true.
Proof.
  revert k. induction steps as [|s steps IH]; intros k Hclock; [done|].
  rewrite recorded_cons. destruct steps as [|s' steps]; [done|].
  specialize (IH (S k) (clockNonDecreasing_S _ _ Hclock)).
  rewrite recorded_cons in IH |- *.
  cbn [endsNonDecreasing ts_endTime]. apply andb_true_intro. split; [|exact IH].
  apply Z.leb_le.
  destruct (Hclock k (Nat.le_refl k)) as [_ H1].
  destruct (Hclock (S k)) as [H2 _]; [lia|]. lia.
Qed.

Lemma recorded_windows platform k start (steps : list AutomationStep) :
  clockNonDecreasing platform k →
  Forall (λ t, ts_startTime t ≤ ts_endTime t)
         (recorded platform k start steps).
Proof.
  intros Hclock. apply Forall_forall.
  intros t (i & s & -> & _)%elem_of_lookup_imap_1. simpl.
  destruct (Hclock (k + i)%nat) as [H1 _]; lia.
Qed.

(** X18.  When the clock never runs backwards, the timestamps a fresh
    session records, also when the recording stops early, have windows
    that do not end before they start and end times that never
    decrease; the project compiled with them lasts until the largest
    end time. *)
Theorem steady_clock_duration_is_max platform now
    (steps : list AutomationStep) env input dir out
    (Hclock : clockNonDecreasing platform 0)
    (Hts : timestamps input
           = rs_timestamps
               (executeSteps platform 0 (newSession now) steps).1)
    (Hrun : assembleProject env input dir = Some out) :
  endsNonDecreasing (timestamps input) = true
  ∧ Forall (λ t, ts_startTime t ≤ ts_endTime t) (timestamps input)
  ∧ p_duration (project out) = maxEndTime (timestamps input).
Proof.
  rewrite executeSteps_executed in Hts. simpl in Hts.
  assert (endsNonDecreasing (timestamps input) = true) as Hmono
    by (rewrite Hts; by apply recorded_endsNonDecreasing).
  split; [exact Hmono|]. split.
  - rewrite Hts. by apply recorded_windows.
  - apply assembleProject_Some in Hrun as ->. simpl.
    by rewrite duration_last, maxEndTime_last.
Qed.

Lemma steady_clock_duration_is_max_witness :
  let platform :=
    λ j, {| now_before := 1000 + 500 * Z.of_nat j; page_ok := true;
            now_after := 1400 + 500 * Z.of_nat j |} in
  let timestamps :=
    rs_timestamps (executeSteps platform 0 (newSession 1000) sampleTrace).1 in
  clockNonDecreasing platform 0
  ∧ ∃ out,
      assembleProject (quietEnv "id-1" "t1") (mkInput sampleTrace timestamps)
        "out" = Some out
      ∧ maxEndTime timestamps = 1900
      ∧ p_duration (project out) = maxEndTime timestamps.
Proof.
  intros platform timestamps.
  assert (clockNonDecreasing platform 0) as Hclock
    by (intros j _; simpl; lia).
  split; [exact Hclock|]. eexists. split; [reflexivity|].
  split; [reflexivity|].
  exact (proj2 (proj2 (steady_clock_duration_is_max platform 1000 sampleTrace
                         (quietEnv "id-1" "t1")
                         (mkInput sampleTrace timestamps) "out" _
                         Hclock eq_refl eq_refl))).
Defined.

End BrowserProps.

(** ** Further properties of the element detector *)

Section DetectorInvariants.
Import ElementDetector DetectorProps.

Lemma str_or_nonempty s d : d ≠ EmptyString → Js.str_or s d ≠ EmptyString.
Proof. intros Hd. unfold Js.str_or. by case_decide. Qed.

Lemma toLowerCase_nonempty s :
  s ≠ EmptyString → Js.toLowerCase s ≠ EmptyString.
Proof. by destruct s. Qed.

Lemma app_nonempty_l (s t : string) :
  s ≠ EmptyString → s +:+ t ≠ EmptyString.
Proof. by destruct s. Qed.

(** X19.  The information returned for a detected element always
    names the field: the field name is never empty, and a field name
    whose length, counted in UTF-16 code units, is 100 or more can only
    be the fallback built from the tag and the type.  The field type is
    missing or not empty, and the selector is not empty when the tag
    name is not. *)
Theorem detected_info_is_usable elem actionType :
  let info := detectElement_info elem actionType in
  info_fieldName info ≠ EmptyString
  ∧ ((100 ≤ Js.length (info_fieldName info))%nat →
     info_fieldName info = Js.str_or (fallbackName elem) "unknown")
  ∧ info_fieldType info ≠ Some EmptyString
  ∧ info_action info = actionType
  ∧ (tagName elem ≠ EmptyString → info_selector info ≠ EmptyString).
Proof.
  simpl. split_and!.
  - unfold inferFieldName. by apply str_or_nonempty.
  - unfold inferFieldName. cbv zeta.
    destruct (namedBy elem) as [n|]; [|done].
    destruct (negb (Js.truthy (Some n))
              || bool_decide (Js.length n = 0)%nat
              || bool_decide (100 ≤ Js.length n)%nat) eqn:Hfb; [done|].
    apply orb_false_elim in Hfb as [Hfb Hlong].
    apply orb_false_elim in Hfb as [Hn _].
    apply bool_decide_eq_false in Hlong.
    apply negb_false_iff, bool_decide_eq_true in Hn.
    unfold Js.str_or. rewrite decide_False by done. lia.
  - unfold or_undefined. destruct (getAttribute elem "type") as [t|]; [|done].
    simpl. case_bool_decide; [|done]. by intros [= ->].
  - done.
  - intros Htag. unfold buildSelector. cbv zeta.
    pose proof (toLowerCase_nonempty _ Htag) as Hlow.
    repeat case_match; try done; by apply app_nonempty_l.
Qed.

Lemma detected_info_is_usable_witness :
  let elem := mkElement "INPUT" [("type", "email")] EmptyString in
  tagName elem ≠ EmptyString
  ∧ info_fieldName (detectElement_info elem "click") = "input (email)"
  ∧ info_selector (detectElement_info elem "click") ≠ EmptyString.
Proof.
  intros elem. assert (tagName elem ≠ EmptyString) as Htag by done.
  split; [exact Htag|]. split; [reflexivity|].
  destruct (detected_info_is_usable elem "click") as (_ & _ & _ & _ & Hsel).
  exact (Hsel Htag).
Defined.

End DetectorInvariants.

Section TranslationProps.
Import Translations.

Lemma string_app_assoc (a b c : string) :
  (a +:+ b) +:+ c = a +:+ (b +:+ c).
Proof.
  induction a as [|x a IH]; [done|].
  change (String x ((a +:+ b) +:+ c) = String x (a +:+ (b +:+ c))).
  by rewrite IH.
Qed.

Lemma string_app_nil_r (a : string) : a +:+ EmptyString = a.
Proof.
  induction a as [|x a IH]; [done|].
  change (String x (a +:+ EmptyString) = String x a). by rewrite IH.
Qed.

Lemma generateTranslations_lookup inh info lang :
  generateTranslations inh info !! lang
  = if decide (lang ∈ languages)
    then Some {| tt_fieldName := ei_fieldName info;
                 tt_actionDescription :=
                   generateActionDescription inh info lang |}
    else None.
Proof.
  unfold generateTranslations, languages. simpl.
  rewrite !lookup_insert, lookup_empty.
  destruct (decide ("ar" = lang)) as [<-|Har]; [done|].
  destruct (decide ("en" = lang)) as [<-|Hen]; [done|].
  destruct (decide ("he" = lang)) as [<-|Hhe]; [done|].
  rewrite decide_False; [done|].
  intros Hin. repeat (apply elem_of_cons in Hin as [->|Hin]; [done|]).
  by apply elem_of_nil in Hin.
Qed.

(** X20.  The translations generated for an element have an entry for
    Hebrew, English and Arabic and for no other language.  Every entry
    keeps the field name as it was detected, and its description is
    the action word, a space and that field name, followed by the typed
    value in quotes only when the action is "type" and a value was
    typed. *)
Theorem translations_cover_three_languages inh info :
  let tr := generateTranslations inh info in
  dom tr = list_to_set languages
  ∧ ∀ lang t, tr !! lang = Some t →
      lang ∈ languages
      ∧ tt_fieldName t = ei_fieldName info
      ∧ ∃ suffix,
          tt_actionDescription t
          = lookupWord inh lang (ei_action info) +:+ " "
            +:+ ei_fieldName info +:+ suffix
          ∧ (suffix = EmptyString
             ∨ ei_action info = "type" ∧ Js.truthy (ei_value info) = true).
Proof.
  intros tr. split.
  - apply set_eq. intros lang. rewrite elem_of_dom. unfold tr.
    rewrite generateTranslations_lookup, elem_of_list_to_set.
    case_decide; split; first [ done | by eexists | by intros [? [=]] ].
  - intros lang t. unfold tr. rewrite generateTranslations_lookup.
    case_decide as Hin; [|done]. intros [= <-]. simpl.
    split; [done|]. split; [done|].
    unfold generateActionDescription. cbv zeta.
    destruct (bool_decide (ei_action info = "type")
              && Js.truthy (ei_value info)) eqn:Htyped.
    + eexists. rewrite !string_app_assoc. split; [reflexivity|]. right.
      apply andb_prop in Htyped as [Ha%bool_decide_eq_true Hv]. done.
    + exists EmptyString. split; [|by left].
      by rewrite string_app_nil_r.
Qed.

Lemma translations_cover_three_languages_witness :
  let inh := {| proto_text := λ _, None; proto_member := λ _ _, None |} in
  let info :=
    {| ei_tagName := "input"; ei_fieldName := "Email";
       ei_fieldType := Some "email"; ei_action := "type";
       ei_value := Some "demo@example.com"; ei_selector := "#email" |} in
  ∃ t, generateTranslations inh info !! "en" = Some t
       ∧ tt_actionDescription t
         = "Type in Email: " +:+ Js.dquote +:+ "demo@example.com" +:+ Js.dquote
       ∧ tt_fieldName t = "Email".
Proof.
  intros inh info. eexists. split; [reflexivity|]. split; [reflexivity|].
  destruct (translations_cover_three_languages inh info) as [_ Hentry].
  by destruct (Hentry "en" _ eq_refl) as (_ & Hname & _).
Defined.

(** The value typed by a recording is shown whole; a value of more
    than 20 code units is cut. *)
Example description_preview_sample :
  let info value :=
    {| ei_tagName := "input"; ei_fieldName := "Email";
       ei_fieldType := Some "text"; ei_action := "type";
       ei_value := Some value; ei_selector := "#email" |} in
  generateActionDescription MoreProps.plainObjects (info "טקסט לדוגמה") "en"
  = "Type in Email: " +:+ Js.dquote +:+ "טקסט לדוגמה" +:+ Js.dquote
  ∧ generateActionDescription MoreProps.plainObjects
      (info "a-value-of-more-than-twenty") "en"
    = "Type in Email: " +:+ Js.dquote +:+ "a-value-of-more-than..."
      +:+ Js.dquote.
Proof. split; reflexivity. Qed.

(** X21.  For a language that is none of Hebrew, English and Arabic
    (and not a property name that every object inherits) the
    description is the English one. *)
Theorem description_falls_back_to_english inh info language
    (Hother : language ∉ languages)
    (Hplain : proto_text inh language = None) :
  generateActionDescription inh info language
  = generateActionDescription inh info "en".
Proof.
  assert (translations !! language = None) as Hnone.
  { unfold translations. simpl. rewrite !lookup_insert, lookup_empty.
    destruct (decide ("he" = language)) as [<-|_];
      [destruct Hother; by left|].
    destruct (decide ("en" = language)) as [<-|_];
      [destruct Hother; by right; left|].
    destruct (decide ("ar" = language)) as [<-|_];
      [destruct Hother; by right; right; left|].
    done. }
  unfold generateActionDescription, lookupWord.
  rewrite Hnone, Hplain. reflexivity.
Qed.

Lemma description_falls_back_to_english_witness :
  let inh := {| proto_text := λ _, None; proto_member := λ _ _, None |} in
  let info :=
    {| ei_tagName := "button"; ei_fieldName := "Send";
       ei_fieldType := None; ei_action := "hover";
       ei_value := None; ei_selector := "button" |} in
  generateActionDescription inh info "fr" = "Hover over Send".
Proof.
  intros inh info.
  rewrite (description_falls_back_to_english inh info "fr");
    [reflexivity | | reflexivity].
  intros Hin. repeat (apply elem_of_cons in Hin as [[=]|Hin]).
  by apply elem_of_nil in Hin.
Defined.

End TranslationProps.

(** ** Properties of the recording loop *)

Section RecordingProps.
Import Server Translations Recording MoreProps.

Lemma max_q_ge a b : (b <= max_q a b)%Q.
Proof.
  unfold max_q. destruct (Qle_bool a b) eqn:Hle; [apply Qle_refl|].
  apply Qlt_le_weak, Qnot_le_lt. intros Hab.
  apply Qle_bool_iff in Hab. congruence.
Qed.

Lemma detectElement_action seen action value detected :
  detectElement seen action value = Some detected →
  ei_action (de_info detected) = action.
Proof.
  unfold detectElement. destruct seen as [d|]; [|done].
  simpl. by intros [= <-].
Qed.

Lemma stepOf_wellFormed inh c timestamp file action detected :
  ei_action (de_info detected) = action →
  wellFormedStep (stepOf inh (S c) timestamp file action detected).
Proof.
  intros Haction. unfold wellFormedStep, stepOf. cbn [order content stp_id
    stp_duration stp_position pos_width pos_height stp_highlightType
    stp_elementInfo sei_action stp_translations].
  split_and!.
  - do 2 f_equal. lia.
  - done.
  - apply max_q_ge.
  - apply max_q_ge.
  - rewrite Haction. case_bool_decide; split; done.
  - rewrite dom_fmap_L. apply set_eq. intros lang.
    rewrite elem_of_dom, generateTranslations_lookup, elem_of_list_to_set.
    case_decide; split; first [ done | by eexists | by intros [? [=]] ].
Qed.

(** The loop entered with the counter at [c]: the steps it adds carry
    increasing orders from [c] on. *)
Lemma recordFieldsFrom_orders inh tutorialId startTime state fields state' :
  recordFieldsFrom inh tutorialId startTime state fields = Some state' →
  ∃ new,
    sessionSteps state' = sessionSteps state ++ new
    ∧ order <$> new
      `sublist_of` Z.of_nat <$> seq (stepCounter state) (length fields)
    ∧ Forall wellFormedStep new
    ∧ (Forall (λ f, is_Some (f_first f) → is_Some (f_second f)) fields →
       order <$> new = Z.of_nat <$> seq (stepCounter state) (length new)).
Proof.
  revert state. induction fields as [|f fields IH]; intros state Hrun.
  - simpl in Hrun. injection Hrun as <-. exists []. rewrite app_nil_r.
    split; [done|]. split; [done|]. split; [by constructor | done].
  - simpl in Hrun.
    destruct (recordField inh tutorialId startTime state f) as [mid|] eqn:Hf;
      [|done].
    simpl in Hrun. destruct (IH mid Hrun) as (new & Hsteps & Hsub & Hwf & Hdense).
    unfold recordField in Hf.
    destruct (f_ok f); simpl in Hf; [|done].
    assert (order <$> new
            `sublist_of` Z.of_nat <$> seq (stepCounter state)
                                          (length (f :: fields))
            → stepCounter mid = stepCounter state
            → sessionSteps mid = sessionSteps state
            → ∃ new0,
                sessionSteps state' = sessionSteps state ++ new0
                ∧ order <$> new0
                  `sublist_of` Z.of_nat <$> seq (stepCounter state)
                                                (length (f :: fields))
                ∧ Forall wellFormedStep new0
                ∧ (Forall (λ f, is_Some (f_first f) → is_Some (f_second f))
                          (f :: fields) →
                   order <$> new0
                   = Z.of_nat <$> seq (stepCounter state) (length new0)))
      as Hskip.
    { intros Hsub' Hc Hs. exists new. rewrite Hsteps, Hs.
      split; [done|]. split; [done|]. split; [done|].
      intros Hre. apply Forall_cons in Hre as [_ Hre].
      rewrite <- Hc. by apply Hdense. }
    assert (stepCounter mid = stepCounter state →
            order <$> new
            `sublist_of` Z.of_nat <$> seq (stepCounter state)
                                          (length (f :: fields))) as Hsub0.
    { intros Hc. rewrite Hc in Hsub. simpl length.
      rewrite seq_S, fmap_app. by apply sublist_inserts_r. }
    case_bool_decide as Hhidden;
      [injection Hf as <-; by apply Hskip; [apply Hsub0|..]|].
    destruct (f_visible f); simpl in Hf;
      [|injection Hf as <-; by apply Hskip; [apply Hsub0|..]].
    destruct (detectElement (f_first f) "click" None) as [d1|] eqn:Hd1;
      [|injection Hf as <-; by apply Hskip; [apply Hsub0|..]].
    destruct (actionFor (Js.toLowerCase (f_tagName f)) (f_type f))
      as [action value].
    destruct (detectElement (f_second f) action value) as [d2|] eqn:Hd2;
      injection Hf as <-; cbn [stepCounter sessionSteps] in *.
    + set (s := stepOf inh (S (stepCounter state)) (f_now f - startTime)
                  (tutorialId +:+ "_step"
                   +:+ padStart3 (pretty (S (stepCounter state))) +:+ ".png")
                  action d2) in *.
      assert (order s = Z.of_nat (stepCounter state)) as Ho
        by (unfold s, stepOf; cbn [order]; lia).
      exists (s :: new). rewrite Hsteps, <- app_assoc.
      split; [done|]. split; [|split].
      * rewrite fmap_cons, Ho. cbn [length seq]. rewrite fmap_cons.
        by apply sublist_skip.
      * apply Forall_cons. split; [|done].
        apply stepOf_wellFormed. by eapply detectElement_action.
      * intros Hre. apply Forall_cons in Hre as [_ Hre].
        rewrite fmap_cons, Ho, (Hdense Hre). done.
    + exists new. split; [done|]. split; [|split; [done|]].
      * cbn [length seq]. rewrite fmap_cons. by apply sublist_cons.
      * intros Hre. apply Forall_cons in Hre as [Hf1 _].
        unfold detectElement in Hd1, Hd2.
        destruct (f_first f); [|done]. destruct (f_second f); [done|].
        by destruct Hf1 as [? [=]].
Qed.

(** X22.  The steps a recording collects are numbered by the counter
    of processed fields: their orders increase along the list and lie
    between 0 and the number of fields, the id of a step is "step-"
    followed by its order plus one, so the ids are pairwise distinct,
    and the orders are exactly 0, 1, 2, ... when every field detected
    at first is detected again after the action.  Every step lasts
    2000 ms, is at least 5 wide and 3 high, is framed by a rectangle
    exactly when the action is "type", and is translated into Hebrew,
    English and Arabic. *)
Theorem recorded_steps_are_numbered inh tutorialId startTime fields steps
    (Hrec : recordFields inh tutorialId startTime fields = Some steps) :
  order <$> steps `sublist_of` Z.of_nat <$> seq 0 (length fields)
  ∧ NoDup ((stp_id ∘ content) <$> steps)
  ∧ Forall (λ s,
      stp_id (content s) = "step-" +:+ pretty (Z.to_nat (order s) + 1)%nat
      ∧ stp_duration (content s) = 2000
      ∧ (5 <= pos_width (stp_position (content s)))%Q
      ∧ (3 <= pos_height (stp_position (content s)))%Q
      ∧ (stp_highlightType (content s) = rectangle
         ↔ sei_action (stp_elementInfo (content s)) = "type")
      ∧ dom (stp_translations (content s)) = list_to_set languages) steps
  ∧ (Forall (λ f, is_Some (f_first f) → is_Some (f_second f)) fields →
     order <$> steps = Z.of_nat <$> seq 0 (length steps)).
Proof.
  unfold recordFields in Hrec.
  apply fmap_Some in Hrec as (state' & Hrun & ->).
  destruct (recordFieldsFrom_orders _ _ _ _ _ _ Hrun)
    as (new & Hsteps & Hsub & Hwf & Hdense).
  simpl in Hsteps, Hsub, Hdense. rewrite Hsteps.
  split; [done|]. split; [|split; [exact Hwf | done]].
  assert (NoDup (order <$> new)) as Horders.
  { eapply sublist_NoDup; [|exact Hsub].
    apply NoDup_fmap_2; [apply _ | apply NoDup_seq]. }
  assert ((stp_id ∘ content) <$> new
          = (λ s, "step-" +:+ pretty (Z.to_nat (order s) + 1)%nat) <$> new)
    as ->.
  { apply Forall_fmap_ext. eapply Forall_impl; [exact Hwf|].
    by intros s (Hid & _). }
  apply NoDup_fmap_2_strong; [|by eapply NoDup_fmap_1].
  intros s1 s2 Hs1 Hs2 Heq.
  apply (inj (String.app "step-")) in Heq. apply (inj pretty) in Heq.
  assert (∀ s, s ∈ new → 0 ≤ order s) as Hnn.
  { intros s Hs.
    assert (order s ∈ Z.of_nat <$> seq 0 (length fields)) as Hin.
    { eapply elem_of_sublist; [|exact Hsub]. apply list_elem_of_fmap. eauto. }
    apply list_elem_of_fmap in Hin as (k & -> & _). lia. }
  pose proof (Hnn s1 Hs1). pose proof (Hnn s2 Hs2).
  assert (order s1 = order s2) as Ho by lia.
  apply list_elem_of_lookup_1 in Hs1 as [i1 Hi1].
  apply list_elem_of_lookup_1 in Hs2 as [i2 Hi2].
  assert (i1 = i2) as <-.
  { eapply NoDup_lookup; [exact Horders| |];
      rewrite list_lookup_fmap; [by rewrite Hi1 | by rewrite Hi2, Ho]. }
  congruence.
Qed.

Lemma recorded_steps_are_numbered_witness :
  let fields :=
    [seenField "INPUT" "email" 1200; seenField "INPUT" "hidden" 1300;
     seenField "BUTTON" "submit" 2100] in
  ∃ steps,
    recordFields plainObjects "tut" 1000 fields = Some steps
    ∧ (stp_id ∘ content) <$> steps = ["step-1"; "step-2"]
    ∧ (sei_action ∘ stp_elementInfo ∘ content) <$> steps = ["type"; "hover"]
    ∧ order <$> steps = [0; 1].
Proof.
  intros fields.
  destruct (recordFields plainObjects "tut" 1000 fields) as [steps|] eqn:Hrec;
    [|by vm_compute in Hrec].
  exists steps. split; [done|].
  destruct (recorded_steps_are_numbered _ _ _ _ _ Hrec)
    as (_ & _ & _ & Hdense).
  assert (length steps = 2%nat) as Hlen
    by (vm_compute in Hrec; by injection Hrec as <-).
  split; [vm_compute in Hrec; by injection Hrec as <-|].
  split; [vm_compute in Hrec; by injection Hrec as <-|].
  rewrite Hdense, Hlen; [reflexivity|].
  repeat (apply Forall_cons; split; [intros _; by eexists|]).
  apply Forall_nil_2.
Defined.

End RecordingProps.

(** ** Properties of the highlights taken from recorded metadata *)

Section MetadataHighlights.
Import Assembler Props MoreProps AssembleGov Recording.

(** X23.  The highlights made from recorded metadata are one per
    recorded step, in order, under pairwise distinct ids
    "highlight-auto-i"; each is shown for 2000 ms from the time of its
    step, is at least 5 wide and 3 high, and is labelled with the field
    name.  When there is at least one, a run given these highlights
    puts exactly them into the highlight layer. *)
Theorem metadata_highlights_are_used (steps : list MetadataStep)
    env input dir out
    (Hsome : steps ≠ [])
    (Hauto : autoHighlights input = Some (autoHighlightsOf (Some steps)).1)
    (Hrun : assembleProject env input dir = Some out) :
  let hs := (autoHighlightsOf (Some steps)).1 in
  highlights (p_layers (project out)) = hs
  ∧ length hs = length steps
  ∧ hl_id <$> hs
    = (λ i, "highlight-auto-" +:+ pretty i) <$> seq 0 (length steps)
  ∧ NoDup (hl_id <$> hs)
  ∧ (∀ i step, steps !! i = Some step →
       ∃ e w h, hs !! i = Some e
                ∧ hl_start e = m_timestamp step
                ∧ hl_end e = m_timestamp step + 2000
                ∧ hl_label e = Some (ei_fieldName (m_info step))
                ∧ hl_width e = Some w ∧ (5 <= w)%Q ∧ (m_width step <= w)%Q
                ∧ hl_height e = Some h ∧ (3 <= h)%Q ∧ (m_height step <= h)%Q).
Proof.
  assert ((autoHighlightsOf (Some steps)).1 = imap highlightOfMetadata steps)
    as Hhs.
  { unfold autoHighlightsOf. rewrite bool_decide_true; [done|].
    destruct steps; [done | simpl; lia]. }
  cbv zeta. rewrite Hhs in Hauto |- *.
  assert (hl_id <$> imap highlightOfMetadata steps
          = (λ i : nat, "highlight-auto-" +:+ pretty i)
            <$> seq 0 (length steps)) as Hids.
  { rewrite fmap_imap, <- imap_seq_0. by apply imap_ext. }
  split_and!.
  - apply assembleProject_Some in Hrun as ->. simpl.
    unfold highlightsLayer. rewrite Hauto, bool_decide_true; [done|].
    rewrite length_imap. destruct steps; [done | simpl; lia].
  - apply length_imap.
  - exact Hids.
  - rewrite Hids. apply NoDup_fmap_2; [|apply NoDup_seq].
    intros i j Heq. apply (inj (String.app "highlight-auto-")) in Heq.
    by apply (inj pretty) in Heq.
  - intros i step Hstep. eexists _, _, _.
    rewrite list_lookup_imap, Hstep. simpl.
    split; [reflexivity|]. simpl. split_and!; try reflexivity.
    + apply max_q_ge.
    + unfold max_q. destruct (Qle_bool (m_width step) 5) eqn:Hle;
        [by apply Qle_bool_iff | apply Qle_refl].
    + apply max_q_ge.
    + unfold max_q. destruct (Qle_bool (m_height step) 3) eqn:Hle;
        [by apply Qle_bool_iff | apply Qle_refl].
Qed.

Lemma metadata_highlights_are_used_witness :
  let steps :=
    [mkMetadataStep "Email" "type" 1200 30 2;
     mkMetadataStep "Send" "hover" 2100 2 4] in
  let hs := (autoHighlightsOf (Some steps)).1 in
  ∃ out,
    assembleProject (quietEnv "id-1" "t1")
      (withAutoHighlights (Some hs) (mkInput sampleTrace [])) "out" = Some out
    ∧ hl_id <$> hs = ["highlight-auto-0"; "highlight-auto-1"]
    ∧ hl_type <$> hs = [rectangle; pulse]
    ∧ highlights (p_layers (project out)) = hs.
Proof.
  intros steps hs. eexists. split; [reflexivity|]. split; [reflexivity|].
  split; [reflexivity|].
  exact (proj1 (metadata_highlights_are_used steps (quietEnv "id-1" "t1")
                  (withAutoHighlights (Some hs) (mkInput sampleTrace []))
                  "out" _ ltac:(done) eq_refl eq_refl)).
Defined.

End MetadataHighlights.

(** ** Properties of project creation *)

Section CreateProject.
Import Server TutorialApi Translations.

(** X24.  A project is refused exactly when its name or its target
    URL is missing or empty.  A project that is created carries the id
    handed out, the name, the description and the target URL of the
    request, no tutorial, and the time of the request as creation and
    update time.  Each of its settings is the one of the request when
    the request gives it, and otherwise the default: Hebrew, the
    languages Hebrew, English and Arabic, a viewport of 1280 by 720, no
    credentials and no theme.  When the request names no languages, the
    default language is one of the available languages, and these are
    the languages every recorded step is translated into. *)
Theorem created_project_settings projectId now fsError body :
  let requested {A} (f : PartialSettings → option A) : option A :=
    cp_settings body ≫= f in
  (createProjectHandler projectId now fsError body
   = BadRequest "Missing required fields: name and targetUrl"
   ↔ Js.truthy (cp_name body) = false ∨ Js.truthy (cp_targetUrl body) = false)
  ∧ ∀ project,
      createProjectHandler projectId now fsError body = Created project →
      fsError = None
      ∧ sp_id project = projectId
      ∧ Some (sp_name project) = cp_name body
      ∧ sp_description project = cp_description body
      ∧ Some (sp_targetUrl project) = cp_targetUrl body
      ∧ sp_name project ≠ EmptyString
      ∧ sp_targetUrl project ≠ EmptyString
      ∧ sp_tutorials project = []
      ∧ sp_createdAt project = now ∧ sp_updatedAt project = now
      ∧ set_defaultLanguage (sp_settings project)
        = default "he" (requested ps_defaultLanguage)
      ∧ set_availableLanguages (sp_settings project)
        = default ["he"; "en"; "ar"] (requested ps_availableLanguages)
      ∧ set_viewport (sp_settings project)
        = default (1280, 720) (requested ps_viewport)
      ∧ set_credentials (sp_settings project) = requested ps_credentials
      ∧ set_theme (sp_settings project) = requested ps_theme
      ∧ (requested ps_defaultLanguage = None →
         requested ps_availableLanguages = None →
         set_defaultLanguage (sp_settings project)
         ∈ set_availableLanguages (sp_settings project)
         ∧ ∀ inh info,
             dom (generateTranslations inh info)
             = list_to_set (set_availableLanguages (sp_settings project))).
Proof.
  intros requested. unfold createProjectHandler. split.
  - destruct (Js.truthy (cp_name body)), (Js.truthy (cp_targetUrl body));
      simpl; try (split; [by auto | done]).
    split; [|by intros [[=]|[=]]]. by destruct fsError.
  - intros project.
    destruct (Js.truthy (cp_name body)) eqn:Hname; simpl; [|done].
    destruct (Js.truthy (cp_targetUrl body)) eqn:Hurl; simpl; [|done].
    destruct fsError; [done|]. intros [= <-]. simpl.
    destruct (cp_name body) as [name|]; [|done].
    destruct (cp_targetUrl body) as [url|]; [|done].
    simpl in *. apply bool_decide_eq_true in Hname, Hurl.
    split_and!; try done.
    unfold requested. intros -> ->. simpl. split; [by left|].
    intros inh info. apply set_eq. intros lang.
    rewrite elem_of_dom. unfold generateTranslations, languages. simpl.
    rewrite !lookup_insert, lookup_empty, !elem_of_union,
      !elem_of_singleton, elem_of_empty.
    destruct (decide ("ar" = lang)) as [<-|Har]; [split; eauto|].
    destruct (decide ("en" = lang)) as [<-|Hen]; [split; eauto|].
    destruct (decide ("he" = lang)) as [<-|Hhe]; [split; eauto|].
    split; [by intros [? [=]]|]. intros [->|[->|[->|[]]]]; congruence.
Qed.

Lemma created_project_settings_witness :
  let body :=
    {| cp_name := Some "Gmail"; cp_description := None;
       cp_targetUrl := Some "https://mail.example.org";
       cp_settings :=
         Some {| ps_defaultLanguage := None; ps_availableLanguages := None;
                 ps_credentials := None; ps_viewport := Some (1920, 1080);
                 ps_theme := None |} |} in
  ∃ project,
    createProjectHandler "p-1" "now" None body = Created project
    ∧ set_viewport (sp_settings project) = (1920, 1080)
    ∧ sp_targetUrl project = "https://mail.example.org"
    ∧ set_defaultLanguage (sp_settings project)
      ∈ set_availableLanguages (sp_settings project).
Proof.
  intros body. eexists. split; [reflexivity|]. split; [reflexivity|].
  split; [reflexivity|].
  destruct (proj2 (created_project_settings "p-1" "now" None body) _ eq_refl)
    as (_ & _ & _ & _ & _ & _ & _ & _ & _ & _ & _ & _ & _ & _ & _ & Hlang).
  exact (proj1 (Hlang eq_refl eq_refl)).
Defined.

End CreateProject.
